(** * bim-quantify: the IFC model extraction engine and the viewer's
      camera, measurement and storey filter, embedded in Rocq.

    Sources embedded here:
    - [src/lib/ifc-parser.ts]: [extractQuantityFromPsets], [computeBoundingBox],
      [parseIFCFile] (storeys, gross floor area, total volume),
      [extractIFCGeometry];
    - [src/pages/Index.tsx]: the [filteredMeshes] memo;
    - [src/components/IFCViewer.tsx] (orbit and measurement revision):
      [updateCamera], the mesh effect, [createMeasurementLine], [onClick].

    Conventions.  JavaScript numbers are idealised: measures, coordinates and
    matrix entries of the parser are exact rationals ([Q]), express ids are
    integers ([Z]), and the viewer, which needs [sin], [cos] and [sqrt], works
    over the reals ([R]).  [NaN], infinities and the rounding of double
    arithmetic are not represented; the store into a [Float32Array], which
    [extractIFCGeometry] performs on every coordinate, is ([fround]).  The
    web-ifc decoder and three.js are external:
    the decoder is a record of functions ([IfcAPI]) over which every theorem
    quantifies. *)

From Stdlib Require Import QArith Qround Qminmax Reals Lqa Lra Lia String Ascii List.
From Stdlib Require Import Sorted Permutation DecimalString Qpower Qabs.
From stdpp Require Import base option list gmap strings.
Import ListNotations.

Set Warnings "-register-all".

(** ** Abrupt completion: a call either returns a value or throws. *)

Inductive completion (A : Type) : Type :=
| Normal (a : A)
| Throw.
Arguments Normal {A} a.
Arguments Throw {A}.

#[global] Instance completion_ret : MRet completion := @Normal.
#[global] Instance completion_bind : MBind completion := fun A B f m =>
  match m with
  | Normal a => f a
  | Throw => Throw
  end.

(** [try { body } catch { handler }] *)
Definition try_catch {A : Type} (body : completion A) (handler : A) : A :=
  match body with
  | Normal a => a
  | Throw => handler
  end.

(** ** Decoded records as JavaScript values *)

Inductive jsval : Type :=
| JUndefined
| JNull
| JBool (b : bool)
| JNum (q : Q)
| JStr (s : string)
| JArr (items : list jsval)
| JObj (fields : list (string * jsval)).

(** [!v] is [negb (truthy v)]. *)
Definition truthy (v : jsval) : bool :=
  match v with
  | JUndefined | JNull => false
  | JBool b => b
  | JNum q => negb (Qeq_bool q 0)
  | JStr s => negb (String.eqb s "")
  | JArr _ | JObj _ => true
  end.

(** [v == null] *)
Definition nullish (v : jsval) : bool :=
  match v with
  | JUndefined | JNull => true
  | _ => false
  end.

Inductive jstype : Type :=
| TUndefined | TObject | TBoolean | TNumber | TString.

Definition typeof (v : jsval) : jstype :=
  match v with
  | JUndefined => TUndefined
  | JNull | JArr _ | JObj _ => TObject
  | JBool _ => TBoolean
  | JNum _ => TNumber
  | JStr _ => TString
  end.

Definition is_object (v : jsval) : bool :=
  match typeof v with TObject => true | _ => false end.

Fixpoint assoc (k : string) (fields : list (string * jsval)) : jsval :=
  match fields with
  | [] => JUndefined
  | (k', v) :: rest => if String.eqb k k' then v else assoc k rest
  end.

(** [v.k]: a TypeError on [undefined] and [null]; the attribute names read by
    the parser are not own properties of arrays, strings, numbers or
    booleans, where the access yields [undefined]. *)
Definition get (v : jsval) (k : string) : completion jsval :=
  match v with
  | JUndefined | JNull => Throw
  | JObj fields => Normal (assoc k fields)
  | _ => Normal JUndefined
  end.

(** [v?.k] *)
Definition get_opt (v : jsval) (k : string) : completion jsval :=
  if nullish v then Normal JUndefined else get v k.

(** [a ?? b] with [b] evaluated on demand *)
Definition coalesce (a : jsval) (b : completion jsval) : completion jsval :=
  if nullish a then b else Normal a.

(** The sequence a [for (const x of v)] loop walks; a TypeError when [v] is
    not iterable.  Strings iterate over their characters. *)
Definition iterate (v : jsval) : completion (list jsval) :=
  match v with
  | JArr items => Normal items
  | JStr s => Normal (map (fun c => JStr (String c EmptyString)) (list_ascii_of_string s))
  | _ => Throw
  end.

(** [names.includes(v)] for a list of string literals *)
Definition includes (names : list string) (v : jsval) : bool :=
  match v with
  | JStr s => existsb (String.eqb s) names
  | _ => false
  end.

(** ** The decoder (web-ifc's [IfcAPI]), an external collaborator *)

Inductive IfcType : Type :=
| IFCPROJECT | IFCSITE | IFCBUILDING | IFCBUILDINGSTOREY
| IFCRELCONTAINEDINSPATIALSTRUCTURE | IFCRELAGGREGATES
| IFCSPACE
| IFCWALL | IFCWALLSTANDARDCASE | IFCSLAB | IFCCOLUMN | IFCBEAM.

(** One placed geometry of a flat mesh: the interleaved vertex buffer
    (six scalars per vertex) and the 16-entry [flatTransformation]. *)
Record PlacedGeometry : Type := {
  vertexData : list Q;
  flatTransformation : list Q
}.

(** The two relation kinds read by the storey assignment, and the storey
    record, are typed views of [GetLine]: an attribute is what the parser's
    own [typeof] and null tests distinguish. *)
Inductive jsref : Type :=
| RefObject (value : option Z) (expressID : option Z)
    (* a non-null object; either field may be absent or null *)
| RefNumber (n : Z)
| RefOther.
    (* null, undefined, a string, a boolean *)

Inductive jsrefs : Type :=
| RefsFalsy              (* attribute absent, null or otherwise falsy *)
| RefsArray (refs : list jsref)
| RefsNotIterable.       (* truthy but not iterable: the loop header throws *)

Record RelLine : Type := {
  Relating : jsref;      (* RelatingStructure / RelatingObject *)
  Related : jsrefs       (* RelatedElements / RelatedObjects *)
}.

Record StoreyLine : Type := {
  Name_value : option string;       (* [storey.Name?.value] when truthy *)
  Elevation_value : option Q        (* [storey.Elevation?.value] when not nullish *)
}.

Record IfcAPI : Type := {
  GetLineIDsWithType : IfcType -> list Z;
  (** [GetLine(modelID, id, flatten)] as a raw JavaScript value *)
  GetLine : jsval -> bool -> completion jsval;
  (** [GetLine] of a storey id; [None] is an [undefined] result *)
  GetStoreyLine : Z -> completion (option StoreyLine);
  (** [GetLine(modelID, id, false)] of a relation id *)
  GetRelLine : Z -> completion (option RelLine);
  (** [GetFlatMesh] followed by [GetGeometry]/[GetVertexArray] per part;
      [None] stands for a missing mesh *)
  GetFlatMesh : Z -> completion (option (list PlacedGeometry))
}.

(** ** Quantity resolver: [extractQuantityFromPsets] *)

(** The four-way [??] chain of the quantities loop; the last operand is
    returned even when nullish. *)
Definition quantity_value (quantity : jsval) : completion jsval :=
  a ← get quantity "AreaValue"; v ← get_opt a "value";
  coalesce v (
    a ← get quantity "VolumeValue"; v ← get_opt a "value";
    coalesce v (
      a ← get quantity "LengthValue"; v ← get_opt a "value";
      coalesce v (
        a ← get quantity "NominalValue"; get_opt a "value"))).

Definition property_value (prop : jsval) : completion jsval :=
  a ← get prop "NominalValue"; get_opt a "value".

(** [quantity && quantity.Name && quantityNames.includes(quantity.Name.value)] *)
Definition name_matches (quantityNames : list string) (line : jsval) : completion bool :=
  if negb (truthy line) then Normal false else
  name ← get line "Name";
  if negb (truthy name) then Normal false else
  nv ← get name "value";
  Normal (includes quantityNames nv).

(** One of the two inner loops.  [Some n] is the early [return val]; [None]
    means the loop ran to its end. *)
Fixpoint scan_lines (api : IfcAPI) (quantityNames : list string)
    (read : jsval -> completion jsval) (refs : list jsval) : completion (option Q) :=
  match refs with
  | [] => Normal None
  | q :: rest =>
      if negb (truthy q) then scan_lines api quantityNames read rest else
      qv ← get q "value";
      if negb (truthy qv) then scan_lines api quantityNames read rest else
      line ← GetLine api qv false;
      hit ← name_matches quantityNames line;
      if (hit : bool) then
        val ← read line;
        match val with
        | JNum n => Normal (Some n)
        | _ => scan_lines api quantityNames read rest
        end
      else scan_lines api quantityNames read rest
  end.

(** [if (pset && pset.K) { for (const q of pset.K) ... }] *)
Definition scan_collection (api : IfcAPI) (quantityNames : list string)
    (read : jsval -> completion jsval) (pset : jsval) (K : string) : completion (option Q) :=
  if negb (truthy pset) then Normal None else
  coll ← get pset K;
  if negb (truthy coll) then Normal None else
  refs ← iterate coll;
  scan_lines api quantityNames read refs.

(** The body of the [try] inside the relation loop. *)
Definition scan_relation (api : IfcAPI) (quantityNames : list string)
    (rel : jsval) : completion (option Q) :=
  rv ← get rel "value";
  relLine ← GetLine api rv true;
  if negb (truthy relLine) then Normal None else
  psetRef ← get relLine "RelatingPropertyDefinition";
  if negb (truthy psetRef) then Normal None else
  pv ← (if is_object psetRef then get psetRef "value" else Normal JUndefined);
  pset ← (if is_object psetRef && truthy pv then GetLine api pv true else Normal JNull);
  found ← scan_collection api quantityNames quantity_value pset "Quantities";
  match found with
  | Some n => Normal (Some n)
  | None => scan_collection api quantityNames property_value pset "HasProperties"
  end.

(** [for (const rel of psets.IsDefinedBy)]: a relation whose processing
    throws is skipped by the inner [catch { continue; }]. *)
Fixpoint scan_relations (api : IfcAPI) (quantityNames : list string)
    (rels : list jsval) : completion (option Q) :=
  match rels with
  | [] => Normal None
  | rel :: rest =>
      if negb (truthy rel) then scan_relations api quantityNames rest else
      rv ← get rel "value";
      if negb (truthy rv) then scan_relations api quantityNames rest else
      match try_catch (r ← scan_relation api quantityNames rel; Normal (Some r)) None with
      | Some (Some n) => Normal (Some n)
      | _ => scan_relations api quantityNames rest
      end
  end.

Definition resolver_body (api : IfcAPI) (elementID : jsval)
    (quantityNames : list string) : completion (option Q) :=
  psets ← GetLine api elementID true;
  if negb (truthy psets) then Normal None else
  isDefinedBy ← get psets "IsDefinedBy";
  if negb (truthy isDefinedBy) then Normal None else
  rels ← iterate isDefinedBy;
  scan_relations api quantityNames rels.

(** The function as its callers see it: a completion, so that "never throws"
    is a statement and not a typing convention. *)
Definition extractQuantityFromPsets (api : IfcAPI) (elementID : jsval)
    (quantityNames : list string) : completion (option Q) :=
  Normal (try_catch (resolver_body api elementID quantityNames) None).

(** ** Geometry baker: the placement transform and [computeBoundingBox] *)

(** [matrix[i]] of a 16-entry [flatTransformation] *)
Definition at_ (matrix : list Q) (i : nat) : Q := nth i matrix 0%Q.

Record Point3 : Type := { px : Q; py : Q; pz : Q }.

(** The transform as written in [computeBoundingBox] (tx, ty, tz). *)
Definition bbox_world (matrix : list Q) (x y z : Q) : Point3 :=
  {| px := at_ matrix 0 * x + at_ matrix 4 * y + at_ matrix 8 * z + at_ matrix 12;
     py := at_ matrix 1 * x + at_ matrix 5 * y + at_ matrix 9 * z + at_ matrix 13;
     pz := at_ matrix 2 * x + at_ matrix 6 * y + at_ matrix 10 * z + at_ matrix 14 |}%Q.

(** The transform as written in [extractIFCGeometry] (positions[v*3 ..]). *)
Definition mesh_world (matrix : list Q) (x y z : Q) : Point3 :=
  {| px := at_ matrix 0 * x + at_ matrix 4 * y + at_ matrix 8 * z + at_ matrix 12;
     py := at_ matrix 1 * x + at_ matrix 5 * y + at_ matrix 9 * z + at_ matrix 13;
     pz := at_ matrix 2 * x + at_ matrix 6 * y + at_ matrix 10 * z + at_ matrix 14 |}%Q.

Record BoundingBox : Type := {
  minX : Q; minY : Q; minZ : Q;
  maxX : Q; maxY : Q; maxZ : Q
}.

(** The six running extrema.  They start at [Infinity]/[-Infinity] and all
    become finite with the first vertex, so [None] is the initial state and
    [minX === Infinity] is the test for [None]. *)
Definition extend (acc : option BoundingBox) (p : Point3) : option BoundingBox :=
  match acc with
  | None =>
      Some {| minX := px p; minY := py p; minZ := pz p;
              maxX := px p; maxY := py p; maxZ := pz p |}
  | Some b =>
      Some {| minX := Qmin (minX b) (px p); minY := Qmin (minY b) (py p);
              minZ := Qmin (minZ b) (pz p);
              maxX := Qmax (maxX b) (px p); maxY := Qmax (maxY b) (py p);
              maxZ := Qmax (maxZ b) (pz p) |}
  end.

(** [for (let v = 0; v < verts.length; v += 6)]: the buffer holds whole
    vertices of six scalars, of which the first three are the position. *)
Fixpoint bbox_vertices (matrix verts : list Q) (acc : option BoundingBox)
    : option BoundingBox :=
  match verts with
  | x :: y :: z :: _ :: _ :: _ :: rest =>
      bbox_vertices matrix rest (extend acc (bbox_world matrix x y z))
  | _ => acc
  end.

Definition bbox_geometries (geoms : list PlacedGeometry) : option BoundingBox :=
  fold_left
    (fun acc g => bbox_vertices (flatTransformation g) (vertexData g) acc)
    geoms None.

Definition computeBoundingBox (api : IfcAPI) (elementID : Z) : option BoundingBox :=
  try_catch
    (flatMesh ← GetFlatMesh api elementID;
     match flatMesh with
     | None | Some [] => Normal None
     | Some geoms => Normal (bbox_geometries geoms)
     end)
    None.

(** *** The store into a [Float32Array]

    [positions] is a [Float32Array]: an assignment [positions[i] = v] stores
    the single-precision value nearest to [v], the one with the even
    significand on a tie.  Singles have 24 significant bits; below 2^-126
    they are the multiples of 2^-149.  Where the nearest single would lie
    beyond the largest one (from 2^128 - 2^103 on) the array holds an
    infinity, which, like every non-finite number, is outside the rationals
    of this development: statements about stored values are made within
    [single_range]. *)

(** [2^k] *)
Definition pow2 (k : Z) : Q := (2 ^ k)%Q.

(** The binary exponent of [v > 0]: [2^e <= v < 2^(e+1)]. *)
Definition ilog2 (v : Q) : Z :=
  let e0 := (Z.log2 (Qnum v) - Z.log2 (Zpos (Qden v)))%Z in
  if Qle_bool (pow2 e0) v then e0 else (e0 - 1)%Z.

(** The nearest integer, the even one on a tie. *)
Definition round_half_even (s : Q) : Z :=
  let f := Qfloor s in
  match Qcompare (s - inject_Z f) (1 # 2) with
  | Lt => f
  | Gt => (f + 1)%Z
  | Eq => if Z.even f then f else (f + 1)%Z
  end.

(** The exponent of the spacing of the singles around [v > 0]. *)
Definition quantum (v : Q) : Z := (Z.max (ilog2 v) (-126) - 23)%Z.

Definition fround_pos (v : Q) : Q :=
  (inject_Z (round_half_even (v / pow2 (quantum v))) * pow2 (quantum v))%Q.

(** [Math.fround(v)], the value a [Float32Array] element takes on
    assignment of [v]. *)
Definition fround (v : Q) : Q :=
  match Qcompare v 0 with
  | Eq => 0%Q
  | Gt => fround_pos v
  | Lt => (- fround_pos (- v))%Q
  end.

(** [extractIFCGeometry]: the positions buffer of one placed geometry,
    three scalars per vertex, each stored into the [Float32Array]. *)
Fixpoint bake_positions (matrix vertexData : list Q) : list Q :=
  match vertexData with
  | x :: y :: z :: _ :: _ :: _ :: rest =>
      let p := mesh_world matrix x y z in
      fround (px p) :: fround (py p) :: fround (pz p) :: bake_positions matrix rest
  | _ => []
  end.

(** ** Model aggregator: gross floor area and total volume *)

(** [Math.round(x * 100) / 100]; [Math.round] rounds halves up. *)
Definition round2 (x : Q) : Q :=
  (inject_Z (Qfloor (x * 100 + (1 # 2))) / 100)%Q.

Definition SPACE_AREA_NAMES : list string :=
  ["GrossFloorArea"; "NetFloorArea"; "Area"; "GrossArea"; "NetArea"].
Definition SLAB_AREA_NAMES : list string :=
  ["GrossArea"; "NetArea"; "Area"; "GrossSideArea"].
Definition VOLUME_NAMES : list string :=
  ["NetVolume"; "GrossVolume"; "Volume"].

Definition STRUCTURAL_TYPES : list IfcType :=
  [IFCWALL; IFCWALLSTANDARDCASE; IFCSLAB; IFCCOLUMN; IFCBEAM].

Definition id_val (id : Z) : jsval := JNum (inject_Z id).

(** The accumulator pair of the summing loops: ([totalArea], [found]). *)
Definition Totals : Type := (Q * bool)%type.

Definition add_found (acc : Totals) (v : option Q) : Totals :=
  match v with
  | Some a => ((fst acc + a)%Q, true)
  | None => acc
  end.

(** [for (i ...) { area = extractQuantityFromPsets(...); if (area != null) ... }] *)
Fixpoint sum_resolved (api : IfcAPI) (names : list string) (ids : list Z)
    (acc : Totals) : completion Totals :=
  match ids with
  | [] => Normal acc
  | id :: rest =>
      area ← extractQuantityFromPsets api (id_val id) names;
      sum_resolved api names rest (add_found acc area)
  end.

Definition bbox_area (bb : BoundingBox) : Q :=
  ((maxX bb - minX bb) * (maxY bb - minY bb))%Q.

Definition bbox_volume (bb : BoundingBox) : Q :=
  ((maxX bb - minX bb) * (maxY bb - minY bb) * (maxZ bb - minZ bb))%Q.

(** The bounding-box tier of the gross floor area. *)
Fixpoint sum_bbox_areas (api : IfcAPI) (ids : list Z) (acc : Totals) : Totals :=
  match ids with
  | [] => acc
  | id :: rest =>
      sum_bbox_areas api rest
        (add_found acc (bbox_area <$> computeBoundingBox api id))
  end.

Definition grossFloorArea_body (api : IfcAPI) : completion (option Q) :=
  let spaceIDs := GetLineIDsWithType api IFCSPACE in
  acc ← sum_resolved api SPACE_AREA_NAMES spaceIDs (0%Q, false);
  acc ← (if negb (snd acc)
         then sum_resolved api SLAB_AREA_NAMES (GetLineIDsWithType api IFCSLAB) acc
         else Normal acc);
  let acc := (if negb (snd acc)
              then sum_bbox_areas api (GetLineIDsWithType api IFCSLAB) acc
              else acc) in
  Normal (if snd acc then Some (round2 (fst acc)) else None).

(** [grossFloorArea] starts as [null] and is assigned on the last line of the
    [try]. *)
Definition grossFloorArea (api : IfcAPI) : option Q :=
  try_catch (grossFloorArea_body api) None.

(** The loop over the ids of one structural type.  [volume] and [found] live
    outside the per-type [try], so what was added before a throw is kept: the
    result is the state reached, whether or not the loop ran to its end. *)
Fixpoint volume_of_ids (api : IfcAPI) (ids : list Z) (acc : Totals) : Totals :=
  match ids with
  | [] => acc
  | id :: rest =>
      match extractQuantityFromPsets api (id_val id) VOLUME_NAMES with
      | Throw => acc
      | Normal (Some vol) => volume_of_ids api rest ((fst acc + vol)%Q, true)
      | Normal None =>
          volume_of_ids api rest
            (add_found acc (bbox_volume <$> computeBoundingBox api id))
      end
  end.

Definition volume_of_types (api : IfcAPI) (types : list IfcType) (acc : Totals) : Totals :=
  fold_left (fun acc type => volume_of_ids api (GetLineIDsWithType api type) acc)
    types acc.

Definition totalVolume (api : IfcAPI) : option Q :=
  let acc := volume_of_types api STRUCTURAL_TYPES (0%Q, false) in
  if snd acc then Some (round2 (fst acc)) else None.

(** ** Spatial hierarchy builder: the storey block of [parseIFCFile] *)

Record IFCStoreyData : Type := {
  name : string;
  elevation : Q;
  expressID : Z;
  elementIDs : list Z
}.

Definition decimal (n : nat) : string := NilZero.string_of_uint (Nat.to_uint n).

(** The discovery loop.  [storeys] is declared outside the [try], so the
    storeys pushed before a throw stay in it; the flag tells whether the
    loop ran to its end.  [storey.Name] throws when [GetLine] returned
    [undefined]. *)
Fixpoint discover (api : IfcAPI) (storeyIDs : list Z) (i : nat)
    (storeys : list IFCStoreyData) : list IFCStoreyData * bool :=
  match storeyIDs with
  | [] => (storeys, true)
  | sid :: rest =>
      match GetStoreyLine api sid with
      | Normal (Some storey) =>
          discover api rest (S i)
            (storeys ++ [{| name := default ("Storey " +:+ decimal (i + 1)) (Name_value storey);
                            elevation := default 0%Q (Elevation_value storey);
                            expressID := sid;
                            elementIDs := [] |}])
      | _ => (storeys, false)
      end
  end.

(** [Array.prototype.sort] with a comparator.  The language requires the
    sort to be stable, and for a consistent comparator the stable sorted
    arrangement is unique, so it is given here by insertion: [x] goes before
    the first [y] with [cmp x y <= 0]. *)
Fixpoint sort_insert {A : Type} (cmp : A -> A -> Q) (x : A) (l : list A) : list A :=
  match l with
  | [] => [x]
  | y :: l' =>
      if Qle_bool (cmp x y) 0 then x :: y :: l' else y :: sort_insert cmp x l'
  end.

Definition js_sort {A : Type} (cmp : A -> A -> Q) (l : list A) : list A :=
  fold_right (sort_insert cmp) [] l.

(** [(a, b) => a.elevation - b.elevation] *)
Definition by_elevation (a b : IFCStoreyData) : Q := (elevation a - elevation b)%Q.

Record Assignment : Type := {
  storeys : list IFCStoreyData;
  elementToStorey : gmap Z Z
}.

(** [storeys.find(s => s.expressID === id)]: the first match, with its
    position, which stands for the object reference the passes mutate. *)
Definition find_storey (id : Z) (l : list IFCStoreyData) : option (nat * IFCStoreyData) :=
  list_find (fun s => expressID s = id) l.

(** [s.elementIDs.push(elID)] *)
Definition push (elID : Z) (s : IFCStoreyData) : IFCStoreyData :=
  {| name := name s; elevation := elevation s; expressID := expressID s;
     elementIDs := elementIDs s ++ [elID] |}.

(** [storeyData.elementIDs.push(elID); elementToStorey.set(elID, sid)] on the
    storey at position [i] *)
Definition record_element (i : nat) (sid elID : Z) (st : Assignment) : Assignment :=
  {| storeys := alter (push elID) i (storeys st);
     elementToStorey := <[elID := sid]> (elementToStorey st) |}.

(** The id a [RelatingStructure], [RelatingObject] or [objRef] resolves to:
    an object's non-null [value], or a bare number. *)
Definition ref_id (r : jsref) : option Z :=
  match r with
  | RefObject (Some v) _ => Some v
  | RefNumber n => Some n
  | _ => None
  end.

(** The id an [elRef] of the containment pass resolves to; an object without
    [value] may still carry an [expressID]. *)
Definition element_ref_id (r : jsref) : option Z :=
  match r with
  | RefObject (Some v) _ => Some v
  | RefNumber n => Some n
  | RefObject None (Some e) => Some e
  | _ => None
  end.

(** The body of the loop over [rel.RelatedElements]: no test of
    [elementToStorey] before recording. *)
Definition contain_element (i : nat) (storeyExpressID : Z) (st : Assignment)
    (elRef : jsref) : Assignment :=
  match element_ref_id elRef with
  | Some elID => record_element i storeyExpressID elID st
  | None => st
  end.

(** One iteration of the containment loop, lines 220-247. *)
Definition contain_relation (api : IfcAPI) (st : Assignment) (relID : Z) : Assignment :=
  match GetRelLine api relID with
  | Normal (Some rel) =>
      match ref_id (Relating rel) with
      | None => st
      | Some storeyExpressID =>
          match find_storey storeyExpressID (storeys st) with
          | None => st
          | Some (i, _) =>
              match Related rel with
              | RefsArray refs => fold_left (contain_element i storeyExpressID) refs st
              | _ => st
              end
          end
      end
  | _ => st
  end.

Definition containment_pass (api : IfcAPI) (st : Assignment) : Assignment :=
  fold_left (contain_relation api) (GetLineIDsWithType api IFCRELCONTAINEDINSPATIALSTRUCTURE) st.

(** The body of the loop over [rel.RelatedObjects]:
    [if (objID != null && !elementToStorey.has(objID))]. *)
Definition aggregate_object (i : nat) (targetStorey : IFCStoreyData)
    (st : Assignment) (objRef : jsref) : Assignment :=
  match ref_id objRef with
  | Some objID =>
      match elementToStorey st !! objID with
      | None => record_element i (expressID targetStorey) objID st
      | Some _ => st
      end
  | None => st
  end.

(** One iteration of the aggregation loop, lines 255-283. *)
Definition aggregate_relation (api : IfcAPI) (st : Assignment) (relID : Z) : Assignment :=
  match GetRelLine api relID with
  | Normal (Some rel) =>
      match ref_id (Relating rel) with
      | None => st
      | Some parentID =>
          let storeyData := find_storey parentID (storeys st) in
          let targetStorey :=
            match storeyData with
            | Some t => Some t
            | None =>
                match elementToStorey st !! parentID with
                | Some sid => find_storey sid (storeys st)
                | None => None
                end
            end in
          match targetStorey with
          | None => st
          | Some (i, target) =>
              match Related rel with
              | RefsArray refs => fold_left (aggregate_object i target) refs st
              | _ => st
              end
          end
      end
  | _ => st
  end.

Definition aggregation_pass (api : IfcAPI) (st : Assignment) : Assignment :=
  fold_left (aggregate_relation api) (GetLineIDsWithType api IFCRELAGGREGATES) st.

(** Lines 199-291: discovery, sort and the two passes.  When discovery
    throws, the outer [catch] is reached before the sort. *)
Definition parse_storeys (api : IfcAPI) : list IFCStoreyData :=
  let '(found, completed) := discover api (GetLineIDsWithType api IFCBUILDINGSTOREY) 0 [] in
  if completed then
    storeys
      (aggregation_pass api
         (containment_pass api
            {| storeys := js_sort by_elevation found; elementToStorey := ∅ |}))
  else found.

(** The fields of [IFCBuildingData] this development covers. *)
Record IFCBuildingData : Type := {
  bd_storeyCount : nat;
  bd_storeys : list IFCStoreyData;
  bd_grossFloorArea : option Q;
  bd_totalVolume : option Q
}.

Definition parseIFCFile (api : IfcAPI) : IFCBuildingData :=
  let storeys := parse_storeys api in
  {| bd_storeyCount := length storeys;
     bd_storeys := storeys;
     bd_grossFloorArea := grossFloorArea api;
     bd_totalVolume := totalVolume api |}.

(** ** Storey filter: the [filteredMeshes] memo of [Index.tsx] *)

Record Color : Type := { color_r : Q; color_g : Q; color_b : Q; color_a : Q }.

Record IFCMeshData : Type := {
  meshExpressID : Z;
  vertices : list Q;
  indices : list Z;
  color : Color
}.

(** [!selectedStoreyID] for a [number | null] *)
Definition falsy_id (selectedStoreyID : option Z) : bool :=
  match selectedStoreyID with
  | None => true
  | Some id => Z.eqb id 0
  end.

Definition filteredMeshes (allMeshes : list IFCMeshData)
    (selectedStoreyID : option Z) (buildingData : option IFCBuildingData)
    : list IFCMeshData :=
  if falsy_id selectedStoreyID || negb (bool_decide (is_Some buildingData))
  then allMeshes else
  match selectedStoreyID, buildingData with
  | Some id, Some data =>
      match find_storey id (bd_storeys data) with
      | None => allMeshes
      | Some (_, storey) =>
          let allowedIDs : gset Z := list_to_set (elementIDs storey) in
          filter (fun m => meshExpressID m ∈ allowedIDs) allMeshes
      end
  | _, _ => allMeshes
  end.

(** ** The viewer: orbit camera and measurement ([IFCViewer.tsx]) *)

Module Viewer.
Local Open Scope R_scope.

Record Vector3 : Type := { x : R; y : R; z : R }.

(** [a.distanceTo(b)] *)
Definition distanceTo (a b : Vector3) : R :=
  sqrt ((x a - x b) * (x a - x b) + (y a - y b) * (y a - y b)
        + (z a - z b) * (z a - z b)).

Record Box3 : Type := { box_min : Vector3; box_max : Vector3 }.

(** [a < b] as a test *)
Definition ltb (a b : R) : bool := if Rlt_dec a b then true else false.

Definition isEmpty (box : Box3) : bool :=
  ltb (x (box_max box)) (x (box_min box))
  || ltb (y (box_max box)) (y (box_min box))
  || ltb (z (box_max box)) (z (box_min box)).

Definition zero3 : Vector3 := {| x := 0; y := 0; z := 0 |}.

(** three.js [Box3.getCenter] and [Box3.getSize]: zero for an empty box. *)
Definition getCenter (box : Box3) : Vector3 :=
  if isEmpty box then zero3 else
  {| x := (x (box_min box) + x (box_max box)) * (1 / 2);
     y := (y (box_min box) + y (box_max box)) * (1 / 2);
     z := (z (box_min box) + z (box_max box)) * (1 / 2) |}.

Definition getSize (box : Box3) : Vector3 :=
  if isEmpty box then zero3 else
  {| x := x (box_max box) - x (box_min box);
     y := y (box_max box) - y (box_min box);
     z := z (box_max box) - z (box_min box) |}.

(** The object stored in [orbitRef.current] by
    [{ rotX, rotY, distance, target, updateCamera }]: the three numbers are
    copied into it, while [target] and [updateCamera] are references to the
    closure's own vector and function, which this record therefore does not
    repeat. *)
Record OrbitRef : Type := {
  orbit_rotX : R;
  orbit_rotY : R;
  orbit_distance : R
}.

(** The variables of the mount effect's closure, the camera, and the ref. *)
Record Orbit : Type := {
  rotX : R;
  rotY : R;
  distance : R;
  target : Vector3;
  camera_position : Vector3;
  orbitRef : option OrbitRef
}.

(** [updateCamera], which reads the closure's [target], [distance], [rotX]
    and [rotY]. *)
Definition updateCamera (o : Orbit) : Orbit :=
  {| rotX := rotX o; rotY := rotY o; distance := distance o; target := target o;
     camera_position :=
       {| x := x (target o) + distance o * sin (rotY o) * cos (rotX o);
          y := y (target o) + distance o * sin (rotX o);
          z := z (target o) + distance o * cos (rotY o) * cos (rotX o) |};
     orbitRef := orbitRef o |}.

(** The mount effect: initial values, first [updateCamera], then the ref. *)
Definition mount : Orbit :=
  let o := updateCamera
             {| rotX := - (1 / 2); rotY := 1 / 2; distance := 50; target := zero3;
                camera_position := zero3; orbitRef := None |} in
  {| rotX := rotX o; rotY := rotY o; distance := distance o; target := target o;
     camera_position := camera_position o;
     orbitRef := Some {| orbit_rotX := rotX o; orbit_rotY := rotY o;
                         orbit_distance := distance o |} |}.

(** [onWheel] *)
Definition onWheel (deltaY : R) (o : Orbit) : Orbit :=
  updateCamera
    {| rotX := rotX o; rotY := rotY o;
       distance := Rmax 1 (Rmin 5000 (distance o * (1 + deltaY * (1 / 1000))));
       target := target o; camera_position := camera_position o;
       orbitRef := orbitRef o |}.

(** [Math.max(size.x, size.y, size.z)] *)
Definition maxDim (box : Box3) : R :=
  let size := getSize box in Rmax (Rmax (x size) (y size)) (z size).

(** "Center camera on model", the end of the mesh effect:
    [orbit.target.copy(center)] writes through to the shared vector,
    [orbit.distance = maxDim * 2] writes the ref's own field, and
    [orbit.updateCamera()] runs the closure. *)
Definition centerCamera (box : Box3) (o : Orbit) : Orbit :=
  match orbitRef o with
  | Some orbit =>
      if ltb 0 (maxDim box) then
        updateCamera
          {| rotX := rotX o; rotY := rotY o; distance := distance o;
             target := getCenter box;
             camera_position := camera_position o;
             orbitRef := Some {| orbit_rotX := orbit_rotX orbit;
                                 orbit_rotY := orbit_rotY orbit;
                                 orbit_distance := maxDim box * 2 |} |}
      else o
  | None => o
  end.

(** The unit direction of the spec's [sphericalToCartesian(yaw, pitch)],
    with [yaw = rotY] and [pitch = rotX]. *)
Definition sphericalToCartesian (yaw pitch : R) : Vector3 :=
  {| x := sin yaw * cos pitch; y := sin pitch; z := cos yaw * cos pitch |}.

(** *** Measurement *)

(** [x.toFixed(2)] for [|x| < 1e21]: the integer [n] nearest to [100 |x|],
    the larger one on a tie, printed with two fraction digits. *)
Definition toFixed2 (v : R) : string :=
  let n := Int_part (Rabs v * 100 + 1 / 2) in
  let frac := (n mod 100)%Z in
  ((if ltb v 0 then "-" else "")
   +:+ decimal (Z.to_nat (n / 100)) +:+ "."
   +:+ decimal (Z.to_nat (frac / 10)) +:+ decimal (Z.to_nat (frac mod 10)))%string.

(** The group built by [createMeasurementLine]. *)
Record MeasurementLine : Type := {
  line_from : Vector3;
  line_to : Vector3;
  spheres : list Vector3;
  label : string;
  label_position : Vector3
}.

Definition createMeasurementLine (p1 p2 : Vector3) : MeasurementLine :=
  let dist := distanceTo p1 p2 in
  {| line_from := p1;
     line_to := p2;
     spheres := [p1; p2];
     label := (toFixed2 dist +:+ " m")%string;
     label_position :=
       {| x := (x p1 + x p2) * (1 / 2);
          y := (y p1 + y p2) * (1 / 2) + 1 / 2;
          z := (z p1 + z p2) * (1 / 2) |} |}.

(** Children of the scene.  Objects are told apart by the id three.js gives
    each of them on creation. *)
Inductive SceneChild : Type :=
| PreviewGroup (id : nat) (point : Vector3)
| MeasurementGroup (id : nat) (m : MeasurementLine)
| OtherChild (id : nat).

Definition child_id (c : SceneChild) : nat :=
  match c with
  | PreviewGroup id _ | MeasurementGroup id _ | OtherChild id => id
  end.

Inductive MeasureMode : Type := none | picking.

Record Measuring : Type := {
  scene : list SceneChild;
  nextId : nat;
  measureMode : MeasureMode;
  measurePoint : option Vector3;     (* measurePointRef.current *)
  measurePreview : option nat        (* measurePreviewRef.current, by id *)
}.

(** [scene.remove(object)] *)
Definition scene_remove (id : nat) (children : list SceneChild) : list SceneChild :=
  List.filter (fun c => negb (Nat.eqb (child_id c) id)) children.

(** [onClick], registered while [measureMode === 'picking']; [hits] is the
    result of [raycaster.intersectObjects] on the mesh group, nearest
    first. *)
Definition onClick (hits : list Vector3) (m : Measuring) : Measuring :=
  match hits with
  | [] => m
  | point :: _ =>
      match measurePoint m with
      | None =>
          {| scene := scene m ++ [PreviewGroup (nextId m) point];
             nextId := S (nextId m);
             measureMode := measureMode m;
             measurePoint := Some point;
             measurePreview := Some (nextId m) |}
      | Some first =>
          let children :=
            match measurePreview m with
            | Some id => scene_remove id (scene m)
            | None => scene m
            end in
          {| scene := children ++ [MeasurementGroup (nextId m) (createMeasurementLine first point)];
             nextId := S (nextId m);
             measureMode := measureMode m;
             measurePoint := None;
             measurePreview := None |}
      end
  end.

(** *** Statements' vocabulary and samples *)

(** [v + k * d] *)
Definition addScaled (v : Vector3) (k : R) (d : Vector3) : Vector3 :=
  {| x := x v + k * x d; y := y v + k * y d; z := z v + k * z d |}.

(** The camera position the spec gives after a model load: the new target
    plus twice the largest dimension along the viewing direction. *)
Definition position_at_twice_maxDim (box : Box3) (o : Orbit) : Vector3 :=
  addScaled (getCenter box) (2 * maxDim box) (sphericalToCartesian (rotY o) (rotX o)).

Definition unit_box : Box3 :=
  {| box_min := zero3; box_max := {| x := 1; y := 1; z := 1 |} |}.

(** A scene with two lights and the mesh group, measurement mode on. *)
Definition measuring_start : Measuring :=
  {| scene := [OtherChild 0; OtherChild 1; OtherChild 2];
     nextId := 3;
     measureMode := picking;
     measurePoint := None;
     measurePreview := None |}.

Definition point_3_4_0 : Vector3 := {| x := 3; y := 4; z := 0 |}.

(** A point 12.34 above the origin. *)
Definition point_above : Vector3 := {| x := 0; y := 0; z := 1234 / 100 |}.

(** *** Pointer events *)

(** The drag state in the mount effect's closure. *)
Record Pointer : Type := {
  isDragging : bool;
  isPanning : bool;
  prevX : R;
  prevY : R
}.

Definition pointer_start : Pointer :=
  {| isDragging := false; isPanning := false; prevX := 0; prevY := 0 |}.

(** [onMouseDown]: the right and the middle button pan, any other rotates. *)
Definition onMouseDown (button : Z) (clientX clientY : R) (p : Pointer) : Pointer :=
  if (Z.eqb button 2 || Z.eqb button 1)%bool
  then {| isDragging := isDragging p; isPanning := true;
          prevX := clientX; prevY := clientY |}
  else {| isDragging := true; isPanning := isPanning p;
          prevX := clientX; prevY := clientY |}.

Definition onMouseUp (p : Pointer) : Pointer :=
  {| isDragging := false; isPanning := false; prevX := prevX p; prevY := prevY p |}.

(** [onMouseMove].  [camRight] and [camUp] are columns 0 and 1 of
    [camera.matrixWorld], whatever the last rendered frame left there. *)
Definition onMouseMove (clientX clientY : R) (camRight camUp : Vector3)
    (s : Pointer * Orbit) : Pointer * Orbit :=
  let (p, o) := s in
  if negb (isDragging p) && negb (isPanning p) then s else
  let dx := clientX - prevX p in
  let dy := clientY - prevY p in
  let moved :=
    if isPanning p then
      let panSpeed := distance o * (2 / 1000) in
      {| rotX := rotX o; rotY := rotY o; distance := distance o;
         target := addScaled (addScaled (target o) (- dx * panSpeed) camRight)
                     (dy * panSpeed) camUp;
         camera_position := camera_position o; orbitRef := orbitRef o |}
    else
      {| rotX := Rmax (- PI / 2 + 1 / 10)
                   (Rmin (PI / 2 - 1 / 10) (rotX o + dy * (5 / 1000)));
         rotY := rotY o + dx * (5 / 1000);
         distance := distance o; target := target o;
         camera_position := camera_position o; orbitRef := orbitRef o |} in
  ({| isDragging := isDragging p; isPanning := isPanning p;
      prevX := clientX; prevY := clientY |},
   updateCamera moved).

(** What reaches the orbit controls: the pointer and wheel events of the
    mount effect, and the mesh effect's run for a non-empty mesh list, whose
    [box] is the box of the mesh group. *)
Inductive Event : Type :=
| MouseDown (button : Z) (clientX clientY : R)
| MouseMove (clientX clientY : R) (camRight camUp : Vector3)
| MouseUp
| Wheel (deltaY : R)
| MeshesChanged (box : Box3).

Definition dispatch (s : Pointer * Orbit) (e : Event) : Pointer * Orbit :=
  match e with
  | MouseDown button clientX clientY => (onMouseDown button clientX clientY (fst s), snd s)
  | MouseMove clientX clientY camRight camUp => onMouseMove clientX clientY camRight camUp s
  | MouseUp => (onMouseUp (fst s), snd s)
  | Wheel deltaY => (fst s, onWheel deltaY (snd s))
  | MeshesChanged box => (fst s, centerCamera box (snd s))
  end.

Definition after (events : list Event) : Pointer * Orbit :=
  fold_left dispatch events (pointer_start, mount).

Definition is_wheel (e : Event) : bool :=
  match e with Wheel _ => true | _ => false end.

(** *** Dimension overlays *)

(** The group built by [createDimensionLine]; the colour is left out. *)
Record DimensionLine : Type := {
  dim_from : Vector3;
  dim_to : Vector3;
  extensions : list (Vector3 * Vector3);
  dim_label : string;
  dim_label_position : Vector3
}.

Definition createDimensionLine (start end_ : Vector3) (text : string)
    (offsetDir : Vector3) : DimensionLine :=
  let offset := 3 / 2 in
  let s := addScaled start offset offsetDir in
  let e := addScaled end_ offset offsetDir in
  let extLen := 8 / 10 in
  {| dim_from := s;
     dim_to := e;
     extensions :=
       map (fun pt : Vector3 * Vector3 =>
              (addScaled (fst pt) (offset - extLen) offsetDir,
               addScaled (snd pt) (extLen * (3 / 10)) offsetDir))
           [(start, s); (end_, e)];
     dim_label := text;
     dim_label_position :=
       addScaled {| x := (x s + x e) * (1 / 2);
                    y := (y s + y e) * (1 / 2);
                    z := (z s + z e) * (1 / 2) |} (1 / 2) offsetDir |}.

(** [v.length()] and [v.normalize()], which divides by [length() || 1]. *)
Definition length3 (v : Vector3) : R := sqrt (x v * x v + y v * y v + z v * z v).

Definition normalize (v : Vector3) : Vector3 :=
  let l := if Req_dec_T (length3 v) 0 then 1 else length3 v in
  {| x := x v / l; y := y v / l; z := z v / l |}.

(** The width, height and depth lines of the mesh effect. *)
Definition dimensionLines (box : Box3) : list DimensionLine :=
  let min := box_min box in
  let max := box_max box in
  let sizeVec := getSize box in
  [ createDimensionLine {| x := x min; y := y min; z := z max |}
      {| x := x max; y := y min; z := z max |}
      (toFixed2 (x sizeVec) +:+ " m")%string
      {| x := 0; y := 0; z := 1 |};
    createDimensionLine {| x := x max; y := y min; z := z max |}
      {| x := x max; y := y max; z := z max |}
      (toFixed2 (y sizeVec) +:+ " m")%string
      (normalize {| x := 1; y := 0; z := 1 |});
    createDimensionLine {| x := x max; y := y min; z := z min |}
      {| x := x max; y := y min; z := z max |}
      (toFixed2 (z sizeVec) +:+ " m")%string
      {| x := 1; y := 0; z := 0 |} ].

(** *** Measurement sessions *)

(** [userData.isMeasurement], set on the measurement groups and on the
    marker of a first pick. *)
Definition isMeasurement (c : SceneChild) : bool :=
  match c with
  | PreviewGroup _ _ | MeasurementGroup _ _ => true
  | OtherChild _ => false
  end.

(** [clearMeasurements], for a mounted viewer. *)
Definition clearMeasurements (m : Measuring) : Measuring :=
  let toRemove := List.filter isMeasurement (scene m) in
  let children :=
    fold_left (fun cs c => scene_remove (child_id c) cs) toRemove (scene m) in
  {| scene := match measurePreview m with
              | Some id => scene_remove id children
              | None => children
              end;
     nextId := nextId m;
     measureMode := measureMode m;
     measurePoint := None;
     measurePreview := None |}.

(** The measure button. *)
Definition toggleMeasure (m : Measuring) : Measuring :=
  match measureMode m with
  | picking =>
      {| scene := scene m; nextId := nextId m; measureMode := none;
         measurePoint := None; measurePreview := measurePreview m |}
  | none =>
      {| scene := scene m; nextId := nextId m; measureMode := picking;
         measurePoint := measurePoint m; measurePreview := measurePreview m |}
  end.

(** What the user can do to a measurement session: the click handler is
    registered only while picking, and the clear button is rendered only
    while not. *)
Inductive Action : Type :=
| Click (hits : list Vector3)
| ToggleMeasure
| Clear.

Definition act (m : Measuring) (a : Action) : Measuring :=
  match a with
  | Click hits =>
      match measureMode m with picking => onClick hits m | none => m end
  | ToggleMeasure => toggleMeasure m
  | Clear =>
      match measureMode m with none => clearMeasurements m | picking => m end
  end.

Definition is_clear (a : Action) : bool :=
  match a with Clear => true | _ => false end.

(** The measurement annotations of a scene, in scene order. *)
Definition measurements (children : list SceneChild) : list MeasurementLine :=
  omap (fun c => match c with MeasurementGroup _ m => Some m | _ => None end) children.

(** The hit points of a series of clicks paired up in order, and the point
    left over. *)
Fixpoint pair_up (points : list Vector3) : list MeasurementLine :=
  match points with
  | p :: q :: rest => createMeasurementLine p q :: pair_up rest
  | _ => []
  end.

Fixpoint left_over (points : list Vector3) : option Vector3 :=
  match points with
  | [] => None
  | [p] => Some p
  | _ :: _ :: rest => left_over rest
  end.

Definition is_marker (c : SceneChild) : bool :=
  match c with PreviewGroup _ _ => true | _ => false end.

(** Scene objects are told apart by their ids: no two children share one,
    every id in use is below the next one, and the marker reference, when
    set, is the id of no object other than a marker. *)
Definition well_formed (m : Measuring) : Prop :=
  NoDup (map child_id (scene m)) /\
  (forall c, In c (scene m) -> (child_id c < nextId m)%nat) /\
  (forall id, measurePreview m = Some id ->
     (id < nextId m)%nat /\
     forall c, In c (scene m) -> child_id c = id -> is_marker c = true).

(** *** Vocabulary of the viewer's properties *)

(** The camera sits where [updateCamera] puts it for the current angles,
    distance and target. *)
Definition in_sync (o : Orbit) : Prop :=
  camera_position o
  = addScaled (target o) (distance o) (sphericalToCartesian (rotY o) (rotX o)).

Definition in_range (o : Orbit) : Prop :=
  - PI / 2 + 1 / 10 <= rotX o <= PI / 2 - 1 / 10 /\
  1 <= distance o <= 5000.

(** The orbit ref still holds the angles it was created with. *)
Definition stale_ref (o : Orbit) : Prop :=
  exists r, orbitRef o = Some r /\ orbit_rotX r = - (1 / 2) /\ orbit_rotY r = 1 / 2.

(** The offset from the target to the camera. *)
Definition view_offset (o : Orbit) : Vector3 :=
  addScaled (camera_position o) (-1) (target o).

(** [box.containsPoint(p)] *)
Definition containsPoint (box : Box3) (p : Vector3) : Prop :=
  x (box_min box) <= x p <= x (box_max box) /\
  y (box_min box) <= y p <= y (box_max box) /\
  z (box_min box) <= z p <= z (box_max box).

(** The extents the three dimension lines are labelled with. *)
Definition extents (box : Box3) : list R :=
  [x (getSize box); y (getSize box); z (getSize box)].

(** *** The mesh effect and the measurement session *)

(** [c.type === 'Group' || c.type === 'Mesh'].  The marker of a first pick
    and the measurement annotations are created by [new THREE.Group()]; for
    the other scene objects the test is a parameter, by id. *)
Definition isGroupOrMesh (typed : nat -> bool) (c : SceneChild) : bool :=
  match c with
  | PreviewGroup _ _ | MeasurementGroup _ _ => true
  | OtherChild id => typed id
  end.

(** The mesh effect, run when the mesh list or the dimension switch changes:
    the groups and meshes of the scene are removed; for a non-empty mesh
    list the mesh group is added and, with dimensions shown, the three
    dimension lines and the box helper.  The measurement refs are not
    touched. *)
Definition meshEffect (typed : nat -> bool) (meshCount : nat) (showDimensions : bool)
    (m : Measuring) : Measuring :=
  let toRemove := List.filter (isGroupOrMesh typed) (scene m) in
  let children :=
    fold_left (fun cs c => scene_remove (child_id c) cs) toRemove (scene m) in
  let added :=
    match meshCount with
    | O => O
    | S _ => if showDimensions then 5%nat else 1%nat
    end in
  {| scene := children ++ map OtherChild (seq (nextId m) added);
     nextId := (nextId m + added)%nat;
     measureMode := measureMode m;
     measurePoint := measurePoint m;
     measurePreview := measurePreview m |}.

End Viewer.

(** ** Statements' vocabulary *)

(** The resolver's result for an express id, as its callers use it. *)
Definition resolve (api : IfcAPI) (names : list string) (id : Z) : option Q :=
  try_catch (extractQuantityFromPsets api (id_val id) names) None.

(** A well-formed path from an entity to a numeric value: an [IsDefinedBy]
    entry, its relation, the property set, a member of [Quantities] or of
    [HasProperties] whose name is a candidate, and the number it carries. *)
Definition line_yields (api : IfcAPI) (names : list string)
    (read : jsval -> completion jsval) (refs : list jsval) (n : Q) : Prop :=
  exists q qv line,
    In q refs /\ truthy q = true /\ get q "value" = Normal qv /\ truthy qv = true /\
    GetLine api qv false = Normal line /\
    name_matches names line = Normal true /\ read line = Normal (JNum n).

Definition collection_yields (api : IfcAPI) (names : list string)
    (read : jsval -> completion jsval) (pset : jsval) (K : string) (n : Q) : Prop :=
  exists coll refs,
    truthy pset = true /\ get pset K = Normal coll /\ truthy coll = true /\
    iterate coll = Normal refs /\ line_yields api names read refs n.

Definition relation_yields (api : IfcAPI) (names : list string)
    (rel : jsval) (n : Q) : Prop :=
  exists rv relLine psetRef pv pset,
    get rel "value" = Normal rv /\ truthy rv = true /\
    GetLine api rv true = Normal relLine /\ truthy relLine = true /\
    get relLine "RelatingPropertyDefinition" = Normal psetRef /\
    truthy psetRef = true /\
    is_object psetRef = true /\ get psetRef "value" = Normal pv /\
    truthy pv = true /\ GetLine api pv true = Normal pset /\
    (collection_yields api names quantity_value pset "Quantities" n \/
     collection_yields api names property_value pset "HasProperties" n).

Definition resolvable (api : IfcAPI) (names : list string) (elementID : jsval)
    (n : Q) : Prop :=
  exists psets isDefinedBy rels rel,
    GetLine api elementID true = Normal psets /\ truthy psets = true /\
    get psets "IsDefinedBy" = Normal isDefinedBy /\ truthy isDefinedBy = true /\
    iterate isDefinedBy = Normal rels /\ In rel rels /\ truthy rel = true /\
    relation_yields api names rel n.

(** The column-major reading of a flat 4x4 matrix, and the product of its
    row [i] with the homogeneous point [(x, y, z, 1)]. *)
Definition entry (matrix : list Q) (row col : nat) : Q := at_ matrix (col * 4 + row).

Definition row_times_point (matrix : list Q) (row : nat) (x y z : Q) : Q :=
  (entry matrix row 0 * x + entry matrix row 1 * y + entry matrix row 2 * z
   + entry matrix row 3 * 1)%Q.

Definition identity4 : list Q :=
  [1; 0; 0; 0;  0; 1; 0; 0;  0; 0; 1; 0;  0; 0; 0; 1]%Q.

Definition translation4 (tx ty tz : Q) : list Q :=
  [1; 0; 0; 0;  0; 1; 0; 0;  0; 0; 1; 0;  tx; ty; tz; 1]%Q.

Definition Point3_eq (p q : Point3) : Prop :=
  (px p == px q /\ py p == py q /\ pz p == pz q)%Q.

(** The positions of an interleaved buffer, and a translated copy. *)
Fixpoint local_positions (vertexData : list Q) : list Q :=
  match vertexData with
  | x :: y :: z :: _ :: _ :: _ :: rest => x :: y :: z :: local_positions rest
  | _ => []
  end.

Fixpoint translate_positions (tx ty tz : Q) (positions : list Q) : list Q :=
  match positions with
  | x :: y :: z :: rest => (x + tx)%Q :: (y + ty)%Q :: (z + tz)%Q :: translate_positions tx ty tz rest
  | _ => []
  end.

(** The bounding box of a positions buffer. *)
Fixpoint bbox_of_positions (positions : list Q) (acc : option BoundingBox)
    : option BoundingBox :=
  match positions with
  | x :: y :: z :: rest =>
      bbox_of_positions rest (extend acc {| px := x; py := y; pz := z |})
  | _ => acc
  end.

(** The world coordinates of a buffer's vertices as the bounding-box path
    computes them, in double precision: three per vertex. *)
Fixpoint world_positions (matrix vertexData : list Q) : list Q :=
  match vertexData with
  | x :: y :: z :: _ :: _ :: _ :: rest =>
      let p := bbox_world matrix x y z in
      px p :: py p :: pz p :: world_positions matrix rest
  | _ => []
  end.

(** A single-precision value: a significand of at most 24 bits on a
    spacing between 2^-149 and 2^104. *)
Definition is_single (v : Q) : Prop :=
  exists m k : Z,
    (Z.abs m < 2 ^ 24)%Z /\ (-149 <= k <= 104)%Z /\ (v == inject_Z m * 2 ^ k)%Q.

(** The numbers whose nearest single is finite. *)
Definition single_range (v : Q) : Prop := (Qabs v < 2 ^ 128 - 2 ^ 103)%Q.

(** [stored] holds, in order, the single nearest to each of [exact]. *)
Definition stores (stored exact : list Q) : Prop :=
  Forall2 (fun s e => (s == fround e)%Q) stored exact.

(** The box [rendered] has, bound by bound, the single nearest to the bound
    of [exact]. *)
Definition box_stores (rendered exact : option BoundingBox) : Prop :=
  match rendered, exact with
  | None, None => True
  | Some r, Some e =>
      (minX r == fround (minX e) /\ minY r == fround (minY e) /\
       minZ r == fround (minZ e) /\ maxX r == fround (maxX e) /\
       maxY r == fround (maxY e) /\ maxZ r == fround (maxZ e))%Q
  | _, _ => False
  end.

(** Sums as the loops form them: from [0], left to right. *)
Definition Qsum (l : list Q) : Q := fold_left Qplus l 0%Q.

(** The tiers of the gross floor area, in the spec's words: the resolved
    areas of the spaces, the resolved areas of the slabs, and the XY areas
    of the slabs' bounding boxes. *)
Definition space_tier (api : IfcAPI) : list Q :=
  omap (resolve api ["GrossFloorArea"; "NetFloorArea"; "Area"; "GrossArea"; "NetArea"])
    (GetLineIDsWithType api IFCSPACE).
Definition slab_tier (api : IfcAPI) : list Q :=
  omap (resolve api ["GrossArea"; "NetArea"; "Area"; "GrossSideArea"])
    (GetLineIDsWithType api IFCSLAB).
Definition bbox_tier (api : IfcAPI) : list Q :=
  omap (fun id =>
          (fun bb => ((maxX bb - minX bb) * (maxY bb - minY bb))%Q)
            <$> computeBoundingBox api id)
    (GetLineIDsWithType api IFCSLAB).

Fixpoint first_nonempty (tiers : list (list Q)) : option (list Q) :=
  match tiers with
  | [] => None
  | [] :: rest => first_nonempty rest
  | t :: _ => Some t
  end.

Definition grossFloorArea_spec (api : IfcAPI) : option Q :=
  (fun values => round2 (Qsum values))
    <$> first_nonempty [space_tier api; slab_tier api; bbox_tier api].

(** What one structural entity adds to the total volume, in the spec's
    words: its resolved volume, else dx * dy * dz of its bounding box. *)
Definition volume_contribution (api : IfcAPI) (id : Z) : option Q :=
  match resolve api ["NetVolume"; "GrossVolume"; "Volume"] id with
  | Some v => Some v
  | None =>
      (fun bb =>
         ((maxX bb - minX bb) * (maxY bb - minY bb) * (maxZ bb - minZ bb))%Q)
        <$> computeBoundingBox api id
  end.

Definition structural_ids (api : IfcAPI) : list Z :=
  flat_map (GetLineIDsWithType api) STRUCTURAL_TYPES.

Definition totalVolume_spec (api : IfcAPI) : option Q :=
  match omap (volume_contribution api) (structural_ids api) with
  | [] => None
  | values => Some (round2 (Qsum values))
  end.

(** Storeys: order, and the number of storeys that list an element. *)
Definition at_elevation (v : Q) (s : IFCStoreyData) : bool := Qeq_bool (elevation s) v.

Definition header (s : IFCStoreyData) : string * Q * Z := (name s, elevation s, expressID s).

Definition storey_decodes (api : IfcAPI) (sid : Z) : Prop :=
  exists line, GetStoreyLine api sid = Normal (Some line).

Definition discovered (api : IfcAPI) : list IFCStoreyData :=
  fst (discover api (GetLineIDsWithType api IFCBUILDINGSTOREY) 0 []).

Definition lists (e : Z) (s : IFCStoreyData) : bool := bool_decide (e ∈ elementIDs s).

Definition storeys_listing (e : Z) (l : list IFCStoreyData) : nat :=
  length (List.filter (lists e) l).

(** The element ids a containment relation names, whatever its structure. *)
Definition relation_elements (api : IfcAPI) (relID : Z) : list Z :=
  match GetRelLine api relID with
  | Normal (Some rel) =>
      match Related rel with
      | RefsArray refs => omap element_ref_id refs
      | _ => []
      end
  | _ => []
  end.

Definition referenced_by_containment (api : IfcAPI) (e : Z) : Prop :=
  exists relID,
    relID ∈ GetLineIDsWithType api IFCRELCONTAINEDINSPATIALSTRUCTURE /\
    e ∈ relation_elements api relID.

(** The element ids named by the containment relations whose structure is
    one of the storeys, in relation order. *)
Definition storey_relation_elements (api : IfcAPI) (relID : Z) : list Z :=
  match GetRelLine api relID with
  | Normal (Some rel) =>
      match ref_id (Relating rel) with
      | Some sid =>
          if bool_decide (sid ∈ GetLineIDsWithType api IFCBUILDINGSTOREY)
          then relation_elements api relID else []
      | None => []
      end
  | _ => []
  end.

Definition contained (api : IfcAPI) : list Z :=
  flat_map (storey_relation_elements api)
    (GetLineIDsWithType api IFCRELCONTAINEDINSPATIALSTRUCTURE).

(** All element ids listed by the storeys, storey by storey. *)
Definition listed (l : list IFCStoreyData) : list Z := concat (map elementIDs l).

(** ** Sample models *)

Open Scope Z_scope.

Definition handle (id : Z) : jsval := JObj [("type", JNum 5%Q); ("value", id_val id)].

Definition named_value (n : string) (attr : string) (v : jsval) : jsval :=
  JObj [("Name", JObj [("value", JStr n)]); (attr, JObj [("value", v)])].

(** A decoder over a table of lines: an id that is not a number makes
    [GetLine] throw, an unknown number yields [undefined]. *)
Fixpoint table_lookup (lines : list (Z * jsval)) (q : Q) : jsval :=
  match lines with
  | [] => JUndefined
  | (k, v) :: rest => if Qeq_bool q (inject_Z k) then v else table_lookup rest q
  end.

Definition table_GetLine (lines : list (Z * jsval)) (id : jsval) (flatten : bool)
    : completion jsval :=
  match id with
  | JNum q => Normal (table_lookup lines q)
  | _ => Throw
  end.

Fixpoint table_find {A : Type} (rows : list (Z * A)) (id : Z) : option A :=
  match rows with
  | [] => None
  | (k, v) :: rest => if Z.eqb id k then Some v else table_find rest id
  end.

(** Two vertices spanning the box from the origin to [(dx, dy, dz)], placed
    by the identity. *)
Definition box_mesh (dx dy dz : Q) : list PlacedGeometry :=
  [{| vertexData := [0; 0; 0; 0; 0; 1;  dx; dy; dz; 0; 0; 1]%Q;
      flatTransformation := identity4 |}].

Definition sample_lines : list (Z * jsval) :=
  [ (10, JObj [("IsDefinedBy", JArr [handle 100])]);
    (100, JObj [("RelatingPropertyDefinition", handle 200)]);
    (200, JObj [("HasProperties", JArr [handle 300])]);
    (300, named_value "GrossArea" "NominalValue" (JNum (25 # 2)));
    (11, JObj [("IsDefinedBy", JArr [handle 101])]);
    (101, JObj [("RelatingPropertyDefinition", handle 201)]);
    (201, JObj [("Quantities", JArr [handle 301])]);
    (301, named_value "GrossArea" "AreaValue" (JNum (29 # 4)));
    (12, JObj [("Name", JObj [("value", JStr "Slab without quantities")])]);
    (20, JObj [("IsDefinedBy", JArr [handle 102])]);
    (102, JObj [("RelatingPropertyDefinition", handle 202)]);
    (202, JObj [("Quantities", JArr [handle 302])]);
    (302, named_value "Volume" "VolumeValue" (JNum (7 # 2)));
    (21, JObj [("Name", JObj [("value", JStr "Column without quantities")])]) ].

Definition sample_meshes : list (Z * list PlacedGeometry) :=
  [ (12, box_mesh 4 5 (1 # 5)); (21, box_mesh 1 2 3) ].

Definition sample_storeys : list (Z * StoreyLine) :=
  [ (1, {| Name_value := Some "Level 2"; Elevation_value := Some 3%Q |});
    (2, {| Name_value := None; Elevation_value := None |});
    (3, {| Name_value := Some "Mezzanine"; Elevation_value := Some 3%Q |}) ].

Definition ref (id : Z) : jsref := RefObject (Some id) None.

(** Containment: 7 and 8 in storey 1, 10 in storey 2, 9 in the building
    (99); aggregation: 11 and 8 under element 7. *)
Definition sample_relations : list (Z * RelLine) :=
  [ (50, {| Relating := ref 1; Related := RefsArray [ref 7; RefNumber 8] |});
    (53, {| Relating := ref 2; Related := RefsArray [ref 10] |});
    (52, {| Relating := ref 99; Related := RefsArray [ref 9] |});
    (60, {| Relating := ref 7; Related := RefsArray [ref 11; ref 8] |}) ].

Definition table_api (types : IfcType -> list Z) (lines : list (Z * jsval))
    (storeyLines : list (Z * StoreyLine)) (relations : list (Z * RelLine))
    (meshes : list (Z * list PlacedGeometry)) : IfcAPI :=
  {| GetLineIDsWithType := types;
     GetLine := table_GetLine lines;
     GetStoreyLine := fun id =>
       match table_find storeyLines id with
       | Some line => Normal (Some line)
       | None => Throw
       end;
     GetRelLine := fun id =>
       match table_find relations id with
       | Some rel => Normal (Some rel)
       | None => Throw
       end;
     GetFlatMesh := fun id => Normal (table_find meshes id) |}.

(** No spaces; slabs 10 and 11 carry [GrossArea], slab 12 only a mesh; wall
    20 carries [Volume], column 21 only a mesh. *)
Definition sample_types (t : IfcType) : list Z :=
  match t with
  | IFCBUILDINGSTOREY => [1; 2; 3]
  | IFCRELCONTAINEDINSPATIALSTRUCTURE => [50; 53; 52]
  | IFCRELAGGREGATES => [60]
  | IFCSLAB => [10; 11; 12]
  | IFCWALL => [20]
  | IFCCOLUMN => [21]
  | _ => []
  end.

Definition sample_api : IfcAPI :=
  table_api sample_types sample_lines sample_storeys sample_relations sample_meshes.

(** Exactly two structural elements: wall 20 and column 21. *)
Definition two_element_api : IfcAPI :=
  table_api
    (fun t => match t with IFCWALL => [20] | IFCCOLUMN => [21] | _ => [] end)
    sample_lines [] [] sample_meshes.

(** Element 7 is named by the containment relations of storeys 1 and 2, and
    element 9 is contained in the building. *)
Definition overlapping_api : IfcAPI :=
  table_api sample_types sample_lines sample_storeys
    [ (50, {| Relating := ref 1; Related := RefsArray [ref 7; RefNumber 8] |});
      (53, {| Relating := ref 2; Related := RefsArray [ref 7] |});
      (52, {| Relating := ref 99; Related := RefsArray [ref 9] |}) ]
    sample_meshes.

(** The record of storey 3 does not decode. *)
Definition broken_storey_api : IfcAPI :=
  table_api sample_types sample_lines
    [ (1, {| Name_value := Some "Level 2"; Elevation_value := Some 3%Q |});
      (2, {| Name_value := None; Elevation_value := None |}) ]
    sample_relations sample_meshes.

(** A project with both names, a site whose Name is null and which has a
    LongName, and no building. *)
Definition named_api : IfcAPI :=
  table_api
    (fun t => match t with IFCPROJECT => [1] | IFCSITE => [2] | _ => [] end)
    [ (1, JObj [("Name", JObj [("value", JStr "Tower")]);
                ("LongName", JObj [("value", JStr "Tower, phase 2")])]);
      (2, JObj [("Name", JNull);
                ("LongName", JObj [("value", JStr "North site")])]) ]
    [] [] [].

(** A single storey whose express id is 0 and which contains nothing. *)
Definition zero_storey_api : IfcAPI :=
  table_api
    (fun t => match t with IFCBUILDINGSTOREY => [0] | _ => [] end)
    []
    [ (0, {| Name_value := Some "Ground floor"; Elevation_value := Some 0%Q |}) ]
    [] [].

Close Scope Z_scope.

(** Three meshes: two of element 7, one of element 10. *)
Definition sample_meshList : list IFCMeshData :=
  let white := {| color_r := 1; color_g := 1; color_b := 1; color_a := 1 |}%Q in
  [ {| meshExpressID := 7; vertices := [0; 0; 0; 1; 0; 0; 0; 1; 0]%Q;
       indices := [0; 1; 2]%Z; color := white |};
    {| meshExpressID := 10; vertices := [0; 0; 3; 1; 0; 3; 0; 1; 3]%Q;
       indices := [0; 1; 2]%Z; color := white |};
    {| meshExpressID := 7; vertices := [0; 0; 0; 0; 0; 3; 0; 1; 0]%Q;
       indices := [0; 1; 2]%Z; color := white |} ].

(** [l.length > 0] *)
Definition nonempty {A : Type} (l : list A) : bool :=
  match l with
  | [] => false
  | _ => true
  end.

(** An element id with an entry in [elementToStorey]. *)
Definition mapped (st : Assignment) (e : Z) : Prop :=
  is_Some (elementToStorey st !! e).

(** The storeys of a state are the discovered ones. *)
Definition same_storeys (api : IfcAPI) (st : Assignment) : Prop :=
  forall sid, In sid (map expressID (storeys st)) <->
              In sid (GetLineIDsWithType api IFCBUILDINGSTOREY).

(** No id is listed twice, and every listed id is mapped. *)
Definition assigned_once (st : Assignment) : Prop :=
  NoDup (listed (storeys st)) /\
  (forall e, In e (listed (storeys st)) -> mapped st e).

(** ** More of [parseIFCFile]: names, perimeter and the element list *)

(** [line.Name?.value || line.LongName?.value || fallback] for the first
    entity of a type, inside its own [try]: the fallback stays when there is
    no such entity or anything throws. *)
Definition entity_name_body (api : IfcAPI) (type : IfcType) (fallback : string)
    : completion jsval :=
  match GetLineIDsWithType api type with
  | [] => Normal (JStr fallback)
  | first :: _ =>
      line ← GetLine api (id_val first) false;
      n ← get line "Name"; nv ← get_opt n "value";
      if truthy nv then Normal nv else
      l ← get line "LongName"; lv ← get_opt l "value";
      if truthy lv then Normal lv else Normal (JStr fallback)
  end.

Definition entity_name (api : IfcAPI) (type : IfcType) (fallback : string) : jsval :=
  try_catch (entity_name_body api type fallback) (JStr fallback).

Definition projectName (api : IfcAPI) : jsval := entity_name api IFCPROJECT "Unknown Project".
Definition siteName (api : IfcAPI) : jsval := entity_name api IFCSITE "Unknown Site".
Definition buildingName (api : IfcAPI) : jsval :=
  entity_name api IFCBUILDING "Unknown Building".

(** The footprint search of the perimeter estimate:
    [if (!footprintBB || bb.minZ < footprintBB.minZ) footprintBB = bb]. *)
Fixpoint footprint (api : IfcAPI) (slabIDs : list Z) (footprintBB : option BoundingBox)
    : option BoundingBox :=
  match slabIDs with
  | [] => footprintBB
  | id :: rest =>
      match computeBoundingBox api id with
      | Some bb =>
          match footprintBB with
          | None => footprint api rest (Some bb)
          | Some current =>
              if Qlt_le_dec (minZ bb) (minZ current)
              then footprint api rest (Some bb)
              else footprint api rest (Some current)
          end
      | None => footprint api rest footprintBB
      end
  end.

Definition perimeter (api : IfcAPI) : option Q :=
  match footprint api (GetLineIDsWithType api IFCSLAB) None with
  | Some footprintBB =>
      let w := (maxX footprintBB - minX footprintBB)%Q in
      let h := (maxY footprintBB - minY footprintBB)%Q in
      Some (round2 (2 * (w + h)))
  | None => None
  end.

(** The element types beyond the structural ones.  [IfcType] lists the type
    tags the storey block and the totals read; the element list reads ten
    more, whose enumeration is a parameter of [elements]. *)
Inductive FinishType : Type :=
| IFCWINDOW | IFCDOOR | IFCROOF | IFCSTAIR | IFCRAILING | IFCCOVERING
| IFCPLATE | IFCMEMBER | IFCCURTAINWALL | IFCFOOTING.

Inductive ElementType : Type :=
| Structural (t : IfcType)
| Finish (t : FinishType).

Definition ELEMENT_TYPES : list (ElementType * string) :=
  [ (Structural IFCWALL, "IfcWall");
    (Structural IFCWALLSTANDARDCASE, "IfcWallStandardCase");
    (Structural IFCSLAB, "IfcSlab");
    (Structural IFCCOLUMN, "IfcColumn");
    (Structural IFCBEAM, "IfcBeam");
    (Finish IFCWINDOW, "IfcWindow");
    (Finish IFCDOOR, "IfcDoor");
    (Finish IFCROOF, "IfcRoof");
    (Finish IFCSTAIR, "IfcStair");
    (Finish IFCRAILING, "IfcRailing");
    (Finish IFCCOVERING, "IfcCovering");
    (Finish IFCPLATE, "IfcPlate");
    (Finish IFCMEMBER, "IfcMember");
    (Finish IFCCURTAINWALL, "IfcCurtainWall");
    (Finish IFCFOOTING, "IfcFooting") ]%string.

Definition ELEMENT_AREA_NAMES : list string :=
  ["GrossArea"; "NetArea"; "Area"; "GrossSideArea"; "NetSideArea";
   "GrossFloorArea"; "NetFloorArea"]%string.

Definition ids_with_type (api : IfcAPI) (finishIDs : FinishType -> list Z)
    (type : ElementType) : list Z :=
  match type with
  | Structural t => GetLineIDsWithType api t
  | Finish t => finishIDs t
  end.

Record IFCElementData : Type := {
  el_id : Z;
  el_type : string;
  el_name : jsval;
  el_area : option Q;
  el_volume : option Q
}.

Definition decimalZ (n : Z) : string := NilZero.string_of_int (Z.to_int n).

(** The body of the per-element [try]. *)
Definition element_of (api : IfcAPI) (label : string) (eid : Z)
    : completion IFCElementData :=
  line ← GetLine api (id_val eid) false;
  n ← get_opt line "Name"; nv ← get_opt n "value";
  let name := if truthy nv then nv else JStr (label +:+ " #" +:+ decimalZ eid) in
  area ← extractQuantityFromPsets api (id_val eid) ELEMENT_AREA_NAMES;
  volume ← extractQuantityFromPsets api (id_val eid) VOLUME_NAMES;
  Normal {| el_id := eid; el_type := label; el_name := name;
            el_area := area; el_volume := volume |}.

(** [elements.push(...)] unless the body threw ("skip element"). *)
Definition elements_of_type (api : IfcAPI) (label : string) (ids : list Z)
    : list IFCElementData :=
  flat_map
    (fun eid => try_catch (el ← element_of api label eid; Normal [el]) [])
    ids.

Definition elements (api : IfcAPI) (finishIDs : FinishType -> list Z)
    : list IFCElementData :=
  flat_map
    (fun '(type, label) => elements_of_type api label (ids_with_type api finishIDs type))
    ELEMENT_TYPES.

(** ** [extractIFCGeometry] *)

(** What [StreamAllMeshes] hands to the callback: a flat mesh with its placed
    geometries, each with the index buffer and colour read for it. *)
Record StreamedGeometry : Type := {
  placed : PlacedGeometry;
  indexData : list Z;
  placedColor : Q * Q * Q * Q     (* color.x, color.y, color.z, color.w *)
}.

Record FlatMesh : Type := {
  flatMeshExpressID : Z;
  geometries : list StreamedGeometry
}.

Definition mesh_of (expressID : Z) (g : StreamedGeometry) : IFCMeshData :=
  let '(cx, cy, cz, cw) := placedColor g in
  {| meshExpressID := expressID;
     vertices := bake_positions (flatTransformation (placed g)) (vertexData (placed g));
     indices := indexData g;
     color := {| color_r := cx; color_g := cy; color_b := cz; color_a := cw |} |}.

Definition extractIFCGeometry (stream : list FlatMesh) : list IFCMeshData :=
  flat_map (fun fm => map (mesh_of (flatMeshExpressID fm)) (geometries fm)) stream.

(** ** The element list component ([ElementList.tsx]) *)

Definition TYPE_LABELS : list (string * string) :=
  [ ("IfcWall", "Walls"); ("IfcWallStandardCase", "Walls"); ("IfcSlab", "Slabs");
    ("IfcColumn", "Columns"); ("IfcBeam", "Beams"); ("IfcWindow", "Windows");
    ("IfcDoor", "Doors"); ("IfcRoof", "Roofs"); ("IfcStair", "Stairs");
    ("IfcRailing", "Railings"); ("IfcCovering", "Coverings"); ("IfcPlate", "Plates");
    ("IfcMember", "Members"); ("IfcCurtainWall", "Curtain Walls");
    ("IfcFooting", "Footings"); ("IfcPile", "Piles");
    ("IfcBuildingElementProxy", "Other Elements") ]%string.

Fixpoint table_label (type : string) (table : list (string * string)) : option string :=
  match table with
  | [] => None
  | (k, v) :: rest => if String.eqb type k then Some v else table_label type rest
  end.

(** [s.replace(pattern, '')]: the first occurrence of a non-empty pattern is
    removed. *)
Fixpoint remove_first (pattern s : string) : string :=
  if String.prefix pattern s
  then String.substring (String.length pattern) (String.length s - String.length pattern) s
  else match s with
       | EmptyString => EmptyString
       | String c rest => String c (remove_first pattern rest)
       end.

(** [TYPE_LABELS[type] || type.replace('Ifc', '')]; every label of the table
    is non-empty.  [type] is one of the labels of [ELEMENT_TYPES], or any
    other string that does not name a property the table object inherits
    (none of which begins with "Ifc"). *)
Definition getGroupLabel (type : string) : string :=
  match table_label type TYPE_LABELS with
  | Some l => l
  | None => remove_first "Ifc" type
  end.

(** The [Map] of groups, in insertion order. *)
Definition Groups : Type := list (string * list IFCElementData).

(** [if (!grouped.has(label)) grouped.set(label, []); grouped.get(label).push(el)] *)
Fixpoint group_push (label : string) (el : IFCElementData) (grouped : Groups) : Groups :=
  match grouped with
  | [] => [(label, [el])]
  | (k, items) :: rest =>
      if String.eqb label k then (k, items ++ [el]) :: rest
      else (k, items) :: group_push label el rest
  end.

Definition group_elements (els : list IFCElementData) : Groups :=
  fold_left (fun grouped el => group_push (getGroupLabel (el_type el)) el grouped) els [].

(** The header figures of a group. *)
Definition group_totalArea (items : list IFCElementData) : Q :=
  fold_left (fun s e => (s + default 0 (el_area e))%Q) items 0%Q.
Definition group_totalVol (items : list IFCElementData) : Q :=
  fold_left (fun s e => (s + default 0 (el_volume e))%Q) items 0%Q.
Definition group_hasArea (items : list IFCElementData) : bool :=
  existsb (fun e => bool_decide (is_Some (el_area e))) items.
Definition group_hasVol (items : list IFCElementData) : bool :=
  existsb (fun e => bool_decide (is_Some (el_volume e))) items.

(** [toggle]: the set of open groups with [group] flipped. *)
Definition toggle (group : string) (openGroups : gset string) : gset string :=
  if bool_decide (group ∈ openGroups) then openGroups ∖ {[group]}
  else openGroups ∪ {[group]}.

(** ** Vocabulary of the further properties *)

(** The world-space points of one placed geometry. *)
Fixpoint world_points (matrix verts : list Q) : list Point3 :=
  match verts with
  | x :: y :: z :: _ :: _ :: _ :: rest =>
      bbox_world matrix x y z :: world_points matrix rest
  | _ => []
  end.

Definition points_of (geoms : list PlacedGeometry) : list Point3 :=
  flat_map (fun g => world_points (flatTransformation g) (vertexData g)) geoms.

Definition inside (bb : BoundingBox) (p : Point3) : Prop :=
  (minX bb <= px p /\ px p <= maxX bb /\
   minY bb <= py p /\ py p <= maxY bb /\
   minZ bb <= pz p /\ pz p <= maxZ bb)%Q.

(** Each face of the box passes through a point. *)
Definition touches (bb : BoundingBox) (points : list Point3) : Prop :=
  (exists p, In p points /\ minX bb == px p)%Q /\
  (exists p, In p points /\ maxX bb == px p)%Q /\
  (exists p, In p points /\ minY bb == py p)%Q /\
  (exists p, In p points /\ maxY bb == py p)%Q /\
  (exists p, In p points /\ minZ bb == pz p)%Q /\
  (exists p, In p points /\ maxZ bb == pz p)%Q.

(** The bounding boxes the slabs of a model have. *)
Definition slab_boxes (api : IfcAPI) : list BoundingBox :=
  omap (computeBoundingBox api) (GetLineIDsWithType api IFCSLAB).

(** [GetLine] of an express id returns. *)
Definition fetches (api : IfcAPI) (eid : Z) : bool :=
  match GetLine api (id_val eid) false with
  | Normal _ => true
  | Throw => false
  end.

Definition element_ids (api : IfcAPI) (finishIDs : FinishType -> list Z) : list Z :=
  flat_map (fun tl => ids_with_type api finishIDs (fst tl)) ELEMENT_TYPES.

(** The object ids an aggregation relation names. *)
Definition relation_objects (api : IfcAPI) (relID : Z) : list Z :=
  match GetRelLine api relID with
  | Normal (Some rel) =>
      match Related rel with
      | RefsArray refs => omap ref_id refs
      | _ => []
      end
  | _ => []
  end.

Definition named_by_a_relation (api : IfcAPI) (e : Z) : Prop :=
  (exists relID, In relID (GetLineIDsWithType api IFCRELCONTAINEDINSPATIALSTRUCTURE) /\
                 In e (relation_elements api relID)) \/
  (exists relID, In relID (GetLineIDsWithType api IFCRELAGGREGATES) /\
                 In e (relation_objects api relID)).

(** A decoder with a two-part mesh for element 30. *)
Definition two_part_api : IfcAPI :=
  table_api (fun t => match t with IFCSLAB => [30; 12; 31]%Z | _ => [] end)
    sample_lines [] []
    [ (30%Z, [ {| vertexData := [0; 0; 1; 0; 0; 1;  2; 1; 1; 0; 0; 1]%Q;
                  flatTransformation := translation4 10 0 (-3) |};
               {| vertexData := [1; 5; 0; 0; 0; 1]%Q;
                  flatTransformation := identity4 |} ]);
      (12%Z, box_mesh 4 5 (1 # 5)) ].

(** The running extrema after the points [points]: nothing before the
    first point, afterwards a box that holds every point and touches one on
    each face. *)
Definition covers (acc : option BoundingBox) (points : list Point3) : Prop :=
  match acc with
  | None => points = []
  | Some bb => (forall p, In p points -> inside bb p) /\ touches bb points
  end.

(** The flat mesh of element 30 as streamed, with the parts [two_part_api]
    gives for it. *)
Definition two_part_flatMesh : FlatMesh :=
  {| flatMeshExpressID := 30;
     geometries :=
       [ {| placed := {| vertexData := [0; 0; 1; 0; 0; 1;  2; 1; 1; 0; 0; 1]%Q;
                         flatTransformation := translation4 10 0 (-3) |};
            indexData := [0; 1; 0]%Z;
            placedColor := (1, 1, 1, 1)%Q |};
         {| placed := {| vertexData := [1; 5; 0; 0; 0; 1]%Q;
                         flatTransformation := identity4 |};
            indexData := [0; 0; 0]%Z;
            placedColor := (1, 0, 0, 1 # 2)%Q |} ] |}.

(** The flat mesh of element 10: one triangle, lifted by 3. *)
Definition slab_flatMesh : FlatMesh :=
  {| flatMeshExpressID := 10;
     geometries :=
       [ {| placed := {| vertexData :=
                           [0; 0; 0; 0; 0; 1;  1; 0; 0; 0; 0; 1;  0; 1; 0; 0; 0; 1]%Q;
                         flatTransformation := translation4 0 0 3 |};
            indexData := [0; 1; 2]%Z;
            placedColor := (1, 1, 1, 1)%Q |} ] |}.

(** A stream with the flat meshes of elements 7, 10 and 30. *)
Definition sample_stream : list FlatMesh :=
  [ {| flatMeshExpressID := 7;
       geometries :=
         [ {| placed := {| vertexData :=
                             [0; 0; 0; 0; 0; 1;  1; 0; 0; 0; 0; 1;  0; 1; 0; 0; 0; 1]%Q;
                           flatTransformation := identity4 |};
              indexData := [0; 1; 2]%Z;
              placedColor := (1, 1, 1, 1)%Q |} ] |};
    slab_flatMesh;
    two_part_flatMesh ].

(** The elements of the group shown under the label [k]. *)
Definition in_group (k : string) (e : IFCElementData) : bool :=
  String.eqb (getGroupLabel (el_type e)) k.

(** The decoder's vertex buffers interleave position and normal, six
    scalars per vertex. *)
Definition whole_vertices (g : PlacedGeometry) : Prop :=
  (length (vertexData g) mod 6 = 0)%nat.

Definition well_meshed (api : IfcAPI) (id : Z) : Prop :=
  forall geoms, GetFlatMesh api id = Normal (Some geoms) -> Forall whole_vertices geoms.

(** The indices [v = 0, 6, 12, ...] below [verts.length] that the loop of
    [computeBoundingBox] visits, and the point it reads at [v]. *)
Definition loop_indices (verts : list Q) : list nat :=
  List.filter (fun v => Nat.eqb (v mod 6) 0) (seq 0 (length verts)).

Definition vertex_at (matrix verts : list Q) (v : nat) : Point3 :=
  bbox_world matrix (nth v verts 0%Q) (nth (v + 1) verts 0%Q) (nth (v + 2) verts 0%Q).

Definition visited (geoms : list PlacedGeometry) : list Point3 :=
  flat_map (fun g => map (vertex_at (flatTransformation g) (vertexData g))
                       (loop_indices (vertexData g))) geoms.

(** * Theorems *)

(** ** Quantity resolver *)

Lemma bind_normal {A B : Type} (m : completion A) (k : A -> completion B) (b : B) :
  (x ← m; k x) = Normal b -> exists a, m = Normal a /\ k a = Normal b.
Proof. destruct m as [a|]; simpl; [eauto | discriminate]. Qed.

Ltac bind_inv H :=
  let a := fresh "v" in
  let Ha := fresh "Hv" in
  apply bind_normal in H; destruct H as (a & Ha & H).

Lemma negb_truthy_false (v : jsval) : negb (truthy v) = false -> truthy v = true.
Proof. now destruct (truthy v). Qed.

Lemma scan_lines_sound api names read refs n :
  scan_lines api names read refs = Normal (Some n) ->
  line_yields api names read refs n.
Proof.
  induction refs as [|q rest IH]; simpl; [discriminate|].
  assert (Hrest : scan_lines api names read rest = Normal (Some n) ->
                  line_yields api names read (q :: rest) n).
  { intros H. destruct (IH H) as (q' & qv & line & Hin & Hrest).
    exists q', qv, line. split; [now right | exact Hrest]. }
  destruct (negb (truthy q)) eqn:Hq; [exact Hrest|].
  intros H. bind_inv H.
  destruct (negb (truthy v)) eqn:Hqv; [auto|].
  bind_inv H. bind_inv H.
  destruct v1; [|auto].
  bind_inv H.
  destruct v1; auto.
  injection H as ->.
  exists q, v, v0. repeat split; auto using negb_truthy_false.
  now left.
Qed.

Lemma scan_collection_sound api names read pset K n :
  scan_collection api names read pset K = Normal (Some n) ->
  collection_yields api names read pset K n.
Proof.
  unfold scan_collection.
  destruct (negb (truthy pset)) eqn:Hp; [discriminate|].
  intros H. bind_inv H.
  destruct (negb (truthy v)) eqn:Hc; [discriminate|].
  bind_inv H.
  exists v, v0. repeat split; auto using negb_truthy_false, scan_lines_sound.
Qed.

Lemma scan_relation_sound api names rel n :
  truthy rel = true ->
  (forall rv, get rel "value" = Normal rv -> truthy rv = true) ->
  scan_relation api names rel = Normal (Some n) ->
  relation_yields api names rel n.
Proof.
  intros Hrel Hrv. unfold scan_relation. intros H.
  bind_inv H. rename v into rv, Hv into Hget.
  bind_inv H. rename v into relLine, Hv into HrelLine.
  destruct (negb (truthy relLine)) eqn:Ht; [discriminate|].
  bind_inv H. rename v into psetRef, Hv into HpsetRef.
  destruct (negb (truthy psetRef)) eqn:Htp; [discriminate|].
  bind_inv H. rename v into pv, Hv into Hpv.
  bind_inv H. rename v into pset, Hv into Hpset.
  bind_inv H. rename v into found, Hv into Hfound.
  assert (Hyield :
    collection_yields api names quantity_value pset "Quantities" n \/
    collection_yields api names property_value pset "HasProperties" n).
  { destruct found as [m|].
    - injection H as ->. left. now apply scan_collection_sound.
    - right. now apply scan_collection_sound. }
  assert (Hpset_truthy : truthy pset = true).
  { destruct Hyield as [(? & ? & Hy & _) | (? & ? & Hy & _)]; exact Hy. }
  destruct (is_object psetRef) eqn:Hobj; simpl in Hpset.
  - destruct (truthy pv) eqn:Htv.
    + exists rv, relLine, psetRef, pv, pset.
      repeat split; auto using negb_truthy_false.
    + injection Hpset as <-. discriminate.
  - injection Hpset as <-. discriminate.
Qed.

Lemma scan_relations_sound api names rels n :
  scan_relations api names rels = Normal (Some n) ->
  exists rel, In rel rels /\ truthy rel = true /\ relation_yields api names rel n.
Proof.
  induction rels as [|rel rest IH]; simpl; [discriminate|].
  assert (Hrest : scan_relations api names rest = Normal (Some n) ->
    exists rel0, (rel = rel0 \/ In rel0 rest) /\ truthy rel0 = true /\
                 relation_yields api names rel0 n).
  { intros H. destruct (IH H) as (rel0 & Hin & Hy). exists rel0. auto. }
  destruct (negb (truthy rel)) eqn:Hrel; [exact Hrest|].
  intros H. bind_inv H. rename v into rv, Hv into Hget.
  destruct (negb (truthy rv)) eqn:Hrv; [auto|].
  destruct (scan_relation api names rel) as [[m|]|] eqn:Hscan; simpl in H; auto.
  injection H as ->.
  exists rel. split; [now left|]. split; [now apply negb_truthy_false|].
  apply scan_relation_sound; auto using negb_truthy_false.
  intros rv' Hrv'. rewrite Hget in Hrv'. injection Hrv' as <-.
  now apply negb_truthy_false.
Qed.

Lemma resolver_body_sound api elementID names n :
  resolver_body api elementID names = Normal (Some n) ->
  resolvable api names elementID n.
Proof.
  unfold resolver_body. intros H.
  bind_inv H. rename v into psets, Hv into Hpsets.
  destruct (negb (truthy psets)) eqn:Ht; [discriminate|].
  bind_inv H. rename v into isDefinedBy, Hv into Hdef.
  destruct (negb (truthy isDefinedBy)) eqn:Htd; [discriminate|].
  bind_inv H. rename v into rels, Hv into Hrels.
  destruct (scan_relations_sound _ _ _ _ H) as (rel & Hin & Hrel & Hy).
  exists psets, isDefinedBy, rels, rel.
  repeat split; auto using negb_truthy_false.
Qed.

Lemma extractQuantityFromPsets_resolve api id names :
  extractQuantityFromPsets api (id_val id) names = Normal (resolve api names id).
Proof. reflexivity. Qed.

(** An id whose record cannot be fetched resolves to [null]. *)
Lemma missing_entity_resolves_to_null api elementID names :
  GetLine api elementID true = Throw \/
  (exists v, GetLine api elementID true = Normal v /\ truthy v = false) ->
  extractQuantityFromPsets api elementID names = Normal None.
Proof.
  unfold extractQuantityFromPsets, resolver_body.
  intros [-> | (v & -> & Hv)]; simpl; [reflexivity|].
  now rewrite Hv.
Qed.

(** C4. The quantity resolver never throws: for every decoder, entity id
    and candidate list it returns normally, with [null] unless a
    well-formed path leads from the entity to a numeric value with a
    candidate name, in which case it returns such a value.  Any anomaly on a
    path (a fetch that throws, a missing or non-iterable collection, a
    non-numeric value) therefore contributes no value and no failure; in
    particular an id whose record is missing or malformed gives [null]. *)
Theorem extractQuantityFromPsets_total api elementID names :
  (extractQuantityFromPsets api elementID names = Normal None \/
   exists n, extractQuantityFromPsets api elementID names = Normal (Some n) /\
             resolvable api names elementID n) /\
  (GetLine api elementID true = Throw \/
   (exists v, GetLine api elementID true = Normal v /\ truthy v = false) ->
   extractQuantityFromPsets api elementID names = Normal None).
Proof.
  split; [|apply missing_entity_resolves_to_null].
  unfold extractQuantityFromPsets.
  destruct (resolver_body api elementID names) as [[n|]|] eqn:Hbody; simpl; auto.
  right. exists n. split; [reflexivity|]. now apply resolver_body_sound.
Qed.

Lemma extractQuantityFromPsets_total_witness :
  extractQuantityFromPsets sample_api (JStr "#12") VOLUME_NAMES = Normal None.
Proof.
  apply (proj2 (extractQuantityFromPsets_total sample_api (JStr "#12") VOLUME_NAMES)).
  left. reflexivity.
Defined.

(** On the sample model the resolver finds the simple property of slab 10,
    the quantity of slab 11, and nothing for slab 12. *)
Example resolve_sample :
  resolve sample_api SLAB_AREA_NAMES 10 = Some (25 # 2)%Q /\
  resolve sample_api SLAB_AREA_NAMES 11 = Some (29 # 4)%Q /\
  resolve sample_api SLAB_AREA_NAMES 12 = None /\
  resolve sample_api SLAB_AREA_NAMES 77 = None.
Proof. repeat split; reflexivity. Qed.

(** ** Geometry baker *)

Lemma stride6_ind (P : list Q -> Prop) :
  (forall l, (length l < 6)%nat -> P l) ->
  (forall x y z a b c rest, P rest -> P (x :: y :: z :: a :: b :: c :: rest)) ->
  forall l, P l.
Proof.
  intros Hshort Hstep l.
  remember (length l) as n eqn:Hn. revert l Hn.
  induction n as [n IH] using lt_wf_ind. intros l ->.
  destruct l as [|x [|y [|z [|a [|b [|c rest]]]]]];
    try (apply Hshort; simpl; lia).
  apply Hstep. apply (IH (length rest)); [simpl; lia | reflexivity].
Qed.

Lemma world_paths_agree matrix x y z :
  mesh_world matrix x y z = bbox_world matrix x y z.
Proof. reflexivity. Qed.

Lemma world_rows matrix x y z :
  (px (mesh_world matrix x y z) == row_times_point matrix 0 x y z /\
   py (mesh_world matrix x y z) == row_times_point matrix 1 x y z /\
   pz (mesh_world matrix x y z) == row_times_point matrix 2 x y z)%Q.
Proof.
  unfold mesh_world, row_times_point, entry; simpl.
  repeat split; ring.
Qed.

Lemma world_identity x y z :
  Point3_eq (mesh_world identity4 x y z) {| px := x; py := y; pz := z |}.
Proof. unfold Point3_eq, mesh_world, at_; simpl. repeat split; ring. Qed.

Lemma world_translation tx ty tz x y z :
  Point3_eq (mesh_world (translation4 tx ty tz) x y z)
    {| px := x + tx; py := y + ty; pz := z + tz |}%Q.
Proof. unfold Point3_eq, mesh_world, at_; simpl. repeat split; ring. Qed.

(** *** The store into a [Float32Array] *)

Lemma pow2_pos k : (0 < pow2 k)%Q.
Proof. apply Qpower_0_lt. reflexivity. Qed.

Lemma pow2_add a b : (pow2 (a + b) == pow2 a * pow2 b)%Q.
Proof. apply Qpower_plus. discriminate. Qed.

Lemma pow2_le a b : (a <= b)%Z -> (pow2 a <= pow2 b)%Q.
Proof. intros H. apply Qpower_le_compat_l; [exact H | discriminate]. Qed.

Lemma pow2_lt a b : (a < b)%Z -> (pow2 a < pow2 b)%Q.
Proof. intros H. apply Qpower_lt_compat_l; [exact H | reflexivity]. Qed.

Lemma pow2_lt_inv a b : (pow2 a < pow2 b)%Q -> (a < b)%Z.
Proof. intros H. apply (Qpower_lt_compat_l_inv 2); [exact H | reflexivity]. Qed.

Lemma pow2_inject k : (0 <= k)%Z -> (pow2 k == inject_Z (2 ^ k))%Q.
Proof. intros H. unfold pow2. now rewrite Zpower_Qpower. Qed.

Lemma pow2_succ k : (pow2 (k + 1) == 2 * pow2 k)%Q.
Proof. rewrite pow2_add. change (pow2 1) with 2%Q. ring. Qed.

Lemma pow2_pred k : (2 * pow2 (k - 1) == pow2 k)%Q.
Proof. rewrite <- pow2_succ. now replace (k - 1 + 1)%Z with k by lia. Qed.

(** [ilog2] is the binary exponent. *)
Lemma ilog2_spec (v : Q) :
  (0 < v)%Q -> (pow2 (ilog2 v) <= v /\ v < pow2 (ilog2 v + 1))%Q.
Proof.
  intros Hv. destruct v as [n d].
  assert (Hn : (0 < n)%Z).
  { unfold Qlt in Hv. simpl in Hv. lia. }
  pose proof (Z.log2_spec n Hn) as [Hn1 Hn2].
  pose proof (Z.log2_spec (Zpos d) ltac:(lia)) as [Hd1 Hd2].
  pose proof (Z.log2_nonneg n) as Ha. pose proof (Z.log2_nonneg (Zpos d)) as Hb.
  unfold ilog2. cbn [Qnum Qden].
  set (a := Z.log2 n) in *. set (b := Z.log2 (Zpos d)) in *.
  assert (HA : (pow2 a <= inject_Z n /\ inject_Z n < 2 * pow2 a)%Q).
  { rewrite <- pow2_succ, !pow2_inject by lia. rewrite <- Zle_Qle, <- Zlt_Qlt.
    split; [exact Hn1 | now rewrite <- Z.add_1_r in Hn2]. }
  assert (HB : (pow2 b <= inject_Z (Zpos d) /\ inject_Z (Zpos d) < 2 * pow2 b)%Q).
  { rewrite <- pow2_succ, !pow2_inject by lia. rewrite <- Zle_Qle, <- Zlt_Qlt.
    split; [exact Hd1 | now rewrite <- Z.add_1_r in Hd2]. }
  assert (HP : (pow2 (a - b) * pow2 b == pow2 a)%Q).
  { rewrite <- pow2_add. now replace (a - b + b)%Z with a by lia. }
  assert (HV : ((n # d) * inject_Z (Zpos d) == inject_Z n)%Q).
  { unfold Qeq. simpl. rewrite Pos.mul_1_r. ring. }
  pose proof (pow2_pos (a - b)) as Hp. pose proof (pow2_pos b) as Hpb.
  pose proof (pow2_pos a) as Hpa.
  revert HA HB HP HV Hp Hpb Hpa Hv.
  generalize (pow2 a) (pow2 b) (inject_Z n) (inject_Z (Zpos d)).
  intros A B X D HA HB HP HV Hp Hpb Hpa Hv.
  destruct (Qle_bool (pow2 (a - b)) (n # d)) eqn:Hc.
  - apply Qle_bool_iff in Hc. split; [exact Hc|].
    rewrite pow2_succ. revert Hc Hp HP. generalize (pow2 (a - b)). intros P Hc Hp HP.
    Lqa.nra.
  - assert (Hlt : (n # d < pow2 (a - b))%Q).
    { apply Qnot_le_lt. intros H. apply Qle_bool_iff in H. congruence. }
    replace (a - b - 1 + 1)%Z with (a - b)%Z by lia. split; [|exact Hlt].
    pose proof (pow2_pred (a - b)) as Hpred. pose proof (pow2_pos (a - b - 1)) as Hp'.
    revert Hlt Hp HP Hpred Hp'.
    generalize (pow2 (a - b)) (pow2 (a - b - 1)). intros P P' Hlt Hp HP Hpred Hp'.
    Lqa.nra.
Qed.

Lemma ilog2_unique (v : Q) (e : Z) :
  (pow2 e <= v)%Q -> (v < pow2 (e + 1))%Q -> ilog2 v = e.
Proof.
  intros H1 H2.
  assert (Hv : (0 < v)%Q) by (eapply Qlt_le_trans; [apply pow2_pos | exact H1]).
  destruct (ilog2_spec v Hv) as [G1 G2].
  assert (ilog2 v < e + 1)%Z.
  { apply pow2_lt_inv. eapply Qle_lt_trans; eassumption. }
  assert (e < ilog2 v + 1)%Z.
  { apply pow2_lt_inv. eapply Qle_lt_trans; eassumption. }
  lia.
Qed.

Lemma ilog2_mono (a b : Q) : (0 < a)%Q -> (a <= b)%Q -> (ilog2 a <= ilog2 b)%Z.
Proof.
  intros Ha Hab.
  assert (Hb : (0 < b)%Q) by (eapply Qlt_le_trans; eassumption).
  destruct (ilog2_spec a Ha) as [A1 _]. destruct (ilog2_spec b Hb) as [_ B2].
  assert (ilog2 a < ilog2 b + 1)%Z; [|lia].
  apply pow2_lt_inv. eapply Qle_lt_trans; [exact A1|].
  eapply Qle_lt_trans; eassumption.
Qed.

Lemma quantum_mono (a b : Q) : (0 < a)%Q -> (a <= b)%Q -> (quantum a <= quantum b)%Z.
Proof. intros Ha Hab. unfold quantum. pose proof (ilog2_mono a b Ha Hab). lia. Qed.

(** Rounding to the nearest integer, the even one on a tie. *)
Lemma round_half_even_near (s : Q) :
  (inject_Z (round_half_even s) - (1 # 2) <= s /\
   s <= inject_Z (round_half_even s) + (1 # 2))%Q.
Proof.
  unfold round_half_even.
  pose proof (Qfloor_le s) as Hle. pose proof (Qlt_floor s) as Hlt.
  rewrite inject_Z_plus in Hlt. change (inject_Z 1) with 1%Q in Hlt.
  destruct (Qcompare (s - inject_Z (Qfloor s)) (1 # 2)) eqn:Hc.
  - apply Qeq_alt in Hc.
    destruct (Z.even (Qfloor s)); rewrite ?inject_Z_plus;
      change (inject_Z 1) with 1%Q; split; Lqa.lra.
  - apply Qlt_alt in Hc. split; Lqa.lra.
  - apply Qgt_alt in Hc. rewrite inject_Z_plus. change (inject_Z 1) with 1%Q.
    split; Lqa.lra.
Qed.

Lemma round_half_even_bounds (s : Q) :
  (Qfloor s <= round_half_even s <= Qfloor s + 1)%Z.
Proof.
  unfold round_half_even.
  destruct (Qcompare _ _); [destruct (Z.even _)| |]; lia.
Qed.

Lemma round_half_even_mono (s t : Q) :
  (s <= t)%Q -> (round_half_even s <= round_half_even t)%Z.
Proof.
  intros Hst. pose proof (Qfloor_resp_le _ _ Hst) as Hf.
  destruct (Z.eq_dec (Qfloor s) (Qfloor t)) as [E|N].
  - unfold round_half_even. rewrite <- E.
    destruct (Qcompare (s - inject_Z (Qfloor s)) (1 # 2)) eqn:Hs;
      destruct (Qcompare (t - inject_Z (Qfloor s)) (1 # 2)) eqn:Ht;
      try (destruct (Z.even (Qfloor s))); try lia; exfalso;
      first [apply Qeq_alt in Hs | apply Qlt_alt in Hs | apply Qgt_alt in Hs];
      first [apply Qeq_alt in Ht | apply Qlt_alt in Ht | apply Qgt_alt in Ht];
      Lqa.lra.
  - pose proof (round_half_even_bounds s). pose proof (round_half_even_bounds t). lia.
Qed.

Lemma round_half_even_integer (s : Q) (n : Z) :
  (s == inject_Z n)%Q -> round_half_even s = n.
Proof.
  intros Hs. unfold round_half_even.
  assert (Hf : Qfloor s = n) by (rewrite Hs; apply Qfloor_Z).
  rewrite Hf.
  assert (Hc : Qcompare (s - inject_Z n) (1 # 2) = Lt).
  { apply (proj1 (Qlt_alt _ _)). rewrite Hs. Lqa.lra. }
  now rewrite Hc.
Qed.

Lemma scaled_back (v : Q) (k : Z) : (v / pow2 k * pow2 k == v)%Q.
Proof. field. pose proof (pow2_pos k). Lqa.lra. Qed.

Lemma scaled_le (a b : Q) (k : Z) : (a <= b)%Q -> (a / pow2 k <= b / pow2 k)%Q.
Proof.
  intros H. unfold Qdiv. apply Qmult_le_compat_r; [exact H|].
  apply Qlt_le_weak, Qinv_lt_0_compat, pow2_pos.
Qed.

Lemma scaled_pow2 (e k : Z) : (pow2 e / pow2 k == pow2 (e - k))%Q.
Proof. unfold pow2. rewrite Qpower_minus by discriminate. reflexivity. Qed.

Lemma times_pow2_le (m n : Z) (k : Z) :
  (m <= n)%Z -> (inject_Z m * pow2 k <= inject_Z n * pow2 k)%Q.
Proof.
  intros H. apply Qmult_le_compat_r; [now rewrite <- Zle_Qle|].
  apply Qlt_le_weak, pow2_pos.
Qed.

Lemma fround_pos_nonneg (v : Q) : (0 <= v)%Q -> (0 <= fround_pos v)%Q.
Proof.
  intros Hv. unfold fround_pos.
  apply Qmult_le_0_compat; [|apply Qlt_le_weak, pow2_pos].
  change 0%Q with (inject_Z 0). rewrite <- Zle_Qle.
  rewrite <- (round_half_even_integer 0 0) by reflexivity.
  apply round_half_even_mono.
  apply Qle_shift_div_l; [apply pow2_pos|]. now rewrite Qmult_0_l.
Qed.

(** The rounded value stays within the binade of its argument. *)
Lemma fround_pos_upper (v : Q) :
  (0 < v)%Q -> (fround_pos v <= pow2 (quantum v + 24))%Q.
Proof.
  intros Hv. destruct (ilog2_spec v Hv) as [_ Hup].
  unfold fround_pos. set (k := quantum v).
  assert (Hk : (ilog2 v + 1 <= k + 24)%Z) by (unfold k, quantum; lia).
  rewrite pow2_add, (Qmult_comm (pow2 k)).
  rewrite (pow2_inject 24) by lia.
  apply times_pow2_le.
  rewrite <- (round_half_even_integer (inject_Z (2 ^ 24)) (2 ^ 24)) by reflexivity.
  apply round_half_even_mono.
  rewrite <- pow2_inject by lia.
  setoid_replace (pow2 24) with (pow2 (k + 24) / pow2 k)%Q using relation Qeq
    by (rewrite scaled_pow2; now replace (k + 24 - k)%Z with 24%Z by lia).
  apply scaled_le. apply Qlt_le_weak. eapply Qlt_le_trans; [exact Hup|].
  now apply pow2_le.
Qed.

Lemma fround_pos_lower (v : Q) :
  (0 < v)%Q -> (-126 <= ilog2 v)%Z -> (pow2 (quantum v + 23) <= fround_pos v)%Q.
Proof.
  intros Hv He. destruct (ilog2_spec v Hv) as [Hlow _].
  unfold fround_pos. set (k := quantum v).
  assert (Hk : (k + 23 = ilog2 v)%Z) by (unfold k, quantum; lia).
  rewrite pow2_add, (Qmult_comm (pow2 k)).
  rewrite (pow2_inject 23) by lia.
  apply times_pow2_le.
  rewrite <- (round_half_even_integer (inject_Z (2 ^ 23)) (2 ^ 23)) by reflexivity.
  apply round_half_even_mono.
  rewrite <- pow2_inject by lia.
  setoid_replace (pow2 23) with (pow2 (k + 23) / pow2 k)%Q using relation Qeq
    by (rewrite scaled_pow2; now replace (k + 23 - k)%Z with 23%Z by lia).
  apply scaled_le. now rewrite Hk.
Qed.

Lemma fround_pos_mono (a b : Q) :
  (0 < a)%Q -> (a <= b)%Q -> (fround_pos a <= fround_pos b)%Q.
Proof.
  intros Ha Hab.
  assert (Hb : (0 < b)%Q) by (eapply Qlt_le_trans; eassumption).
  pose proof (quantum_mono a b Ha Hab) as Hq.
  destruct (Z.eq_dec (quantum a) (quantum b)) as [E|N].
  - unfold fround_pos. rewrite E. apply times_pow2_le, round_half_even_mono.
    now apply scaled_le.
  - eapply Qle_trans; [now apply fround_pos_upper|].
    eapply Qle_trans; [|apply fround_pos_lower; [exact Hb|]].
    + apply pow2_le. lia.
    + unfold quantum in *. lia.
Qed.

(** Rounding to single precision keeps the order. *)
Lemma fround_mono (a b : Q) : (a <= b)%Q -> (fround a <= fround b)%Q.
Proof.
  intros Hab. unfold fround.
  destruct (Qcompare a 0) eqn:Ca; destruct (Qcompare b 0) eqn:Cb;
    first [apply Qeq_alt in Ca | apply Qlt_alt in Ca | apply Qgt_alt in Ca];
    first [apply Qeq_alt in Cb | apply Qlt_alt in Cb | apply Qgt_alt in Cb];
    try (exfalso; Lqa.lra).
  - apply Qle_refl.
  - apply fround_pos_nonneg. Lqa.lra.
  - pose proof (fround_pos_nonneg (- a)). Lqa.lra.
  - pose proof (fround_pos_mono (- b) (- a)). Lqa.lra.
  - pose proof (fround_pos_nonneg (- a)). pose proof (fround_pos_nonneg b). Lqa.lra.
  - apply fround_pos_mono; Lqa.lra.
Qed.

Lemma fround_pos_single (v : Q) (m K : Z) :
  (0 < v)%Q -> (v == inject_Z m * pow2 K)%Q -> (m < 2 ^ 24)%Z -> (-149 <= K)%Z ->
  (fround_pos v == v)%Q.
Proof.
  intros Hv Hm Hlt HK.
  destruct (ilog2_spec v Hv) as [Hlow _].
  assert (He : (ilog2 v < 24 + K)%Z).
  { apply pow2_lt_inv. eapply Qle_lt_trans; [exact Hlow|].
    rewrite Hm, pow2_add, (pow2_inject 24) by lia.
    apply Qmult_lt_compat_r; [apply pow2_pos | now rewrite <- Zlt_Qlt]. }
  unfold fround_pos. set (k := quantum v).
  assert (Hk : (k <= K)%Z) by (unfold k, quantum; lia).
  assert (Hs : (v / pow2 k == inject_Z (m * 2 ^ (K - k)))%Q).
  { rewrite Hm, inject_Z_mult, <- pow2_inject by lia.
    unfold Qdiv. rewrite <- Qmult_assoc. apply Qmult_comp; [reflexivity|].
    apply scaled_pow2. }
  rewrite (round_half_even_integer _ _ Hs), inject_Z_mult, <- pow2_inject by lia.
  rewrite Hm, <- Qmult_assoc, <- pow2_add.
  now replace (K - k + k)%Z with K by lia.
Qed.

(** Single-precision values are stored unchanged. *)
Lemma fround_single (v : Q) : is_single v -> (fround v == v)%Q.
Proof.
  intros (m & K & Hm & HK & Hv). change (2 ^ K)%Q with (pow2 K) in Hv. unfold fround.
  destruct (Qcompare v 0) eqn:C;
    first [apply Qeq_alt in C | apply Qlt_alt in C | apply Qgt_alt in C].
  - now symmetry.
  - assert (Hneg : (- v == inject_Z (- m) * pow2 K)%Q).
    { rewrite Hv, inject_Z_opp. ring. }
    rewrite (fround_pos_single (- v) (- m) K); [ring | Lqa.lra | exact Hneg | lia | lia].
  - apply (fround_pos_single v m K); [exact C | exact Hv | lia | lia].
Qed.

(** The stored value is within half a quantum of the exact one. *)
Lemma fround_pos_near (v : Q) :
  (fround_pos v - (1 # 2) * pow2 (quantum v) <= v /\
   v <= fround_pos v + (1 # 2) * pow2 (quantum v))%Q.
Proof.
  unfold fround_pos. set (k := quantum v).
  pose proof (round_half_even_near (v / pow2 k)) as [H1 H2].
  pose proof (scaled_back v k) as Hb. pose proof (pow2_pos k) as Hp.
  revert H1 H2 Hb Hp.
  generalize (inject_Z (round_half_even (v / pow2 k))). intros r.
  generalize (pow2 k). intros p. generalize (v / p)%Q. intros s H1 H2 Hb Hp.
  rewrite <- Hb. split; Lqa.nra.
Qed.

Lemma ilog2_comp (v w : Q) : (0 < v)%Q -> (v == w)%Q -> ilog2 v = ilog2 w.
Proof.
  intros Hv Hvw. symmetry. destruct (ilog2_spec v Hv) as [H1 H2].
  apply ilog2_unique; now rewrite <- Hvw.
Qed.

Lemma round_half_even_comp (s t : Q) :
  (s == t)%Q -> round_half_even s = round_half_even t.
Proof.
  intros Hst. unfold round_half_even.
  assert (Hf : Qfloor s = Qfloor t) by now rewrite Hst.
  rewrite Hf.
  assert (Hc : Qcompare (s - inject_Z (Qfloor t)) (1 # 2)
               = Qcompare (t - inject_Z (Qfloor t)) (1 # 2)) by now rewrite Hst.
  now rewrite Hc.
Qed.

Lemma fround_pos_comp (v w : Q) :
  (0 < v)%Q -> (v == w)%Q -> (fround_pos v == fround_pos w)%Q.
Proof.
  intros Hv Hvw. unfold fround_pos, quantum.
  rewrite (ilog2_comp v w Hv Hvw).
  set (k := (Z.max (ilog2 w) (-126) - 23)%Z).
  assert (Hs : (v / pow2 k == w / pow2 k)%Q) by now rewrite Hvw.
  now rewrite (round_half_even_comp _ _ Hs).
Qed.

#[global] Instance fround_comp : Proper (Qeq ==> Qeq) fround.
Proof.
  intros v w Hvw. unfold fround.
  assert (Hc : Qcompare v 0 = Qcompare w 0) by now rewrite Hvw.
  rewrite <- Hc.
  destruct (Qcompare v 0) eqn:C;
    first [apply Qeq_alt in C | apply Qlt_alt in C | apply Qgt_alt in C].
  - reflexivity.
  - apply Qopp_comp, fround_pos_comp; [Lqa.lra | now rewrite Hvw].
  - now apply fround_pos_comp.
Qed.

Lemma is_single_comp (v w : Q) : (v == w)%Q -> is_single v -> is_single w.
Proof. intros Hvw (m & k & Hm & Hk & Hv). exists m, k. now rewrite <- Hvw. Qed.

Lemma is_single_opp (v : Q) : is_single v -> is_single (- v).
Proof.
  intros (m & k & Hm & Hk & Hv). exists (- m)%Z, k.
  split; [lia|]. split; [exact Hk|]. rewrite Hv, inject_Z_opp.
  change (2 ^ k)%Q with (pow2 k). generalize (pow2 k) (inject_Z m). intros; ring.
Qed.

Lemma round_half_even_below (s : Q) (n : Z) :
  (s < inject_Z n - (1 # 2))%Q -> (round_half_even s < n)%Z.
Proof.
  intros Hs. destruct (round_half_even_near s) as [H1 _].
  rewrite Zlt_Qlt. Lqa.lra.
Qed.

Lemma fround_pos_is_single (v : Q) :
  (0 < v)%Q -> (v < 2 ^ 128 - 2 ^ 103)%Q -> is_single (fround_pos v).
Proof.
  intros Hv Hr. destruct (ilog2_spec v Hv) as [Hlow Hup].
  assert (He : (ilog2 v < 128)%Z).
  { apply pow2_lt_inv. eapply Qle_lt_trans; [exact Hlow|].
    eapply Qlt_trans; [exact Hr|]. unfold pow2. Lqa.lra. }
  set (k := quantum v).
  assert (Hk : (-149 <= k <= 104)%Z) by (unfold k, quantum; lia).
  assert (Hk' : (ilog2 v + 1 <= k + 24)%Z) by (unfold k, quantum; lia).
  set (m := round_half_even (v / pow2 k)).
  assert (Hm0 : (0 <= m)%Z).
  { unfold m. rewrite <- (round_half_even_integer 0 0) by reflexivity.
    apply round_half_even_mono.
    apply Qle_shift_div_l; [apply pow2_pos|]. rewrite Qmult_0_l. now apply Qlt_le_weak. }
  assert (Hm1 : (m <= 2 ^ 24)%Z).
  { unfold m.
    rewrite <- (round_half_even_integer (inject_Z (2 ^ 24)) (2 ^ 24)) by reflexivity.
    apply round_half_even_mono. rewrite <- pow2_inject by lia.
    setoid_replace (pow2 24) with (pow2 (k + 24) / pow2 k)%Q using relation Qeq
      by (rewrite scaled_pow2; now replace (k + 24 - k)%Z with 24%Z by lia).
    apply scaled_le, Qlt_le_weak. eapply Qlt_le_trans; [exact Hup | now apply pow2_le]. }
  change (fround_pos v) with (inject_Z m * pow2 k)%Q.
  destruct (Z.eq_dec m (2 ^ 24)%Z) as [E|N].
  - destruct (Z.eq_dec k 104%Z) as [Ek|Nk].
    + exfalso.
      assert (m < 2 ^ 24)%Z; [|lia].
      apply round_half_even_below.
      apply Qlt_shift_div_r; [apply pow2_pos|].
      eapply Qlt_le_trans; [exact Hr|]. rewrite Ek. unfold pow2.
      apply Qle_lteq. right. reflexivity.
    + exists (2 ^ 23)%Z, (k + 1)%Z. split; [reflexivity|]. split; [lia|].
      rewrite E. change (2 ^ (k + 1))%Q with (pow2 (k + 1)). rewrite pow2_succ.
      change (inject_Z (2 ^ 24)) with (2 * inject_Z (2 ^ 23))%Q. ring.
  - exists m, k. split; [lia|]. split; [exact Hk | reflexivity].
Qed.

(** Within the range of the singles, what is stored is a single. *)
Lemma fround_is_single (v : Q) : single_range v -> is_single (fround v).
Proof.
  unfold single_range. intros Hr. unfold fround.
  destruct (Qcompare v 0) eqn:C;
    first [apply Qeq_alt in C | apply Qlt_alt in C | apply Qgt_alt in C].
  - exists 0%Z, 0%Z. split; [reflexivity|]. split; [lia | reflexivity].
  - apply is_single_opp, fround_pos_is_single; [Lqa.lra|].
    rewrite Qabs_neg in Hr by Lqa.lra. exact Hr.
  - apply fround_pos_is_single; [exact C|].
    rewrite Qabs_pos in Hr by Lqa.lra. exact Hr.
Qed.

Lemma is_single_in_range (v : Q) : is_single v -> single_range v.
Proof.
  intros (m & k & Hm & Hk & Hv). unfold single_range.
  rewrite Hv, Qabs_Qmult. change (2 ^ k)%Q with (pow2 k).
  rewrite (Qabs_pos (pow2 k)) by apply Qlt_le_weak, pow2_pos.
  assert (Hm' : (Qabs (inject_Z m) <= inject_Z (2 ^ 24 - 1))%Q).
  { apply Qabs_Qle_condition. rewrite <- inject_Z_opp, <- !Zle_Qle. lia. }
  assert (Hp : (pow2 k <= pow2 104)%Q) by (apply pow2_le; lia).
  pose proof (pow2_pos k) as Hk0.
  assert (Ha : (0 <= Qabs (inject_Z m))%Q) by apply Qabs_nonneg.
  apply Qle_lt_trans with (inject_Z (2 ^ 24 - 1) * pow2 104)%Q.
  - apply Qle_trans with (inject_Z (2 ^ 24 - 1) * pow2 k)%Q.
    + apply Qmult_le_compat_r; [exact Hm' | Lqa.lra].
    + apply Qmult_le_l; [reflexivity | exact Hp].
  - reflexivity.
Qed.

Lemma fround_min (a b : Q) : (fround (Qmin a b) == Qmin (fround a) (fround b))%Q.
Proof.
  destruct (Q.min_spec a b) as [[Hab ->]|[Hab ->]].
  - symmetry. apply Q.min_l, fround_mono. now apply Qlt_le_weak.
  - symmetry. apply Q.min_r, fround_mono. exact Hab.
Qed.

Lemma fround_max (a b : Q) : (fround (Qmax a b) == Qmax (fround a) (fround b))%Q.
Proof.
  destruct (Q.max_spec a b) as [[Hab ->]|[Hab ->]].
  - symmetry. apply Q.max_r, fround_mono. now apply Qlt_le_weak.
  - symmetry. apply Q.max_l, fround_mono. exact Hab.
Qed.

(** *** The two paths *)

Lemma bake_stores_world matrix vertexData :
  bake_positions matrix vertexData = map fround (world_positions matrix vertexData).
Proof.
  induction vertexData as [l Hl | x y z a b c rest IH] using stride6_ind.
  - destruct l as [|? [|? [|? [|? [|? [|? ?]]]]]]; simpl in *; try reflexivity; lia.
  - simpl. now rewrite IH.
Qed.

Lemma world_positions_identity vertexData :
  Forall2 Qeq (world_positions identity4 vertexData) (local_positions vertexData).
Proof.
  induction vertexData as [l Hl | x y z a b c rest IH] using stride6_ind.
  - destruct l as [|? [|? [|? [|? [|? [|? ?]]]]]]; simpl in *; try constructor; lia.
  - simpl. destruct (world_identity x y z) as (Hx & Hy & Hz).
    repeat constructor; assumption.
Qed.

Lemma world_positions_translation tx ty tz vertexData :
  Forall2 Qeq (world_positions (translation4 tx ty tz) vertexData)
    (translate_positions tx ty tz (local_positions vertexData)).
Proof.
  induction vertexData as [l Hl | x y z a b c rest IH] using stride6_ind.
  - destruct l as [|? [|? [|? [|? [|? [|? ?]]]]]]; simpl in *; try constructor; lia.
  - simpl. destruct (world_translation tx ty tz x y z) as (Hx & Hy & Hz).
    repeat constructor; assumption.
Qed.

Lemma stores_map exact exact' :
  Forall2 Qeq exact exact' -> stores (map fround exact) exact'.
Proof.
  unfold stores. induction 1 as [|e e' exact exact' He _ IH]; simpl; constructor.
  - now rewrite He.
  - exact IH.
Qed.

Lemma bake_identity vertexData :
  Forall is_single vertexData ->
  Forall2 Qeq (bake_positions identity4 vertexData) (local_positions vertexData).
Proof.
  induction vertexData as [l Hl | x y z a b c rest IH] using stride6_ind.
  - intros _.
    destruct l as [|? [|? [|? [|? [|? [|? ?]]]]]]; simpl in *; try constructor; lia.
  - intros Hs.
    apply Forall_cons in Hs as [Sx Hs]. apply Forall_cons in Hs as [Sy Hs].
    apply Forall_cons in Hs as [Sz Hs]. apply Forall_cons in Hs as [_ Hs].
    apply Forall_cons in Hs as [_ Hs]. apply Forall_cons in Hs as [_ Hs].
    simpl. destruct (world_identity x y z) as (Hx & Hy & Hz).
    repeat constructor; try (now apply IH).
    + rewrite Hx. now apply fround_single.
    + rewrite Hy. now apply fround_single.
    + rewrite Hz. now apply fround_single.
Qed.

Lemma bake_translation tx ty tz vertexData :
  stores (bake_positions (translation4 tx ty tz) vertexData)
    (translate_positions tx ty tz (local_positions vertexData)).
Proof.
  rewrite bake_stores_world. apply stores_map, world_positions_translation.
Qed.

Lemma bbox_of_world matrix vertexData acc :
  bbox_vertices matrix vertexData acc
  = bbox_of_positions (world_positions matrix vertexData) acc.
Proof.
  revert acc.
  induction vertexData as [l Hl | x y z a b c rest IH] using stride6_ind; intros acc.
  - destruct l as [|? [|? [|? [|? [|? [|? ?]]]]]]; simpl in *; try reflexivity; lia.
  - simpl. rewrite IH. reflexivity.
Qed.




(** A triangle baked with the identity and with a translation. *)
Example bake_triangle :
  Forall2 Qeq
    (bake_positions identity4 [0; 0; 0; 0; 0; 1;  1; 0; 0; 0; 0; 1;  0; 2; 0; 0; 0; 1]%Q)
    [0; 0; 0;  1; 0; 0;  0; 2; 0]%Q /\
  Forall2 Qeq
    (bake_positions (translation4 10 20 30)
       [0; 0; 0; 0; 0; 1;  1; 0; 0; 0; 0; 1;  0; 2; 0; 0; 0; 1]%Q)
    [10; 20; 30;  11; 20; 30;  10; 22; 30]%Q.
Proof. split; repeat constructor; reflexivity. Qed.

(** ** Storey filter *)

Lemma filter_empty_set (allowedIDs : gset Z) (allMeshes : list IFCMeshData) :
  allowedIDs = ∅ ->
  filter (fun m => meshExpressID m ∈ allowedIDs) allMeshes = [].
Proof.
  intros ->.
  induction allMeshes as [|m rest IH]; [reflexivity|].
  rewrite filter_cons. destruct (decide _) as [Hin|_]; [|exact IH].
  now apply not_elem_of_empty in Hin.
Qed.

Lemma find_storey_none id (l : list IFCStoreyData) :
  Forall (fun s => expressID s <> id) l -> find_storey id l = None.
Proof. intros H. unfold find_storey. now apply list_find_None. Qed.

(** C9. With no storey selected the filter returns the whole mesh list,
    and with a selected storey whose elementIDs is empty it returns no
    mesh, provided the selected id is not 0: the guard [!selectedStoreyID]
    takes the id 0 for no selection. *)
Theorem filteredMeshes_null_and_empty allMeshes buildingData :
  filteredMeshes allMeshes None buildingData = allMeshes /\
  (forall id data i storey,
     id <> 0%Z ->
     find_storey id (bd_storeys data) = Some (i, storey) ->
     elementIDs storey = [] ->
     filteredMeshes allMeshes (Some id) (Some data) = []).
Proof.
  split; [reflexivity|].
  intros id data i storey Hid Hfind Hempty.
  unfold filteredMeshes, falsy_id.
  apply Z.eqb_neq in Hid. rewrite Hid. simpl.
  rewrite Hfind, Hempty. simpl. now apply filter_empty_set.
Qed.

Lemma filteredMeshes_null_and_empty_witness :
  filteredMeshes sample_meshList (Some 3%Z) (Some (parseIFCFile sample_api)) = [].
Proof.
  apply (proj2 (filteredMeshes_null_and_empty sample_meshList None) 3%Z
           (parseIFCFile sample_api) 2%nat
           {| name := "Mezzanine"; elevation := 3; expressID := 3; elementIDs := [] |});
    [lia | reflexivity | reflexivity].
Defined.

(** The storey of [zero_storey_api] has the id 0 and no element; selecting
    it shows all three meshes of the sample list. *)
Lemma filteredMeshes_zero_id_shows_all :
  find_storey 0 (bd_storeys (parseIFCFile zero_storey_api))
  = Some (0%nat, {| name := "Ground floor"; elevation := 0;
                    expressID := 0; elementIDs := [] |}) /\
  filteredMeshes sample_meshList (Some 0%Z) (Some (parseIFCFile zero_storey_api))
  = sample_meshList /\
  length (filteredMeshes sample_meshList (Some 0%Z)
            (Some (parseIFCFile zero_storey_api))) = 3%nat.
Proof. split; [reflexivity|]. split; reflexivity. Qed.

(** C10. A selected id that matches no storey of the building data, and
    likewise the id 0, which the guard treats as no selection, gives back
    the complete mesh list. *)
Theorem filteredMeshes_unmatched_or_zero allMeshes buildingData :
  (forall id data,
     Forall (fun s => expressID s <> id) (bd_storeys data) ->
     filteredMeshes allMeshes (Some id) (Some data) = allMeshes) /\
  filteredMeshes allMeshes (Some 0%Z) buildingData = allMeshes.
Proof.
  split; [|reflexivity].
  intros id data Hnone. unfold filteredMeshes.
  destruct (falsy_id (Some id) || _); [reflexivity|].
  now rewrite (find_storey_none _ _ Hnone).
Qed.

Lemma filteredMeshes_unmatched_or_zero_witness :
  filteredMeshes sample_meshList (Some 42%Z) (Some (parseIFCFile sample_api))
  = sample_meshList.
Proof.
  apply (proj1 (filteredMeshes_unmatched_or_zero sample_meshList None)).
  vm_compute. repeat constructor; discriminate.
Defined.

(** Selecting storey 1 of the sample keeps the two meshes of element 7. *)
Example filteredMeshes_sample :
  map meshExpressID
    (filteredMeshes sample_meshList (Some 1%Z) (Some (parseIFCFile sample_api)))
  = [7%Z; 7%Z].
Proof. vm_compute. reflexivity. Qed.

(** ** Model aggregator *)

Lemma nonempty_app {A : Type} (l1 l2 : list A) :
  nonempty (l1 ++ l2) = nonempty l1 || nonempty l2.
Proof. destruct l1; reflexivity. Qed.

Lemma nonempty_false {A : Type} (l : list A) : nonempty l = false <-> l = [].
Proof. destruct l; simpl; split; congruence. Qed.

Lemma nonempty_true {A : Type} (l : list A) : nonempty l = true <-> l <> [].
Proof. destruct l; simpl; split; congruence. Qed.

(** The summing loops add the resolved values in order and raise [found]
    exactly when there is one. *)
Lemma sum_resolved_spec api names ids total found :
  sum_resolved api names ids (total, found)
  = Normal (fold_left Qplus (omap (resolve api names) ids) total,
            found || nonempty (omap (resolve api names) ids)).
Proof.
  revert total found.
  induction ids as [|id rest IH]; intros total found.
  - simpl. now rewrite orb_false_r.
  - change (sum_resolved api names (id :: rest) (total, found))
      with (area ← extractQuantityFromPsets api (id_val id) names;
            sum_resolved api names rest (add_found (total, found) area)).
    rewrite extractQuantityFromPsets_resolve. simpl.
    destruct (resolve api names id) as [a|]; simpl; rewrite IH; simpl.
    + now rewrite orb_true_r.
    + reflexivity.
Qed.

Lemma sum_bbox_areas_spec api ids total found :
  sum_bbox_areas api ids (total, found)
  = (fold_left Qplus (omap (fun id => bbox_area <$> computeBoundingBox api id) ids) total,
     found || nonempty (omap (fun id => bbox_area <$> computeBoundingBox api id) ids)).
Proof.
  revert total found.
  induction ids as [|id rest IH]; intros total found; simpl.
  - now rewrite orb_false_r.
  - destruct (computeBoundingBox api id) as [bb|]; simpl; rewrite IH; simpl.
    + now rewrite orb_true_r.
    + reflexivity.
Qed.

Lemma volume_of_ids_spec api ids total found :
  volume_of_ids api ids (total, found)
  = (fold_left Qplus (omap (volume_contribution api) ids) total,
     found || nonempty (omap (volume_contribution api) ids)).
Proof.
  revert total found.
  induction ids as [|id rest IH]; intros total found.
  - simpl. now rewrite orb_false_r.
  - change (volume_of_ids api (id :: rest) (total, found))
      with (match extractQuantityFromPsets api (id_val id) VOLUME_NAMES with
            | Throw => (total, found)
            | Normal (Some vol) => volume_of_ids api rest ((total + vol)%Q, true)
            | Normal None =>
                volume_of_ids api rest
                  (add_found (total, found) (bbox_volume <$> computeBoundingBox api id))
            end).
    rewrite extractQuantityFromPsets_resolve.
    change (omap (volume_contribution api) (id :: rest))
      with (match volume_contribution api id with
            | Some v => v :: omap (volume_contribution api) rest
            | None => omap (volume_contribution api) rest
            end).
    destruct (resolve api VOLUME_NAMES id) as [v|] eqn:Hr.
    + assert (Hc : volume_contribution api id = Some v).
      { unfold volume_contribution.
        change (resolve api _ id) with (resolve api VOLUME_NAMES id).
        now rewrite Hr. }
      rewrite Hc, IH. simpl. now rewrite orb_true_r.
    + assert (Hc : volume_contribution api id
                   = bbox_volume <$> computeBoundingBox api id).
      { unfold volume_contribution.
        change (resolve api _ id) with (resolve api VOLUME_NAMES id).
        now rewrite Hr. }
      rewrite Hc.
      destruct (computeBoundingBox api id) as [bb|]; simpl; rewrite IH; simpl.
      * now rewrite orb_true_r.
      * reflexivity.
Qed.

Lemma volume_of_types_spec api types total found :
  volume_of_types api types (total, found)
  = (fold_left Qplus
       (omap (volume_contribution api) (flat_map (GetLineIDsWithType api) types)) total,
     found || nonempty
                (omap (volume_contribution api) (flat_map (GetLineIDsWithType api) types))).
Proof.
  unfold volume_of_types. revert total found.
  induction types as [|type rest IH]; intros total found; simpl.
  - now rewrite orb_false_r.
  - rewrite volume_of_ids_spec, IH, omap_app, fold_left_app, nonempty_app.
    now rewrite orb_assoc.
Qed.

(** [round2] yields the hundredth nearest to its argument, the upper one on a
    tie. *)
Lemma round2_nearest_hundredth (v : Q) :
  exists n : Z,
    (round2 v == n # 100 /\ - (1 # 200) < round2 v - v /\ round2 v - v <= 1 # 200)%Q.
Proof.
  exists (Qfloor (v * 100 + (1 # 2))).
  pose proof (Qfloor_le (v * 100 + (1 # 2))) as Hle.
  pose proof (Qlt_floor (v * 100 + (1 # 2))) as Hlt.
  rewrite inject_Z_plus in Hlt.
  assert (Heq : (round2 v == Qfloor (v * 100 + (1 # 2)) # 100)%Q).
  { unfold round2. rewrite (Qmake_Qdiv _ 100). reflexivity. }
  split; [exact Heq|].
  assert (Hdiv : (round2 v * 100 == inject_Z (Qfloor (v * 100 + (1 # 2))))%Q).
  { unfold round2. field. }
  rewrite <- Hdiv in Hle, Hlt.
  change (inject_Z 1) with 1%Q in Hlt.
  revert Hle Hlt. generalize (round2 v). intros r Hle Hlt.
  split; Lqa.lra.
Qed.

Lemma grossFloorArea_eq_spec api : grossFloorArea api = grossFloorArea_spec api.
Proof.
  unfold grossFloorArea, grossFloorArea_body, grossFloorArea_spec.
  rewrite sum_resolved_spec. simpl.
  change (omap (resolve api SPACE_AREA_NAMES) (GetLineIDsWithType api IFCSPACE))
    with (space_tier api).
  destruct (space_tier api) as [|a1 t1] eqn:Ht1; simpl; [|reflexivity].
  rewrite sum_resolved_spec. simpl.
  change (omap (resolve api SLAB_AREA_NAMES) (GetLineIDsWithType api IFCSLAB))
    with (slab_tier api).
  destruct (slab_tier api) as [|a2 t2] eqn:Ht2; simpl; [|reflexivity].
  rewrite sum_bbox_areas_spec. simpl.
  change (omap (fun id => bbox_area <$> computeBoundingBox api id)
            (GetLineIDsWithType api IFCSLAB))
    with (bbox_tier api).
  destruct (bbox_tier api) as [|a3 t3] eqn:Ht3; reflexivity.
Qed.

(** C2. Gross floor area is the rounded sum of the first tier that
    resolved anything: the areas of the spaces, else the areas of the slabs,
    else the XY areas (maxX - minX) * (maxY - minY) of the slabs' bounding
    boxes.  A tier with one resolved value suppresses the later ones; with
    no spaces and slabs that carry an area the result is the rounded sum of
    those slab areas; the result is null exactly when all three tiers are
    empty; and the rounding is to the nearest hundredth. *)
Theorem grossFloorArea_three_tiers api :
  grossFloorArea api = grossFloorArea_spec api /\
  (space_tier api <> [] ->
   grossFloorArea api = Some (round2 (Qsum (space_tier api)))) /\
  (space_tier api = [] -> slab_tier api <> [] ->
   grossFloorArea api = Some (round2 (Qsum (slab_tier api)))) /\
  (space_tier api = [] -> slab_tier api = [] -> bbox_tier api <> [] ->
   grossFloorArea api = Some (round2 (Qsum (bbox_tier api)))) /\
  (GetLineIDsWithType api IFCSPACE = [] -> slab_tier api <> [] ->
   grossFloorArea api = Some (round2 (Qsum (slab_tier api)))) /\
  (grossFloorArea api = None <->
   space_tier api = [] /\ slab_tier api = [] /\ bbox_tier api = []) /\
  (forall v, exists n : Z,
     (round2 v == n # 100 /\ - (1 # 200) < round2 v - v /\ round2 v - v <= 1 # 200)%Q) /\
  bbox_tier api
  = omap (fun id =>
            (fun bb => ((maxX bb - minX bb) * (maxY bb - minY bb))%Q)
              <$> computeBoundingBox api id)
      (GetLineIDsWithType api IFCSLAB) /\
  (forall id bb,
     GetLineIDsWithType api IFCSPACE = [] ->
     GetLineIDsWithType api IFCSLAB = [id] ->
     resolve api ["GrossArea"; "NetArea"; "Area"; "GrossSideArea"] id = None ->
     computeBoundingBox api id = Some bb ->
     grossFloorArea api
     = Some (round2 (0 + (maxX bb - minX bb) * (maxY bb - minY bb)))).
Proof.
  assert (Main :
    grossFloorArea api = grossFloorArea_spec api /\
    (space_tier api <> [] ->
     grossFloorArea api = Some (round2 (Qsum (space_tier api)))) /\
    (space_tier api = [] -> slab_tier api <> [] ->
     grossFloorArea api = Some (round2 (Qsum (slab_tier api)))) /\
    (space_tier api = [] -> slab_tier api = [] -> bbox_tier api <> [] ->
     grossFloorArea api = Some (round2 (Qsum (bbox_tier api)))) /\
    (GetLineIDsWithType api IFCSPACE = [] -> slab_tier api <> [] ->
     grossFloorArea api = Some (round2 (Qsum (slab_tier api)))) /\
    (grossFloorArea api = None <->
     space_tier api = [] /\ slab_tier api = [] /\ bbox_tier api = [])).
  { rewrite grossFloorArea_eq_spec. unfold grossFloorArea_spec.
    assert (Hspaces : GetLineIDsWithType api IFCSPACE = [] -> space_tier api = []).
    { unfold space_tier. now intros ->. }
    destruct (space_tier api) as [|a1 t1]; destruct (slab_tier api) as [|a2 t2];
      destruct (bbox_tier api) as [|a3 t3]; simpl;
      repeat split; intros; try reflexivity; try congruence; try tauto;
      try (now specialize (Hspaces ltac:(assumption)));
      try (destruct_and?; congruence). }
  destruct Main as (H1 & H2 & H3 & H4 & H5 & H6).
  refine (conj H1 (conj H2 (conj H3 (conj H4 (conj H5
           (conj H6 (conj round2_nearest_hundredth (conj eq_refl _)))))))).
  intros id bb Hspaces Hslabs Hres Hbb.
  rewrite H4.
  - unfold bbox_tier. rewrite Hslabs. simpl. now rewrite Hbb.
  - unfold space_tier. now rewrite Hspaces.
  - unfold slab_tier. rewrite Hslabs. simpl. now rewrite Hres.
  - unfold bbox_tier. rewrite Hslabs. simpl. now rewrite Hbb.
Qed.

Lemma grossFloorArea_three_tiers_witness :
  grossFloorArea sample_api = Some (round2 (Qsum [25 # 2; 29 # 4]%Q)).
Proof.
  apply (proj1 (proj2 (proj2 (proj2 (proj2 (grossFloorArea_three_tiers sample_api))))));
    [reflexivity | discriminate].
Defined.

(** On the sample the two slab areas 12.5 and 7.25 give 19.75, although
    slab 12 has no area and a bounding box of 20. *)
Example grossFloorArea_sample :
  grossFloorArea sample_api = Some (1975 # 100)%Q /\
  bbox_area <$> computeBoundingBox sample_api 12 = Some (500 # 25)%Q.
Proof. split; reflexivity. Qed.

Lemma totalVolume_eq_spec api : totalVolume api = totalVolume_spec api.
Proof.
  unfold totalVolume, totalVolume_spec. rewrite volume_of_types_spec.
  fold (structural_ids api). unfold Qsum.
  destruct (omap (volume_contribution api) (structural_ids api)); reflexivity.
Qed.

(** C3. Total volume runs over the five structural types and takes, for
    each entity on its own, the resolver's value for NetVolume, GrossVolume
    or Volume when there is one and otherwise that entity's bounding-box
    volume dx * dy * dz; the sum is rounded to the nearest hundredth and is
    null when no entity contributed.  With two structural elements, one
    with an explicit volume and one without, the total is the explicit
    volume plus the other's bounding-box volume. *)
Theorem totalVolume_per_entity api :
  STRUCTURAL_TYPES = [IFCWALL; IFCWALLSTANDARDCASE; IFCSLAB; IFCCOLUMN; IFCBEAM] /\
  totalVolume api = totalVolume_spec api /\
  (forall e1 e2 v bb,
     resolve api ["NetVolume"; "GrossVolume"; "Volume"] e1 = Some v ->
     resolve api ["NetVolume"; "GrossVolume"; "Volume"] e2 = None ->
     computeBoundingBox api e2 = Some bb ->
     (structural_ids api = [e1; e2] ->
      totalVolume api
      = Some (round2 (0 + v
                      + (maxX bb - minX bb) * (maxY bb - minY bb) * (maxZ bb - minZ bb)))) /\
     (structural_ids api = [e2; e1] ->
      totalVolume api
      = Some (round2 (0 + (maxX bb - minX bb) * (maxY bb - minY bb) * (maxZ bb - minZ bb)
                      + v)))) /\
  (totalVolume api = None <->
   omap (volume_contribution api) (structural_ids api) = []) /\
  (forall values,
     omap (volume_contribution api) (structural_ids api) = values -> values <> [] ->
     exists (total : Q) (n : Z),
       totalVolume api = Some total /\
       (total == n # 100 /\
        - (1 # 200) < total - Qsum values /\ total - Qsum values <= 1 # 200)%Q) /\
  (forall id,
     volume_contribution api id
     = match resolve api ["NetVolume"; "GrossVolume"; "Volume"] id with
       | Some v => Some v
       | None =>
           (fun bb =>
              ((maxX bb - minX bb) * (maxY bb - minY bb) * (maxZ bb - minZ bb))%Q)
             <$> computeBoundingBox api id
       end).
Proof.
  split; [reflexivity|].
  split; [apply totalVolume_eq_spec|].
  rewrite totalVolume_eq_spec. unfold totalVolume_spec.
  split; [|split; [|split; [|reflexivity]]].
  - intros e1 e2 v bb H1 H2 Hbb.
    assert (C1 : volume_contribution api e1 = Some v).
    { unfold volume_contribution. now rewrite H1. }
    assert (C2 : volume_contribution api e2
                 = Some ((maxX bb - minX bb) * (maxY bb - minY bb)
                         * (maxZ bb - minZ bb))%Q).
    { unfold volume_contribution. now rewrite H2, Hbb. }
    split; intros ->; simpl; rewrite C1, C2; reflexivity.
  - destruct (omap (volume_contribution api) (structural_ids api));
      split; congruence.
  - intros values -> Hne.
    destruct (round2_nearest_hundredth (Qsum values)) as (n & Hn).
    destruct values as [|v0 rest]; [congruence|].
    eexists. exists n. split; [reflexivity | exact Hn].
Qed.

Lemma totalVolume_per_entity_witness :
  totalVolume two_element_api
  = Some (round2 (0 + (7 # 2) + (1 - 0) * (2 - 0) * (3 - 0)))%Q.
Proof.
  apply (proj1 (proj1 (proj2 (proj2 (totalVolume_per_entity two_element_api)))
                  20%Z 21%Z (7 # 2)%Q
                  {| minX := 0; minY := 0; minZ := 0; maxX := 1; maxY := 2; maxZ := 3 |}
                  eq_refl eq_refl eq_refl)).
  reflexivity.
Defined.

(** ** Spatial hierarchy builder: discovery and sort *)

Lemma by_elevation_le (s1 s2 : IFCStoreyData) :
  Qle_bool (by_elevation s1 s2) 0 = true <-> (elevation s1 <= elevation s2)%Q.
Proof.
  unfold by_elevation. rewrite Qle_bool_iff. split; intros H; Lqa.lra.
Qed.

Lemma by_elevation_gt (s1 s2 : IFCStoreyData) :
  Qle_bool (by_elevation s1 s2) 0 = false -> (elevation s2 < elevation s1)%Q.
Proof.
  intros H. apply Qnot_le_lt. intros Hle.
  apply by_elevation_le in Hle. congruence.
Qed.

Lemma sort_insert_perm (s : IFCStoreyData) l :
  Permutation (sort_insert by_elevation s l) (s :: l).
Proof.
  induction l as [|y l IH]; simpl; [reflexivity|].
  destruct (Qle_bool (by_elevation s y) 0); [reflexivity|].
  rewrite IH. apply perm_swap.
Qed.

Lemma js_sort_perm (l : list IFCStoreyData) :
  Permutation (js_sort by_elevation l) l.
Proof.
  induction l as [|s l IH]; simpl; [reflexivity|].
  rewrite sort_insert_perm. now constructor.
Qed.

Lemma sort_insert_hd (s y : IFCStoreyData) l :
  (elevation y <= elevation s)%Q ->
  HdRel Qle (elevation y) (map elevation l) ->
  HdRel Qle (elevation y) (map elevation (sort_insert by_elevation s l)).
Proof.
  intros Hys Hhd. destruct l as [|z l]; simpl.
  - now constructor.
  - destruct (Qle_bool (by_elevation s z) 0); simpl; constructor; auto.
    now inversion Hhd.
Qed.

Lemma sort_insert_sorted (s : IFCStoreyData) l :
  Sorted Qle (map elevation l) ->
  Sorted Qle (map elevation (sort_insert by_elevation s l)).
Proof.
  induction l as [|y l IH]; simpl; intros Hs.
  - repeat constructor.
  - destruct (Qle_bool (by_elevation s y) 0) eqn:Hcmp; simpl.
    + constructor; [exact Hs|]. constructor. now apply by_elevation_le.
    + inversion Hs as [|? ? Hs' Hhd]; subst.
      constructor; [now apply IH|].
      apply sort_insert_hd; [|exact Hhd].
      apply Qlt_le_weak. now apply by_elevation_gt.
Qed.

Lemma js_sort_sorted (l : list IFCStoreyData) :
  Sorted Qle (map elevation (js_sort by_elevation l)).
Proof.
  induction l as [|s l IH]; simpl; [constructor|].
  now apply sort_insert_sorted.
Qed.

(** Insertion moves [s] only past storeys that lie strictly lower, so the
    storeys at any one elevation keep their order. *)
Lemma sort_insert_stable v (s : IFCStoreyData) l :
  List.filter (at_elevation v) (sort_insert by_elevation s l)
  = List.filter (at_elevation v) (s :: l).
Proof.
  induction l as [|y l IH]; [reflexivity|].
  simpl sort_insert.
  destruct (Qle_bool (by_elevation s y) 0) eqn:Hcmp; [reflexivity|].
  apply by_elevation_gt in Hcmp.
  change (List.filter (at_elevation v) (y :: sort_insert by_elevation s l))
    with (if at_elevation v y
          then y :: List.filter (at_elevation v) (sort_insert by_elevation s l)
          else List.filter (at_elevation v) (sort_insert by_elevation s l)).
  rewrite IH. simpl.
  destruct (at_elevation v s) eqn:Hs, (at_elevation v y) eqn:Hy; try reflexivity.
  unfold at_elevation in Hs, Hy.
  apply Qeq_bool_iff in Hs, Hy. rewrite Hs, Hy in Hcmp.
  now apply Qlt_irrefl in Hcmp.
Qed.

Lemma js_sort_stable v (l : list IFCStoreyData) :
  List.filter (at_elevation v) (js_sort by_elevation l)
  = List.filter (at_elevation v) l.
Proof.
  induction l as [|s l IH]; [reflexivity|].
  simpl js_sort. rewrite sort_insert_stable. simpl. now rewrite IH.
Qed.

(** The passes only append to [elementIDs]. *)
Lemma header_alter (f : IFCStoreyData -> IFCStoreyData) i (l : list IFCStoreyData) :
  (forall s, header (f s) = header s) ->
  map header (alter f i l) = map header l.
Proof.
  intros Hf. revert i. induction l as [|s l IH]; intros [|i]; simpl; auto.
  - now rewrite Hf.
  - f_equal. apply IH.
Qed.

Lemma header_record_element i sid elID st :
  map header (storeys (record_element i sid elID st)) = map header (storeys st).
Proof. unfold record_element. simpl. now apply header_alter. Qed.

Lemma header_fold_record {R : Type} (step : Assignment -> R -> Assignment)
    (refs : list R) st :
  (forall st r, map header (storeys (step st r)) = map header (storeys st)) ->
  map header (storeys (fold_left step refs st)) = map header (storeys st).
Proof.
  intros Hstep. revert st. induction refs as [|r refs IH]; intros st; simpl; auto.
  now rewrite IH, Hstep.
Qed.

Lemma header_contain_relation api st relID :
  map header (storeys (contain_relation api st relID)) = map header (storeys st).
Proof.
  unfold contain_relation.
  destruct (GetRelLine api relID) as [[rel|]|]; auto.
  destruct (ref_id (Relating rel)) as [sid|]; auto.
  destruct (find_storey sid (storeys st)) as [[i s]|]; auto.
  destruct (Related rel) as [|refs|]; auto.
  apply header_fold_record. intros st' r. unfold contain_element.
  destruct (element_ref_id r); auto using header_record_element.
Qed.

Lemma header_aggregate_relation api st relID :
  map header (storeys (aggregate_relation api st relID)) = map header (storeys st).
Proof.
  unfold aggregate_relation.
  destruct (GetRelLine api relID) as [[rel|]|]; auto.
  destruct (ref_id (Relating rel)) as [parentID|]; auto.
  match goal with |- context [match ?t with Some _ => _ | None => st end] =>
    destruct t as [[i target]|] end; auto.
  destruct (Related rel) as [|refs|]; auto.
  apply header_fold_record. intros st' r. unfold aggregate_object.
  destruct (ref_id r); auto.
  destruct (elementToStorey st' !! _); auto using header_record_element.
Qed.

Lemma header_passes api st :
  map header (storeys (aggregation_pass api (containment_pass api st)))
  = map header (storeys st).
Proof.
  unfold aggregation_pass, containment_pass.
  rewrite header_fold_record by apply header_aggregate_relation.
  now apply header_fold_record, header_contain_relation.
Qed.

Lemma elevation_header (l : list IFCStoreyData) :
  map elevation l = map (fun h => snd (fst h)) (map header l).
Proof. rewrite map_map. reflexivity. Qed.

Lemma filter_header v (l : list IFCStoreyData) :
  map header (List.filter (at_elevation v) l)
  = List.filter (fun h => Qeq_bool (snd (fst h)) v) (map header l).
Proof.
  induction l as [|s l IH]; simpl; [reflexivity|].
  unfold at_elevation at 1. simpl.
  destruct (Qeq_bool (elevation s) v); simpl; now rewrite IH.
Qed.

Lemma discover_completes api ids i acc :
  Forall (storey_decodes api) ids -> snd (discover api ids i acc) = true.
Proof.
  intros H. revert i acc.
  induction H as [|sid ids (line & Hline) _ IH]; intros i acc; simpl; auto.
  now rewrite Hline.
Qed.

Lemma parse_storeys_completed api :
  Forall (storey_decodes api) (GetLineIDsWithType api IFCBUILDINGSTOREY) ->
  parse_storeys api
  = storeys (aggregation_pass api (containment_pass api
      {| storeys := js_sort by_elevation (discovered api); elementToStorey := ∅ |})).
Proof.
  intros H. unfold parse_storeys, discovered.
  pose proof (discover_completes api _ 0%nat [] H) as Hc.
  destruct (discover api (GetLineIDsWithType api IFCBUILDINGSTOREY) 0 []) as [found c].
  simpl in *. now subst c.
Qed.

(** C7 as the code has it.  When every storey record decodes, the storeys
    of the parsed model are in non-decreasing order of elevation, and the
    storeys at any one elevation are in discovery order; the parsed storeys
    are the discovered ones, rearranged. *)
Theorem storeys_sorted_stable api :
  Forall (storey_decodes api) (GetLineIDsWithType api IFCBUILDINGSTOREY) ->
  Sorted Qle (map elevation (parse_storeys api)) /\
  (forall v,
     map header (List.filter (at_elevation v) (parse_storeys api))
     = map header (List.filter (at_elevation v) (discovered api))) /\
  Permutation (map header (parse_storeys api)) (map header (discovered api)).
Proof.
  intros H. rewrite (parse_storeys_completed api H).
  split; [|split].
  - rewrite elevation_header, header_passes, <- elevation_header. simpl.
    apply js_sort_sorted.
  - intros v. rewrite filter_header, header_passes, <- filter_header. simpl.
    now rewrite js_sort_stable.
  - rewrite header_passes. simpl. apply Permutation_map, js_sort_perm.
Qed.

Lemma storeys_sorted_stable_witness :
  map expressID (parse_storeys sample_api) = [2; 1; 3]%Z /\
  Sorted Qle (map elevation (parse_storeys sample_api)).
Proof.
  split; [reflexivity|].
  apply (storeys_sorted_stable sample_api).
  repeat constructor; eexists; reflexivity.
Defined.

(** C7 as stated fails when a storey record does not decode: the
    throw leaves the block before the sort, and the storeys found so far stay
    in discovery order, here at elevations 3 and 0. *)
Lemma storeys_unsorted_after_throw :
  map elevation (parse_storeys broken_storey_api) = [3; 0]%Q /\
  ~ Sorted Qle (map elevation (parse_storeys broken_storey_api)).
Proof.
  split; [reflexivity|].
  change (map elevation (parse_storeys broken_storey_api)) with [3; 0]%Q.
  intros Hs. inversion Hs as [|? ? _ Hhd]; subst.
  inversion Hhd as [|? ? Hle]; subst. now apply Hle.
Qed.

(** ** Spatial hierarchy builder: element assignment *)

Lemma listed_push i elID (l : list IFCStoreyData) :
  (i < length l)%nat ->
  Permutation (listed (alter (push elID) i l)) (elID :: listed l).
Proof.
  revert i. induction l as [|s l IH]; intros i Hi; simpl in Hi; [lia|].
  destruct i as [|i]; unfold listed in *; simpl.
  - rewrite <- app_assoc. simpl.
    rewrite <- Permutation_middle. reflexivity.
  - rewrite (IH i) by lia.
    rewrite <- Permutation_middle. reflexivity.
Qed.

Lemma fold_left_invariant {A B : Type} (P : A -> Prop) (f : A -> B -> A) l a :
  P a -> (forall a b, P a -> P (f a b)) -> P (fold_left f l a).
Proof.
  intros Ha Hf. revert a Ha. induction l as [|b l IH]; intros a Ha; simpl; auto.
Qed.

Lemma find_storey_some id (l : list IFCStoreyData) i s :
  find_storey id l = Some (i, s) -> (i < length l)%nat /\ expressID s = id.
Proof.
  unfold find_storey. intros H. apply list_find_Some in H as (Hi & Hs & _).
  split; [now apply lookup_lt_Some in Hi | exact Hs].
Qed.

Lemma find_storey_is_some id (l : list IFCStoreyData) :
  is_Some (find_storey id l) <-> In id (map expressID l).
Proof.
  unfold find_storey. rewrite in_map_iff. split.
  - intros [[i s] H]. apply list_find_Some in H as (Hi & Hs & _).
    exists s. split; [exact Hs|].
    apply list_elem_of_In. now apply list_elem_of_lookup_2 in Hi.
  - intros (s & Hs & Hin).
    destruct (list_find (fun s0 => expressID s0 = id) l) eqn:Hf; [eauto|].
    apply list_find_None in Hf. rewrite Forall_forall in Hf.
    exfalso. apply (Hf s); auto. now apply list_elem_of_In.
Qed.

Lemma expressID_header (l : list IFCStoreyData) :
  map expressID l = map snd (map header l).
Proof. rewrite map_map. reflexivity. Qed.

Lemma record_element_listed i sid e st :
  (i < length (storeys st))%nat ->
  Permutation (listed (storeys (record_element i sid e st))) (e :: listed (storeys st)).
Proof. intros Hi. now apply listed_push. Qed.

Lemma record_element_mapped i sid e st e' :
  mapped (record_element i sid e st) e' <-> e' = e \/ mapped st e'.
Proof.
  unfold mapped, record_element. simpl.
  destruct (decide (e = e')) as [->|Hne].
  - rewrite lookup_insert_eq. split; eauto.
  - rewrite lookup_insert_ne by exact Hne. split; [auto|].
    intros [->|H]; [congruence | exact H].
Qed.

Lemma record_element_length i sid e st :
  length (storeys (record_element i sid e st)) = length (storeys st).
Proof. unfold record_element. simpl. apply length_alter. Qed.

(** *** The containment pass records every resolved reference *)

Lemma contain_elements_spec i sid refs st :
  (i < length (storeys st))%nat ->
  let st' := fold_left (contain_element i sid) refs st in
  Permutation (listed (storeys st')) (listed (storeys st) ++ omap element_ref_id refs) /\
  (forall e, mapped st' e <-> mapped st e \/ In e (omap element_ref_id refs)).
Proof.
  revert st. induction refs as [|r refs IH]; intros st Hi; simpl.
  - rewrite app_nil_r. split; [reflexivity|]. intros e. tauto.
  - unfold contain_element at 2 4.
    destruct (element_ref_id r) as [e0|]; [|now apply IH].
    destruct (IH (record_element i sid e0 st)) as [Hp Hm].
    { now rewrite record_element_length. }
    split.
    + rewrite Hp, record_element_listed by exact Hi.
      simpl. now rewrite <- Permutation_middle.
    + intros e. rewrite Hm, record_element_mapped. simpl.
      split; intros H; intuition (subst; auto).
Qed.

Lemma contain_relation_spec api st relID :
  same_storeys api st ->
  let st' := contain_relation api st relID in
  Permutation (listed (storeys st'))
    (listed (storeys st) ++ storey_relation_elements api relID) /\
  (forall e, mapped st' e <-> mapped st e \/ In e (storey_relation_elements api relID)).
Proof.
  intros Hsame. unfold contain_relation, storey_relation_elements, relation_elements.
  assert (Hnone : Permutation (listed (storeys st)) (listed (storeys st) ++ []) /\
                  (forall e, mapped st e <-> mapped st e \/ In e [])).
  { rewrite app_nil_r. split; [reflexivity|]. intros e. simpl. tauto. }
  destruct (GetRelLine api relID) as [[rel|]|]; try exact Hnone.
  destruct (ref_id (Relating rel)) as [sid|]; try exact Hnone.
  destruct (find_storey sid (storeys st)) as [[i s]|] eqn:Hfind.
  - rewrite bool_decide_eq_true_2.
    2:{ apply list_elem_of_In, Hsame, find_storey_is_some. rewrite Hfind. eauto. }
    destruct (Related rel) as [|refs|]; try exact Hnone.
    apply contain_elements_spec. now apply find_storey_some in Hfind.
  - rewrite bool_decide_eq_false_2; [exact Hnone|].
    intros Hin. apply list_elem_of_In, Hsame, find_storey_is_some in Hin.
    rewrite Hfind in Hin. now destruct Hin.
Qed.

Lemma same_storeys_header api st st' :
  map header (storeys st') = map header (storeys st) ->
  same_storeys api st -> same_storeys api st'.
Proof.
  unfold same_storeys. intros Hh Hs sid.
  rewrite expressID_header, Hh, <- expressID_header. apply Hs.
Qed.

Lemma containment_relations_spec api relIDs st :
  same_storeys api st ->
  let st' := fold_left (contain_relation api) relIDs st in
  Permutation (listed (storeys st'))
    (listed (storeys st) ++ flat_map (storey_relation_elements api) relIDs) /\
  (forall e, mapped st' e <->
             mapped st e \/ In e (flat_map (storey_relation_elements api) relIDs)).
Proof.
  revert st. induction relIDs as [|relID relIDs IH]; intros st Hsame; simpl.
  - rewrite app_nil_r. split; [reflexivity|]. intros e. tauto.
  - destruct (contain_relation_spec api st relID Hsame) as [Hp1 Hm1].
    destruct (IH (contain_relation api st relID)) as [Hp Hm].
    { eapply same_storeys_header; [apply header_contain_relation | exact Hsame]. }
    split.
    + rewrite Hp, Hp1. now rewrite app_assoc.
    + intros e. rewrite Hm, Hm1, in_app_iff. tauto.
Qed.

(** *** The aggregation pass attaches only unmapped children *)

Lemma aggregate_object_once i target st objRef :
  (i < length (storeys st))%nat ->
  assigned_once st ->
  let st' := aggregate_object i target st objRef in
  assigned_once st' /\
  (forall e, In e (listed (storeys st)) -> In e (listed (storeys st'))) /\
  length (storeys st') = length (storeys st).
Proof.
  intros Hi [Hnd Hmap]. unfold aggregate_object.
  destruct (ref_id objRef) as [objID|]; [|now repeat split].
  destruct (elementToStorey st !! objID) eqn:Hlook; [now repeat split|].
  pose proof (record_element_listed i (expressID target) objID st Hi) as Hp.
  assert (Hfresh : ~ In objID (listed (storeys st))).
  { intros Hin. destruct (Hmap _ Hin) as [sid Hsid].
    unfold mapped in Hsid. congruence. }
  repeat split.
  - rewrite Hp. apply NoDup_cons. split; [|exact Hnd].
    now rewrite list_elem_of_In.
  - intros e He. apply record_element_mapped.
    apply (Permutation_in _ Hp) in He. destruct He as [->|He]; auto.
  - intros e He. apply (Permutation_in _ (Permutation_sym Hp)). now right.
  - apply record_element_length.
Qed.

Lemma aggregate_objects_once i target refs st :
  (i < length (storeys st))%nat ->
  assigned_once st ->
  let st' := fold_left (aggregate_object i target) refs st in
  assigned_once st' /\
  (forall e, In e (listed (storeys st)) -> In e (listed (storeys st'))).
Proof.
  revert st. induction refs as [|r refs IH]; intros st Hi Hst; simpl; [auto|].
  destruct (aggregate_object_once i target st r Hi Hst) as (Hst1 & Hsub1 & Hlen).
  destruct (IH (aggregate_object i target st r)) as (Hst' & Hsub); auto.
  { now rewrite Hlen. }
Qed.

Lemma aggregate_relation_once api st relID :
  assigned_once st ->
  let st' := aggregate_relation api st relID in
  assigned_once st' /\
  (forall e, In e (listed (storeys st)) -> In e (listed (storeys st'))).
Proof.
  intros Hst. unfold aggregate_relation.
  destruct (GetRelLine api relID) as [[rel|]|]; auto.
  destruct (ref_id (Relating rel)) as [parentID|]; auto.
  match goal with |- context [match ?t with Some _ => _ | None => st end] =>
    destruct t as [[i target]|] eqn:Htarget end; auto.
  destruct (Related rel) as [|refs|]; auto.
  apply aggregate_objects_once; [|exact Hst].
  destruct (find_storey parentID (storeys st)) as [[i0 s0]|] eqn:Hparent.
  - injection Htarget as <- <-. now apply find_storey_some in Hparent.
  - destruct (elementToStorey st !! parentID) as [sid|]; [|discriminate].
    now apply find_storey_some in Htarget.
Qed.

Lemma aggregation_pass_once api st :
  assigned_once st ->
  assigned_once (aggregation_pass api st) /\
  (forall e, In e (listed (storeys st)) ->
             In e (listed (storeys (aggregation_pass api st)))).
Proof.
  unfold aggregation_pass. generalize (GetLineIDsWithType api IFCRELAGGREGATES).
  intros relIDs. revert st.
  induction relIDs as [|relID relIDs IH]; intros st Hst; simpl; [auto|].
  destruct (aggregate_relation_once api st relID Hst) as [Hst1 Hsub1].
  destruct (IH _ Hst1) as [Hst' Hsub]. auto.
Qed.

(** A mapped element is listed by the same storeys before and after the
    aggregation pass. *)
Lemma storeys_listing_cons e s (l : list IFCStoreyData) :
  storeys_listing e (s :: l)
  = ((if lists e s then 1 else 0) + storeys_listing e l)%nat.
Proof. unfold storeys_listing. simpl. now destruct (lists e s). Qed.

Lemma lists_push e e' s : e <> e' -> lists e (push e' s) = lists e s.
Proof.
  intros Hne. unfold lists, push. simpl. apply bool_decide_ext.
  rewrite elem_of_app, list_elem_of_singleton. tauto.
Qed.

Lemma storeys_listing_push e e' i (l : list IFCStoreyData) :
  e <> e' -> storeys_listing e (alter (push e') i l) = storeys_listing e l.
Proof.
  intros Hne. revert i.
  induction l as [|s l IH]; intros [|i]; try reflexivity.
  - change (alter (push e') 0%nat (s :: l)) with (push e' s :: l).
    now rewrite !storeys_listing_cons, lists_push.
  - change (alter (push e') (S i) (s :: l)) with (s :: alter (push e') i l).
    now rewrite !storeys_listing_cons, IH.
Qed.

Lemma aggregate_object_keeps e i target st objRef :
  mapped st e ->
  let st' := aggregate_object i target st objRef in
  mapped st' e /\
  storeys_listing e (storeys st') = storeys_listing e (storeys st).
Proof.
  intros He. unfold aggregate_object.
  destruct (ref_id objRef) as [objID|]; [|auto].
  destruct (elementToStorey st !! objID) eqn:Hlook; [auto|].
  split.
  - apply record_element_mapped. auto.
  - apply storeys_listing_push. intros ->.
    destruct He as [sid Hsid]. congruence.
Qed.

Lemma aggregation_pass_keeps api e st :
  mapped st e ->
  mapped (aggregation_pass api st) e /\
  storeys_listing e (storeys (aggregation_pass api st))
  = storeys_listing e (storeys st).
Proof.
  intros He. unfold aggregation_pass.
  apply (fold_left_invariant
           (fun st' => mapped st' e /\
                       storeys_listing e (storeys st') = storeys_listing e (storeys st))).
  - auto.
  - intros st' relID [Hm Hl]. unfold aggregate_relation.
    destruct (GetRelLine api relID) as [[rel|]|]; auto.
    destruct (ref_id (Relating rel)) as [parentID|]; auto.
    match goal with |- context [match ?t with Some _ => _ | None => st' end] =>
      destruct t as [[i target]|] end; auto.
    destruct (Related rel) as [|refs|]; auto.
    apply (fold_left_invariant
             (fun st'' => mapped st'' e /\
                storeys_listing e (storeys st'') = storeys_listing e (storeys st))).
    + auto.
    + intros st'' r [Hm' Hl'].
      destruct (aggregate_object_keeps e i target st'' r Hm') as [Hm'' Hl''].
      split; [exact Hm'' | congruence].
Qed.

(** *** From the passes to the parsed storeys *)

Lemma listed_app (l1 l2 : list IFCStoreyData) :
  listed (l1 ++ l2) = listed l1 ++ listed l2.
Proof. unfold listed. now rewrite map_app, concat_app. Qed.

Lemma discover_unassigned api ids i acc :
  listed acc = [] -> listed (fst (discover api ids i acc)) = [].
Proof.
  revert i acc. induction ids as [|sid ids IH]; intros i acc Hacc; simpl; auto.
  destruct (GetStoreyLine api sid) as [[line|]|]; auto.
  apply IH. rewrite listed_app, Hacc. reflexivity.
Qed.

Lemma discover_ids api ids i acc :
  snd (discover api ids i acc) = true ->
  map expressID (fst (discover api ids i acc)) = map expressID acc ++ ids.
Proof.
  revert i acc. induction ids as [|sid ids IH]; intros i acc; simpl.
  - now rewrite app_nil_r.
  - destruct (GetStoreyLine api sid) as [[line|]|]; try discriminate.
    intros H. rewrite (IH _ _ H), map_app, <- app_assoc. reflexivity.
Qed.

Lemma listed_perm (l1 l2 : list IFCStoreyData) :
  Permutation l1 l2 -> Permutation (listed l1) (listed l2).
Proof.
  unfold listed. induction 1; simpl.
  - reflexivity.
  - now apply Permutation_app_head.
  - rewrite !app_assoc. apply Permutation_app_tail, Permutation_app_comm.
  - etransitivity; eassumption.
Qed.

Lemma listing_zero e (l : list IFCStoreyData) :
  ~ In e (listed l) -> storeys_listing e l = 0%nat.
Proof.
  induction l as [|s l IH]; [reflexivity|].
  rewrite storeys_listing_cons. unfold listed. simpl. rewrite in_app_iff.
  intros Hnot. rewrite IH by tauto.
  unfold lists. rewrite bool_decide_eq_false_2; [reflexivity|].
  rewrite list_elem_of_In. tauto.
Qed.

Lemma listing_le_one e (l : list IFCStoreyData) :
  NoDup (listed l) -> (storeys_listing e l <= 1)%nat.
Proof.
  induction l as [|s l IH]; [unfold storeys_listing; simpl; lia|].
  rewrite storeys_listing_cons. unfold listed. simpl.
  rewrite NoDup_app. intros (_ & Hdisj & Hnd).
  unfold lists. destruct (bool_decide (e ∈ elementIDs s)) eqn:He.
  - apply bool_decide_eq_true in He.
    rewrite listing_zero; [lia|].
    rewrite <- list_elem_of_In. now apply Hdisj.
  - specialize (IH Hnd). lia.
Qed.

Lemma listing_ge_one e (l : list IFCStoreyData) :
  In e (listed l) -> (1 <= storeys_listing e l)%nat.
Proof.
  induction l as [|s l IH]; [intros []|].
  rewrite storeys_listing_cons. unfold listed. simpl. rewrite in_app_iff.
  unfold lists. intros [He|He].
  - rewrite bool_decide_eq_true_2 by now apply list_elem_of_In. lia.
  - specialize (IH He). lia.
Qed.

(** The state after both passes, when discovery ran to its end. *)
Lemma passes_assign_once api found :
  snd (discover api (GetLineIDsWithType api IFCBUILDINGSTOREY) 0 []) = true ->
  found = fst (discover api (GetLineIDsWithType api IFCBUILDINGSTOREY) 0 []) ->
  NoDup (contained api) ->
  let st := aggregation_pass api (containment_pass api
              {| storeys := js_sort by_elevation found; elementToStorey := ∅ |}) in
  NoDup (listed (storeys st)) /\
  (forall e, In e (contained api) -> In e (listed (storeys st))).
Proof.
  intros Hc -> Hnd.
  set (found := fst (discover api (GetLineIDsWithType api IFCBUILDINGSTOREY) 0 [])).
  set (st0 := {| storeys := js_sort by_elevation found; elementToStorey := ∅ |}).
  assert (Hlisted0 : listed (storeys st0) = []).
  { apply Permutation_nil. symmetry. unfold st0. simpl.
    rewrite (listed_perm _ _ (js_sort_perm found)).
    unfold found. now rewrite discover_unassigned. }
  assert (Hsame : same_storeys api st0).
  { intros sid. simpl.
    pose proof (Permutation_map expressID (js_sort_perm found)) as Hperm.
    unfold found in Hperm at 2. rewrite (discover_ids _ _ _ _ Hc) in Hperm.
    simpl in Hperm.
    split; [apply (Permutation_in _ Hperm)
           | apply (Permutation_in _ (Permutation_sym Hperm))]. }
  destruct (containment_relations_spec api
              (GetLineIDsWithType api IFCRELCONTAINEDINSPATIALSTRUCTURE) st0 Hsame)
    as [Hp Hm].
  fold (containment_pass api st0) in Hp, Hm. fold (contained api) in Hp, Hm.
  rewrite Hlisted0 in Hp. simpl in Hp.
  assert (Honce : assigned_once (containment_pass api st0)).
  { split.
    - now rewrite Hp.
    - intros e He. apply Hm. right. now apply (Permutation_in _ Hp). }
  destruct (aggregation_pass_once api _ Honce) as [[Hnd' _] Hsub].
  split; [exact Hnd'|].
  intros e He. apply Hsub. now apply (Permutation_in _ (Permutation_sym Hp)).
Qed.

(** C1 as the code has it.  When no element id is named twice by the
    containment relations whose structure is a storey, an element id is
    listed by at most one storey; when moreover every storey record decodes,
    every element named by such a relation is listed by exactly one storey;
    and the aggregation pass attaches only children that are not yet mapped,
    so it leaves the storeys of a mapped element as they are. *)
Theorem element_in_one_storey api :
  NoDup (contained api) ->
  (forall e, (storeys_listing e (parse_storeys api) <= 1)%nat) /\
  (Forall (storey_decodes api) (GetLineIDsWithType api IFCBUILDINGSTOREY) ->
   forall e, In e (contained api) -> storeys_listing e (parse_storeys api) = 1%nat) /\
  (forall st e,
     mapped st e ->
     storeys_listing e (storeys (aggregation_pass api st))
     = storeys_listing e (storeys st)).
Proof.
  intros Hnd. split; [|split].
  - intros e. unfold parse_storeys.
    destruct (discover api (GetLineIDsWithType api IFCBUILDINGSTOREY) 0 [])
      as [found completed] eqn:Hd.
    destruct completed.
    + apply listing_le_one.
      apply (passes_assign_once api found); try assumption; now rewrite Hd.
    + rewrite listing_zero; [lia|].
      replace found with (fst (discover api (GetLineIDsWithType api IFCBUILDINGSTOREY) 0 []))
        by now rewrite Hd.
      now rewrite discover_unassigned.
  - intros Hdec e He.
    pose proof (discover_completes api _ 0%nat [] Hdec) as Hc.
    rewrite (parse_storeys_completed api Hdec).
    destruct (passes_assign_once api (discovered api) Hc eq_refl Hnd) as [Hnd' Hin].
    pose proof (listing_le_one e _ Hnd').
    pose proof (listing_ge_one e _ (Hin e He)).
    lia.
  - intros st e He. now apply aggregation_pass_keeps.
Qed.

Lemma element_in_one_storey_witness :
  storeys_listing 7 (parse_storeys sample_api) = 1%nat.
Proof.
  assert (Hnd : NoDup (contained sample_api)).
  { apply (bool_decide_unpack _). vm_compute. exact I. }
  apply (proj1 (proj2 (element_in_one_storey sample_api Hnd))).
  - repeat constructor; eexists; reflexivity.
  - vm_compute. auto.
Defined.

(** C1 as stated fails: element 7, named by the containment relations
    of storeys 1 and 2, is recorded by both, and element 9, contained in the
    building, is listed by no storey. *)
Lemma element_in_two_storeys :
  storeys_listing 7 (parse_storeys overlapping_api) = 2%nat /\
  (referenced_by_containment overlapping_api 9 /\
   storeys_listing 9 (parse_storeys overlapping_api) = 0%nat) /\
  ~ ((forall e, (storeys_listing e (parse_storeys overlapping_api) <= 1)%nat) /\
     (forall e, referenced_by_containment overlapping_api e ->
                storeys_listing e (parse_storeys overlapping_api) = 1%nat)).
Proof.
  assert (H7 : storeys_listing 7 (parse_storeys overlapping_api) = 2%nat)
    by reflexivity.
  split; [exact H7|]. split.
  - split; [|reflexivity].
    exists 52%Z. split; apply (bool_decide_unpack _); vm_compute; exact I.
  - intros [Hmost _]. specialize (Hmost 7%Z). rewrite H7 in Hmost. lia.
Qed.

(** ** The viewer *)

Module ViewerFacts.
Import Viewer.
Local Open Scope R_scope.

Lemma ltb_true a b : a < b -> ltb a b = true.
Proof. intros H. unfold ltb. destruct (Rlt_dec a b); [reflexivity | contradiction]. Qed.

Lemma ltb_false a b : b <= a -> ltb a b = false.
Proof. intros H. unfold ltb. destruct (Rlt_dec a b); [lra | reflexivity]. Qed.

Lemma ltb_spec a b : ltb a b = true <-> a < b.
Proof.
  unfold ltb. destruct (Rlt_dec a b); split; intros; auto; discriminate.
Qed.

(** What "center camera on model" does to a viewer whose ref is set: the
    shared target moves to the centre, the ref's own [distance] becomes
    twice the largest dimension, the closure's [distance] keeps its value,
    and the camera is placed with the closure's value. *)
Lemma centerCamera_effect box o orbit :
  orbitRef o = Some orbit ->
  0 < maxDim box ->
  let o' := centerCamera box o in
  target o' = getCenter box /\
  orbit_distance <$> orbitRef o' = Some (maxDim box * 2) /\
  distance o' = distance o /\
  rotX o' = rotX o /\ rotY o' = rotY o /\
  camera_position o'
  = addScaled (getCenter box) (distance o) (sphericalToCartesian (rotY o) (rotX o)).
Proof.
  intros Href Hdim. unfold centerCamera. rewrite Href, (ltb_true _ _ Hdim).
  unfold updateCamera, addScaled, sphericalToCartesian. simpl.
  repeat split. f_equal; ring.
Qed.

(** A model of zero extent leaves the viewer as it is. *)
Lemma centerCamera_zero_extent box o :
  maxDim box <= 0 -> centerCamera box o = o.
Proof.
  intros Hdim. unfold centerCamera. rewrite (ltb_false _ _ Hdim).
  now destruct (orbitRef o).
Qed.

Lemma unit_box_not_empty : isEmpty unit_box = false.
Proof.
  unfold isEmpty, unit_box. simpl.
  rewrite !ltb_false by lra. reflexivity.
Qed.

Lemma unit_box_maxDim : maxDim unit_box = 1.
Proof.
  unfold maxDim, getSize. rewrite unit_box_not_empty. unfold unit_box. simpl.
  replace (1 - 0) with 1 by ring.
  rewrite (Rmax_left 1 1) by lra. now rewrite (Rmax_left 1 1) by lra.
Qed.

Lemma unit_box_center : getCenter unit_box = {| x := 1 / 2; y := 1 / 2; z := 1 / 2 |}.
Proof.
  unfold getCenter. rewrite unit_box_not_empty. unfold unit_box. simpl.
  f_equal; field.
Qed.

Lemma sin_half_pos : 0 < sin (1 / 2).
Proof.
  apply sin_gt_0; [lra|]. pose proof PI2_1. lra.
Qed.

(** C6 at a failing input: a unit cube loaded into a freshly mounted
    viewer.  The target is recentred and the ref's [distance] is set to 2,
    but [updateCamera] reads the closure's [distance], still 50, so the
    camera is not at target + 2 * maxDim * sphericalToCartesian(yaw, pitch). *)
Theorem centerCamera_keeps_closure_distance :
  let o := centerCamera unit_box mount in
  target o = getCenter unit_box /\
  orbit_distance <$> orbitRef o = Some 2 /\
  distance o = 50 /\
  camera_position o
  = addScaled (getCenter unit_box) 50 (sphericalToCartesian (rotY mount) (rotX mount)) /\
  camera_position o <> position_at_twice_maxDim unit_box o.
Proof.
  assert (Hdim : 0 < maxDim unit_box) by (rewrite unit_box_maxDim; lra).
  destruct (centerCamera_effect unit_box mount _ eq_refl Hdim)
    as (Ht & Hd & Hc & HrX & HrY & Hp).
  cbv zeta. repeat split.
  - exact Ht.
  - rewrite Hd, unit_box_maxDim. f_equal. ring.
  - exact Hc.
  - exact Hp.
  - rewrite Hp. unfold position_at_twice_maxDim. rewrite HrX, HrY, unit_box_maxDim.
    unfold addScaled, sphericalToCartesian. simpl.
    intros Heq. injection Heq as _ Hy _.
    rewrite unit_box_center in Hy. simpl in Hy.
    rewrite sin_neg in Hy. pose proof sin_half_pos. lra.
Qed.

(** *** Measurement *)

Lemma Int_part_half (n : Z) : Int_part (IZR n + 1 / 2) = n.
Proof.
  unfold Int_part.
  rewrite <- (tech_up (IZR n + 1 / 2) (n + 1)); [lia | |];
    rewrite plus_IZR; simpl; lra.
Qed.

Lemma distance_3_4_0 : distanceTo zero3 point_3_4_0 = 5.
Proof.
  unfold distanceTo, zero3, point_3_4_0. simpl.
  apply sqrt_lem_1; lra.
Qed.

Lemma toFixed2_5 : toFixed2 5 = "5.00"%string.
Proof.
  unfold toFixed2.
  rewrite (ltb_false 5 0) by lra.
  rewrite Rabs_right by lra.
  replace (5 * 100 + 1 / 2) with (IZR 500 + 1 / 2) by lra.
  rewrite Int_part_half. reflexivity.
Qed.

Lemma distance_above : distanceTo zero3 point_above = 1234 / 100.
Proof.
  unfold distanceTo, zero3, point_above. simpl.
  apply sqrt_lem_1; lra.
Qed.

Lemma toFixed2_above : toFixed2 (1234 / 100) = "12.34"%string.
Proof.
  unfold toFixed2.
  rewrite (ltb_false (1234 / 100) 0) by lra.
  rewrite Rabs_right by lra.
  replace (1234 / 100 * 100 + 1 / 2) with (IZR 1234 + 1 / 2) by lra.
  rewrite Int_part_half. reflexivity.
Qed.

Lemma distanceTo_nonneg (a b : Vector3) : 0 <= distanceTo a b.
Proof. unfold distanceTo. apply sqrt_pos. Qed.

Lemma label_digits (p1 p2 : Vector3) :
  exists n : Z,
    IZR n <= distanceTo p1 p2 * 100 + 1 / 2 < IZR n + 1 /\
    label (createMeasurementLine p1 p2)
    = ((decimal (Z.to_nat (n / 100)) +:+ "."
        +:+ decimal (Z.to_nat (n mod 100 / 10))
        +:+ decimal (Z.to_nat (n mod 100 mod 10))) +:+ " m")%string.
Proof.
  pose proof (distanceTo_nonneg p1 p2) as Hd.
  exists (Int_part (distanceTo p1 p2 * 100 + 1 / 2)). split.
  - destruct (base_Int_part (distanceTo p1 p2 * 100 + 1 / 2)). lra.
  - unfold createMeasurementLine, toFixed2. cbn [label].
    rewrite (ltb_false (distanceTo p1 p2) 0) by lra.
    rewrite Rabs_right by lra. reflexivity.
Qed.

Lemma scene_remove_gone id children :
  Forall (fun c => child_id c <> id) (scene_remove id children).
Proof.
  unfold scene_remove. apply Forall_forall. intros c Hc.
  apply list_elem_of_In, filter_In in Hc. destruct Hc as [_ Hc].
  apply negb_true_iff, Nat.eqb_neq in Hc. exact Hc.
Qed.

(** C8. With a first point pending, a pick adds to the scene a measurement
    group from the first point to the picked one whose label is their
    Euclidean distance printed with two decimals and the suffix " m", takes
    the pending marker out of the scene, and clears the pending point and
    marker while measurement mode stays on, so that the next pick is again a
    first pick and the annotation is still there.  For (0,0,0) and (3,4,0)
    the label is "5.00 m", and for (0,0,0) and (0,0,12.34) it is "12.34 m".
    In general the label is made of the digits of
    the integer [n] nearest to a hundred times the distance (the larger one
    on a tie): the decimal numeral of [n / 100], a point, the tens digit and
    the units digit of [n mod 100], and then " m". *)
Theorem second_pick_measures (m : Measuring) (first point : Vector3)
    (rest : list Vector3) :
  measureMode m = picking ->
  measurePoint m = Some first ->
  let m' := onClick (point :: rest) m in
  let annotation := MeasurementGroup (nextId m) (createMeasurementLine first point) in
  scene m'
  = match measurePreview m with
    | Some id => scene_remove id (scene m)
    | None => scene m
    end ++ [annotation] /\
  line_from (createMeasurementLine first point) = first /\
  line_to (createMeasurementLine first point) = point /\
  label (createMeasurementLine first point)
  = (toFixed2 (distanceTo first point) +:+ " m")%string /\
  distanceTo first point
  = sqrt ((x first - x point) * (x first - x point)
          + (y first - y point) * (y first - y point)
          + (z first - z point) * (z first - z point)) /\
  (forall id, measurePreview m = Some id ->
     Forall (fun c => child_id c <> id) (scene_remove id (scene m))) /\
  measurePoint m' = None /\ measurePreview m' = None /\
  measureMode m' = picking /\
  (forall p ps,
     measurePoint (onClick (p :: ps) m') = Some p /\
     In annotation (scene (onClick (p :: ps) m'))) /\
  label (createMeasurementLine zero3 point_3_4_0) = "5.00 m"%string /\
  label (createMeasurementLine zero3 point_above) = "12.34 m"%string /\
  exists n : Z,
    IZR n <= distanceTo first point * 100 + 1 / 2 < IZR n + 1 /\
    label (createMeasurementLine first point)
    = ((decimal (Z.to_nat (n / 100)) +:+ "."
        +:+ decimal (Z.to_nat (n mod 100 / 10))
        +:+ decimal (Z.to_nat (n mod 100 mod 10))) +:+ " m")%string.
Proof.
  intros Hmode Hfirst. cbv zeta.
  assert (Hm' : onClick (point :: rest) m
    = {| scene := match measurePreview m with
                  | Some id => scene_remove id (scene m)
                  | None => scene m
                  end ++ [MeasurementGroup (nextId m) (createMeasurementLine first point)];
         nextId := S (nextId m);
         measureMode := measureMode m;
         measurePoint := None;
         measurePreview := None |}).
  { unfold onClick. now rewrite Hfirst. }
  rewrite Hm'. simpl.
  split; [reflexivity|]. split; [reflexivity|]. split; [reflexivity|].
  split; [reflexivity|]. split; [reflexivity|].
  split; [intros id _; apply scene_remove_gone|].
  split; [reflexivity|]. split; [reflexivity|]. split; [exact Hmode|].
  split.
  - intros p ps. split; [reflexivity|].
    simpl. apply in_or_app. left. apply in_or_app. right. now left.
  - split; [|split].
    + unfold createMeasurementLine. simpl.
      now rewrite distance_3_4_0, toFixed2_5.
    + unfold createMeasurementLine. simpl.
      now rewrite distance_above, toFixed2_above.
    + apply label_digits.
Qed.

(** Picking (0,0,0) and then (3,4,0) from the sample scene. *)
Lemma second_pick_measures_witness :
  let m := onClick [point_3_4_0] (onClick [zero3] measuring_start) in
  scene m
  = [OtherChild 0; OtherChild 1; OtherChild 2;
     MeasurementGroup 4 (createMeasurementLine zero3 point_3_4_0)] /\
  label (createMeasurementLine zero3 point_3_4_0) = "5.00 m"%string /\
  measurePoint m = None /\ measureMode m = picking.
Proof.
  cbv zeta.
  destruct (second_pick_measures (onClick [zero3] measuring_start) zero3
              point_3_4_0 [] eq_refl eq_refl)
    as (Hscene & _ & _ & _ & _ & _ & Hpoint & _ & Hmode & _ & Hlabel & _).
  split; [rewrite Hscene; reflexivity|].
  split; [exact Hlabel|]. split; [exact Hpoint | exact Hmode].
Defined.

End ViewerFacts.

(** * Further properties of the code *)

(** ** The resolver's candidate names *)

Lemma includes_ext names names' v :
  (forall n, In n names <-> In n names') -> includes names v = includes names' v.
Proof.
  intros H. destruct v; try reflexivity. simpl.
  apply eq_true_iff_eq. rewrite !existsb_exists.
  split; intros (n & Hn & Heq); exists n; (split; [now apply H | exact Heq]).
Qed.

Lemma name_matches_ext names names' line :
  (forall n, In n names <-> In n names') ->
  name_matches names line = name_matches names' line.
Proof.
  intros H. unfold name_matches.
  destruct (negb (truthy line)); [reflexivity|].
  destruct (get line "Name") as [name|]; simpl; [|reflexivity].
  destruct (negb (truthy name)); [reflexivity|].
  destruct (get name "value") as [nv|]; simpl; [|reflexivity].
  now rewrite (includes_ext names names' nv H).
Qed.

Lemma scan_lines_ext api names names' read refs :
  (forall n, In n names <-> In n names') ->
  scan_lines api names read refs = scan_lines api names' read refs.
Proof.
  intros H. induction refs as [|q rest IH]; simpl; [reflexivity|].
  rewrite IH.
  destruct (negb (truthy q)); [reflexivity|].
  destruct (get q "value") as [qv|]; simpl; [|reflexivity].
  destruct (negb (truthy qv)); [reflexivity|].
  destruct (GetLine api qv false) as [line|]; simpl; [|reflexivity].
  now rewrite (name_matches_ext names names' line H).
Qed.

Lemma scan_collection_ext api names names' read pset K :
  (forall n, In n names <-> In n names') ->
  scan_collection api names read pset K = scan_collection api names' read pset K.
Proof.
  intros H. unfold scan_collection.
  destruct (negb (truthy pset)); [reflexivity|].
  destruct (get pset K) as [coll|]; simpl; [|reflexivity].
  destruct (negb (truthy coll)); [reflexivity|].
  destruct (iterate coll) as [refs|]; simpl; [|reflexivity].
  now apply scan_lines_ext.
Qed.

Lemma scan_relation_ext api names names' rel :
  (forall n, In n names <-> In n names') ->
  scan_relation api names rel = scan_relation api names' rel.
Proof.
  intros H. unfold scan_relation.
  destruct (get rel "value") as [rv|]; simpl; [|reflexivity].
  destruct (GetLine api rv true) as [relLine|]; simpl; [|reflexivity].
  destruct (negb (truthy relLine)); [reflexivity|].
  destruct (get relLine "RelatingPropertyDefinition") as [psetRef|]; simpl; [|reflexivity].
  destruct (negb (truthy psetRef)); [reflexivity|].
  destruct (if is_object psetRef then get psetRef "value" else Normal JUndefined)
    as [pv|]; simpl; [|reflexivity].
  destruct (if is_object psetRef && truthy pv then GetLine api pv true else Normal JNull)
    as [pset|]; simpl; [|reflexivity].
  rewrite (scan_collection_ext api names names' quantity_value pset _ H).
  rewrite (scan_collection_ext api names names' property_value pset _ H).
  reflexivity.
Qed.

Lemma scan_relations_ext api names names' rels :
  (forall n, In n names <-> In n names') ->
  scan_relations api names rels = scan_relations api names' rels.
Proof.
  intros H. induction rels as [|rel rest IH]; simpl; [reflexivity|].
  now rewrite IH, (scan_relation_ext api names names' rel H).
Qed.

Lemma name_matches_nil line : name_matches [] line <> Normal true.
Proof.
  unfold name_matches.
  destruct (negb (truthy line)); [discriminate|].
  destruct (get line "Name") as [name|]; simpl; [|discriminate].
  destruct (negb (truthy name)); [discriminate|].
  destruct (get name "value") as [[]|]; simpl; discriminate.
Qed.

(** X1. The candidate names act as a set: two lists with the same members
    give the same result for every decoder and entity, so the order of the
    candidates expresses no preference (the traversal order decides); and an
    empty candidate list always gives [null]. *)
Theorem candidate_names_are_a_set api elementID names names' :
  (forall n, In n names <-> In n names') ->
  extractQuantityFromPsets api elementID names
  = extractQuantityFromPsets api elementID names' /\
  extractQuantityFromPsets api elementID [] = Normal None.
Proof.
  intros H. split.
  - unfold extractQuantityFromPsets, resolver_body. do 2 f_equal.
    destruct (GetLine api elementID true) as [psets|]; simpl; [|reflexivity].
    destruct (negb (truthy psets)); [reflexivity|].
    destruct (get psets "IsDefinedBy") as [d|]; simpl; [|reflexivity].
    destruct (negb (truthy d)); [reflexivity|].
    destruct (iterate d) as [rels|]; simpl; [|reflexivity].
    now apply scan_relations_ext.
  - unfold extractQuantityFromPsets.
    destruct (resolver_body api elementID []) as [[n|]|] eqn:Hbody; try reflexivity.
    exfalso. apply resolver_body_sound in Hbody.
    destruct Hbody as (? & ? & ? & rel & _ & _ & _ & _ & _ & _ & _ & Hrel).
    destruct Hrel as (? & ? & ? & ? & pset & _ & _ & _ & _ & _ & _ & _ & _ & _ & _ & Hy).
    destruct Hy as [Hy|Hy];
      destruct Hy as (? & ? & _ & _ & _ & _ & (? & ? & line & _ & _ & _ & _ & _ & Hm & _));
      now apply name_matches_nil in Hm.
Qed.

Lemma candidate_names_are_a_set_witness :
  extractQuantityFromPsets sample_api (id_val 11) ["Area"; "GrossArea"]%string
  = extractQuantityFromPsets sample_api (id_val 11) ["GrossArea"; "Area"; "Area"]%string.
Proof.
  apply (candidate_names_are_a_set sample_api (id_val 11)).
  intros n. simpl. tauto.
Defined.

(** ** Bounding boxes *)

Lemma touch_min (a v : Q) (f : Point3 -> Q) points p :
  (exists q, In q points /\ a == f q)%Q -> (v == f p)%Q ->
  (exists q, In q (points ++ [p]) /\ Qmin a v == f q)%Q.
Proof.
  intros (q & Hq & Ha) Hv.
  destruct (Q.min_spec a v) as [[_ Hm]|[_ Hm]].
  - exists q. split; [apply in_or_app; now left | now rewrite Hm].
  - exists p. split; [apply in_or_app; right; now left | now rewrite Hm].
Qed.

Lemma touch_max (a v : Q) (f : Point3 -> Q) points p :
  (exists q, In q points /\ a == f q)%Q -> (v == f p)%Q ->
  (exists q, In q (points ++ [p]) /\ Qmax a v == f q)%Q.
Proof.
  intros (q & Hq & Ha) Hv.
  destruct (Q.max_spec a v) as [[_ Hm]|[_ Hm]].
  - exists p. split; [apply in_or_app; right; now left | now rewrite Hm].
  - exists q. split; [apply in_or_app; now left | now rewrite Hm].
Qed.

Lemma extend_covers acc points p :
  covers acc points -> covers (extend acc p) (points ++ [p]).
Proof.
  destruct acc as [bb|]; simpl.
  - intros [Hin (T1 & T2 & T3 & T4 & T5 & T6)]. split.
    + intros q Hq. apply in_app_or in Hq. unfold inside; simpl.
      destruct Hq as [Hq|[<-|[]]].
      * destruct (Hin q Hq) as (I1 & I2 & I3 & I4 & I5 & I6).
        repeat split;
          first [ eapply Qle_trans; [apply Q.le_min_l | eassumption]
                | eapply Qle_trans; [eassumption | apply Q.le_max_l] ].
      * repeat split; first [apply Q.le_min_r | apply Q.le_max_r].
    + unfold touches; simpl.
      repeat split;
        first [ apply (touch_min _ _ px); [assumption | reflexivity]
              | apply (touch_max _ _ px); [assumption | reflexivity]
              | apply (touch_min _ _ py); [assumption | reflexivity]
              | apply (touch_max _ _ py); [assumption | reflexivity]
              | apply (touch_min _ _ pz); [assumption | reflexivity]
              | apply (touch_max _ _ pz); [assumption | reflexivity] ].
  - intros ->. simpl. split.
    + intros q [<-|[]]. unfold inside; simpl. repeat split; apply Qle_refl.
    + unfold touches; simpl.
      repeat split; exists p; (split; [now left | reflexivity]).
Qed.

Lemma bbox_vertices_covers matrix verts acc points :
  covers acc points ->
  covers (bbox_vertices matrix verts acc) (points ++ world_points matrix verts).
Proof.
  revert acc points.
  induction verts as [l Hl | x y z a b c rest IH] using stride6_ind; intros acc points H.
  - destruct l as [|? [|? [|? [|? [|? [|? ?]]]]]]; simpl in *;
      try (rewrite app_nil_r; exact H); lia.
  - simpl.
    replace (points ++ bbox_world matrix x y z :: world_points matrix rest)
      with ((points ++ [bbox_world matrix x y z]) ++ world_points matrix rest)
      by now rewrite <- app_assoc.
    apply IH. now apply extend_covers.
Qed.

Lemma bbox_geometries_covers geoms :
  covers (bbox_geometries geoms) (points_of geoms).
Proof.
  unfold bbox_geometries, points_of.
  assert (H : forall acc points, covers acc points ->
            covers (fold_left
                      (fun acc g => bbox_vertices (flatTransformation g) (vertexData g) acc)
                      geoms acc)
                   (points ++ flat_map
                      (fun g => world_points (flatTransformation g) (vertexData g)) geoms)).
  { induction geoms as [|g geoms IH]; intros acc points Hc; simpl.
    - now rewrite app_nil_r.
    - rewrite app_assoc. apply IH. now apply bbox_vertices_covers. }
  apply (H None []). reflexivity.
Qed.

Lemma covers_ordered bb points :
  covers (Some bb) points ->
  (minX bb <= maxX bb /\ minY bb <= maxY bb /\ minZ bb <= maxZ bb)%Q.
Proof.
  intros [Hin ((p1 & H1 & E1) & _ & (p2 & H2 & E2) & _ & (p3 & H3 & E3) & _)].
  destruct (Hin p1 H1) as (_ & I1 & _).
  destruct (Hin p2 H2) as (_ & _ & _ & I2 & _).
  destruct (Hin p3 H3) as (_ & _ & _ & _ & _ & I3).
  repeat split; [rewrite E1 | rewrite E2 | rewrite E3]; assumption.
Qed.

Lemma computeBoundingBox_covers api id bb :
  computeBoundingBox api id = Some bb ->
  exists geoms, GetFlatMesh api id = Normal (Some geoms) /\
                covers (Some bb) (points_of geoms).
Proof.
  unfold computeBoundingBox.
  destruct (GetFlatMesh api id) as [[[|g geoms]|]|]; try discriminate.
  intros H. change (bbox_geometries (g :: geoms) = Some bb) in H.
  exists (g :: geoms). split; [reflexivity|].
  rewrite <- H. apply bbox_geometries_covers.
Qed.

Lemma computeBoundingBox_ordered api id bb :
  computeBoundingBox api id = Some bb ->
  (minX bb <= maxX bb /\ minY bb <= maxY bb /\ minZ bb <= maxZ bb)%Q.
Proof.
  intros H. destruct (computeBoundingBox_covers api id bb H) as (geoms & _ & Hc).
  now apply covers_ordered in Hc.
Qed.

Lemma seq_add k s n : seq (k + s) n = map (fun v => (k + v)%nat) (seq s n).
Proof.
  revert s. induction n as [|n IH]; intros s; [reflexivity|].
  simpl. f_equal. rewrite <- IH. now rewrite Nat.add_succ_r.
Qed.

Lemma loop_indices_step (x y z a b c : Q) rest :
  loop_indices (x :: y :: z :: a :: b :: c :: rest)
  = 0%nat :: map (fun v => (6 + v)%nat) (loop_indices rest).
Proof.
  unfold loop_indices.
  change (length (x :: y :: z :: a :: b :: c :: rest)) with (6 + length rest)%nat.
  rewrite seq_app.
  change (seq 0 6) with [0; 1; 2; 3; 4; 5]%nat.
  rewrite List.filter_app.
  change (List.filter (fun v => Nat.eqb (v mod 6) 0) [0; 1; 2; 3; 4; 5]%nat) with [0%nat].
  cbn [app]. f_equal.
  change (0 + 6)%nat with 6%nat.
  generalize (length rest). intros n.
  replace (seq 6 n) with (map (fun v => (6 + v)%nat) (seq 0 n))
    by (symmetry; apply (seq_add 6 0)).
  induction (seq 0 n) as [|v l IH]; [reflexivity|].
  cbn [map List.filter].
  replace ((6 + v) mod 6)%nat with (v mod 6)%nat.
  - destruct (Nat.eqb (v mod 6) 0); cbn [map]; now rewrite IH.
  - replace (6 + v)%nat with (v + 1 * 6)%nat by lia.
    now rewrite Nat.Div0.mod_add.
Qed.

Lemma visited_world_points matrix verts :
  (length verts mod 6 = 0)%nat ->
  map (vertex_at matrix verts) (loop_indices verts) = world_points matrix verts.
Proof.
  induction verts as [verts Hshort | x y z a b c rest IH] using stride6_ind.
  - intros Hmod. rewrite Nat.mod_small in Hmod by exact Hshort.
    destruct verts; [reflexivity | discriminate].
  - intros Hmod.
    change (length (x :: y :: z :: a :: b :: c :: rest)) with (6 + length rest)%nat in Hmod.
    replace (6 + length rest)%nat with (length rest + 1 * 6)%nat in Hmod by lia.
    rewrite Nat.Div0.mod_add in Hmod.
    rewrite loop_indices_step. cbn [map world_points]. f_equal.
    rewrite <- (IH Hmod), map_map. reflexivity.
Qed.

Lemma visited_points_of geoms :
  Forall whole_vertices geoms -> visited geoms = points_of geoms.
Proof.
  unfold visited, points_of. induction 1 as [|g geoms Hg _ IH]; [reflexivity|].
  cbn [flat_map]. now rewrite IH, (visited_world_points _ _ Hg).
Qed.

(** X2. For an element whose vertex buffers hold whole six-scalar vertices,
    the bounding box holds every point the loop visits (the transformed
    position at each index 0, 6, 12, ... below the buffer's length, in every
    part of the mesh) and is tight: each face passes through one of them.
    So its extents, its floor area and its volume are never negative; and
    the result is null exactly when the mesh cannot be read, is missing, or
    has no vertex. *)
Theorem computeBoundingBox_encloses api id :
  well_meshed api id ->
  match computeBoundingBox api id with
  | Some bb =>
      exists geoms,
        GetFlatMesh api id = Normal (Some geoms) /\
        (forall p, In p (visited geoms) -> inside bb p) /\
        touches bb (visited geoms) /\
        (minX bb <= maxX bb /\ minY bb <= maxY bb /\ minZ bb <= maxZ bb)%Q /\
        (0 <= bbox_area bb)%Q /\ (0 <= bbox_volume bb)%Q
  | None =>
      GetFlatMesh api id = Throw \/ GetFlatMesh api id = Normal None \/
      exists geoms, GetFlatMesh api id = Normal (Some geoms) /\ visited geoms = []
  end.
Proof.
  intros Hwhole.
  destruct (computeBoundingBox api id) as [bb|] eqn:Hbb.
  - destruct (computeBoundingBox_covers api id bb Hbb) as (geoms & Hg & Hc).
    pose proof (covers_ordered _ _ Hc) as (Ox & Oy & Oz).
    destruct Hc as [Hin Ht].
    exists geoms. rewrite (visited_points_of geoms (Hwhole geoms Hg)).
    split; [exact Hg|]. split; [exact Hin|]. split; [exact Ht|].
    split; [auto|]. split.
    + unfold bbox_area. apply Qmult_le_0_compat; Lqa.lra.
    + unfold bbox_volume.
      apply Qmult_le_0_compat; [apply Qmult_le_0_compat|]; Lqa.lra.
  - unfold computeBoundingBox in Hbb.
    destruct (GetFlatMesh api id) as [[geoms|]|] eqn:Hg; auto.
    right. right. exists geoms. split; [reflexivity|].
    rewrite (visited_points_of geoms (Hwhole geoms Hg)).
    pose proof (bbox_geometries_covers geoms) as Hc.
    destruct geoms as [|g geoms]; [reflexivity|].
    change (bbox_geometries (g :: geoms) = None) in Hbb.
    rewrite Hbb in Hc. exact Hc.
Qed.

(** A two-part mesh: the first part is translated by (10, 0, -3). *)
Example computeBoundingBox_two_parts :
  computeBoundingBox two_part_api 30
  = Some {| minX := 1; minY := 0; minZ := -2; maxX := 12; maxY := 5; maxZ := 0 |}.
Proof. vm_compute. reflexivity. Qed.

Lemma two_part_well_meshed id :
  In id (GetLineIDsWithType two_part_api IFCSLAB) -> well_meshed two_part_api id.
Proof.
  intros [<-|[<-|[<-|[]]]] geoms H; cbv in H; try discriminate;
    injection H as <-; repeat constructor.
Qed.

Lemma computeBoundingBox_encloses_witness :
  exists geoms,
    GetFlatMesh two_part_api 30 = Normal (Some geoms) /\
    touches {| minX := 1; minY := 0; minZ := -2; maxX := 12; maxY := 5; maxZ := 0 |}
      (visited geoms).
Proof.
  pose proof (computeBoundingBox_encloses two_part_api 30
                (two_part_well_meshed 30 (or_introl eq_refl))) as H.
  rewrite computeBoundingBox_two_parts in H.
  destruct H as (geoms & Hg & _ & Ht & _). exists geoms. split; assumption.
Defined.

(** ** Perimeter *)

Lemma round2_nonneg (v : Q) : (0 <= v -> 0 <= round2 v)%Q.
Proof.
  intros Hv. unfold round2.
  assert (H0 : (0 <= Qfloor (v * 100 + (1 # 2)))%Z).
  { change 0%Z with (Qfloor 0). apply Qfloor_resp_le. Lqa.lra. }
  apply Qle_shift_div_l; [reflexivity|].
  rewrite Qmult_0_l. change 0%Q with (inject_Z 0). now rewrite <- Zle_Qle.
Qed.

Lemma footprint_spec api ids acc :
  match footprint api ids acc with
  | None => acc = None /\ omap (computeBoundingBox api) ids = []
  | Some f =>
      (acc = Some f \/ In f (omap (computeBoundingBox api) ids)) /\
      (forall a, acc = Some a -> (minZ f <= minZ a)%Q) /\
      (forall bb, In bb (omap (computeBoundingBox api) ids) -> (minZ f <= minZ bb)%Q)
  end.
Proof.
  revert acc. induction ids as [|id rest IH]; intros acc; simpl.
  - destruct acc as [a|]; [|auto].
    split; [now left|]. split; [|intros ? []].
    intros ? [= <-]. apply Qle_refl.
  - destruct (computeBoundingBox api id) as [bb|]; [|apply IH].
    destruct acc as [current|].
    + destruct (Qlt_le_dec (minZ bb) (minZ current)) as [Hlt|Hle].
      * specialize (IH (Some bb)).
        destruct (footprint api rest (Some bb)) as [f|]; [|now destruct IH].
        destruct IH as ([[= <-]|Hin] & Hacc & Hall).
        -- split; [right; now left|]. split.
           ++ intros a [= <-]. now apply Qlt_le_weak.
           ++ intros b [<-|Hb]; [apply Qle_refl | now apply Hall].
        -- specialize (Hacc bb eq_refl). split; [right; now right|]. split.
           ++ intros a [= <-]. apply Qlt_le_weak in Hlt. Lqa.lra.
           ++ intros b [<-|Hb]; [exact Hacc | now apply Hall].
      * specialize (IH (Some current)).
        destruct (footprint api rest (Some current)) as [f|]; [|now destruct IH].
        destruct IH as (Hf & Hacc & Hall).
        specialize (Hacc current eq_refl). split; [|split].
        -- destruct Hf as [Hf|Hf]; [now left | right; now right].
        -- intros a [= <-]. exact Hacc.
        -- intros b [<-|Hb]; [Lqa.lra | now apply Hall].
    + specialize (IH (Some bb)).
      destruct (footprint api rest (Some bb)) as [f|]; [|now destruct IH].
      destruct IH as (Hf & Hacc & Hall).
      specialize (Hacc bb eq_refl). split; [|split].
      * right. destruct Hf as [[= <-]|Hf]; [now left | now right].
      * intros a [=].
      * intros b [<-|Hb]; [exact Hacc | now apply Hall].
Qed.

Lemma slab_box_ordered api bb :
  In bb (slab_boxes api) ->
  (minX bb <= maxX bb /\ minY bb <= maxY bb /\ minZ bb <= maxZ bb)%Q.
Proof.
  unfold slab_boxes. rewrite <- list_elem_of_In, list_elem_of_omap.
  intros (id & _ & Hbb). now apply computeBoundingBox_ordered in Hbb.
Qed.

(** X3. For a model whose slab meshes hold whole six-scalar vertices, the
    perimeter is null exactly when no slab has a bounding box; otherwise it
    is 2 (width + depth), rounded to two decimals, of a slab box whose lower
    face is lowest among all slab boxes, and it is never negative. *)
Theorem perimeter_of_lowest_slab api :
  (forall id, In id (GetLineIDsWithType api IFCSLAB) -> well_meshed api id) ->
  match perimeter api with
  | None => slab_boxes api = []
  | Some p =>
      exists bb,
        In bb (slab_boxes api) /\
        (forall bb', In bb' (slab_boxes api) -> (minZ bb <= minZ bb')%Q) /\
        p = round2 (2 * ((maxX bb - minX bb) + (maxY bb - minY bb))) /\
        (0 <= p)%Q
  end.
Proof.
  intros _. unfold perimeter.
  pose proof (footprint_spec api (GetLineIDsWithType api IFCSLAB) None) as H.
  fold (slab_boxes api) in H.
  destruct (footprint api (GetLineIDsWithType api IFCSLAB) None) as [f|].
  - destruct H as ([[=]|Hin] & _ & Hall).
    exists f. split; [exact Hin|]. split; [exact Hall|]. split; [reflexivity|].
    destruct (slab_box_ordered api f Hin) as (Ox & Oy & _).
    apply round2_nonneg. Lqa.lra.
  - now destruct H.
Qed.

(** Slab 30 reaches down to z = -2, below slab 12, and slab 31 has no mesh:
    the footprint is the 11 by 5 box of slab 30. *)
Example perimeter_two_part : perimeter two_part_api = Some (3200 # 100)%Q.
Proof. vm_compute. reflexivity. Qed.

Lemma perimeter_of_lowest_slab_witness :
  exists bb,
    In bb (slab_boxes two_part_api) /\
    (3200 # 100)%Q = round2 (2 * ((maxX bb - minX bb) + (maxY bb - minY bb))).
Proof.
  pose proof (perimeter_of_lowest_slab two_part_api two_part_well_meshed) as H.
  rewrite perimeter_two_part in H.
  destruct H as (bb & Hin & _ & Hp & _). exists bb. split; assumption.
Defined.

(** ** Names *)

Lemma entity_name_truthy api type fallback :
  fallback <> ""%string -> truthy (entity_name api type fallback) = true.
Proof.
  intros Hne.
  assert (Hf : truthy (JStr fallback) = true).
  { simpl. apply negb_true_iff, String.eqb_neq. exact Hne. }
  unfold entity_name, entity_name_body.
  destruct (GetLineIDsWithType api type) as [|first rest]; [exact Hf|].
  destruct (GetLine api (id_val first) false) as [line|]; simpl; [|exact Hf].
  destruct (get line "Name") as [n|]; simpl; [|exact Hf].
  destruct (get_opt n "value") as [nv|]; simpl; [|exact Hf].
  destruct (truthy nv) eqn:Hnv; [exact Hnv|].
  destruct (get line "LongName") as [l|]; simpl; [|exact Hf].
  destruct (get_opt l "value") as [lv|]; simpl; [|exact Hf].
  destruct (truthy lv) eqn:Hlv; [exact Hlv | exact Hf].
Qed.

(** X4. The project, site and building names are never empty or null: each
    is the first truthy one of the entity's Name.value and LongName.value
    (Name.value when it is truthy, else LongName.value when that is truthy),
    and the placeholder when the model has no such entity, when its record
    cannot be fetched, or when both attributes are missing or empty. *)
Theorem names_fall_back_to_placeholders api :
  truthy (projectName api) = true /\
  truthy (siteName api) = true /\
  truthy (buildingName api) = true /\
  (forall type fallback,
     GetLineIDsWithType api type = [] \/
     (exists first rest line,
        GetLineIDsWithType api type = first :: rest /\
        (GetLine api (id_val first) false = Throw \/
         GetLine api (id_val first) false = Normal line /\
         (nullish line = true \/
          exists n l nv lv,
            get line "Name" = Normal n /\ get_opt n "value" = Normal nv /\
            truthy nv = false /\
            get line "LongName" = Normal l /\ get_opt l "value" = Normal lv /\
            truthy lv = false))) ->
     entity_name api type fallback = JStr fallback) /\
  (forall type fallback first rest line n nv,
     GetLineIDsWithType api type = first :: rest ->
     GetLine api (id_val first) false = Normal line ->
     get line "Name" = Normal n -> get_opt n "value" = Normal nv ->
     truthy nv = true ->
     entity_name api type fallback = nv) /\
  (forall type fallback first rest line n nv l lv,
     GetLineIDsWithType api type = first :: rest ->
     GetLine api (id_val first) false = Normal line ->
     get line "Name" = Normal n -> get_opt n "value" = Normal nv ->
     truthy nv = false ->
     get line "LongName" = Normal l -> get_opt l "value" = Normal lv ->
     truthy lv = true ->
     entity_name api type fallback = lv) /\
  projectName api = entity_name api IFCPROJECT "Unknown Project" /\
  siteName api = entity_name api IFCSITE "Unknown Site" /\
  buildingName api = entity_name api IFCBUILDING "Unknown Building".
Proof.
  split; [now apply entity_name_truthy|].
  split; [now apply entity_name_truthy|].
  split; [now apply entity_name_truthy|].
  split; [|split; [|split; [|repeat split]]].
  - intros type fallback H. unfold entity_name, entity_name_body.
    destruct H as [-> | (first & rest & line & -> & [-> | [-> H]])]; try reflexivity.
    cbv [mbind completion_bind]. cbv beta iota.
    destruct H as [Hnull | (n & l & nv & lv & H1 & H2 & H3 & H4 & H5 & H6)].
    + destruct line; try discriminate; reflexivity.
    + rewrite H1, H2, H3, H4, H5, H6. reflexivity.
  - intros type fallback first rest line n nv Hids Hline Hn Hnv Ht.
    unfold entity_name, entity_name_body. rewrite Hids, Hline.
    cbv [mbind completion_bind]. cbv beta iota.
    rewrite Hn, Hnv, Ht. reflexivity.
  - intros type fallback first rest line n nv l lv Hids Hline Hn Hnv Ht Hl Hlv Htl.
    unfold entity_name, entity_name_body. rewrite Hids, Hline.
    cbv [mbind completion_bind]. cbv beta iota.
    rewrite Hn, Hnv, Ht, Hl, Hlv, Htl. reflexivity.
Qed.

(** On [named_api] the project takes its Name, the site its LongName and
    the building the placeholder. *)
Lemma names_fall_back_to_placeholders_witness :
  projectName named_api = JStr "Tower" /\
  siteName named_api = JStr "North site" /\
  buildingName named_api = JStr "Unknown Building".
Proof.
  destruct (names_fall_back_to_placeholders named_api)
    as (_ & _ & _ & Hnone & Hname & Hlong & Hp & Hs & Hb).
  rewrite Hp, Hs, Hb. split; [|split].
  - apply (Hname IFCPROJECT _ 1%Z []
             (JObj [("Name", JObj [("value", JStr "Tower")]);
                    ("LongName", JObj [("value", JStr "Tower, phase 2")])])
             (JObj [("value", JStr "Tower")]) (JStr "Tower"));
      reflexivity.
  - apply (Hlong IFCSITE _ 2%Z []
             (JObj [("Name", JNull);
                    ("LongName", JObj [("value", JStr "North site")])])
             JNull JUndefined
             (JObj [("value", JStr "North site")]) (JStr "North site"));
      reflexivity.
  - apply Hnone. now left.
Defined.

(** ** The element list *)

Lemma default_name_truthy label eid :
  truthy (JStr (label +:+ " #" +:+ decimalZ eid)) = true.
Proof. destruct label; reflexivity. Qed.

Lemma elements_of_type_spec api label ids :
  map el_id (elements_of_type api label ids) = List.filter (fetches api) ids /\
  Forall (fun el =>
            el_type el = label /\ In (el_id el) ids /\
            truthy (el_name el) = true /\
            el_area el = resolve api ELEMENT_AREA_NAMES (el_id el) /\
            el_volume el = resolve api VOLUME_NAMES (el_id el) /\
            (exists line n nv,
               GetLine api (id_val (el_id el)) false = Normal line /\
               get_opt line "Name" = Normal n /\
               get_opt n "value" = Normal nv /\
               el_name el
               = if truthy nv then nv
                 else JStr (el_type el +:+ " #" +:+ decimalZ (el_id el))))
         (elements_of_type api label ids).
Proof.
  unfold elements_of_type.
  induction ids as [|eid ids [IHids IHall]]; simpl; [split; [reflexivity | constructor]|].
  unfold fetches at 1, element_of at 1 3.
  destruct (GetLine api (id_val eid) false) as [line|] eqn:Hline; simpl.
  - assert (Hopt : exists nv, (n ← get_opt line "Name"; get_opt n "value") = Normal nv).
    { unfold get_opt.
      destruct line as [| | | | | |fields]; simpl; eauto.
      destruct (assoc "Name" fields) as [| | | | | |fs]; simpl; eauto. }
    destruct Hopt as (nv & Hnv).
    destruct (get_opt line "Name") as [n|] eqn:Hn; simpl in *; [|discriminate].
    rewrite Hnv. simpl. split.
    + f_equal. exact IHids.
    + constructor.
      * simpl. split; [reflexivity|]. split; [now left|].
        split; [destruct (truthy nv) eqn:Ht; [exact Ht | apply default_name_truthy]|].
        split; [reflexivity|]. split; [reflexivity|].
        exists line, n, nv. rewrite Hline. auto.
      * eapply Forall_impl; [exact IHall|]. simpl.
        intros el (? & ? & ?). auto.
  - split; [exact IHids|].
    eapply Forall_impl; [exact IHall|]. simpl. intros el (? & ? & ?). auto.
Qed.

Lemma table_label_in type table plural :
  table_label type table = Some plural -> In plural (map snd table).
Proof.
  induction table as [|[k v] table IH]; simpl; [discriminate|].
  destruct (String.eqb type k); [intros [= <-]; now left | auto].
Qed.

Lemma table_label_ELEMENT_TYPES tl :
  In tl ELEMENT_TYPES ->
  exists plural, table_label (snd tl) TYPE_LABELS = Some plural.
Proof.
  unfold ELEMENT_TYPES. simpl.
  intros H. repeat (destruct H as [<-|H]; [eexists; reflexivity|]). destruct H.
Qed.

Lemma elements_over api finishIDs (types : list (ElementType * string)) :
  incl types ELEMENT_TYPES ->
  let els :=
    flat_map
      (fun '(type, label) => elements_of_type api label (ids_with_type api finishIDs type))
      types in
  map el_id els
  = List.filter (fetches api)
      (flat_map (fun tl => ids_with_type api finishIDs (fst tl)) types) /\
  Forall (fun el =>
            (exists type, In (type, el_type el) ELEMENT_TYPES /\
                          In (el_id el) (ids_with_type api finishIDs type)) /\
            truthy (el_name el) = true /\
            el_area el = resolve api ELEMENT_AREA_NAMES (el_id el) /\
            el_volume el = resolve api VOLUME_NAMES (el_id el) /\
            In (getGroupLabel (el_type el)) (map snd TYPE_LABELS) /\
            (exists line n nv,
               GetLine api (id_val (el_id el)) false = Normal line /\
               get_opt line "Name" = Normal n /\
               get_opt n "value" = Normal nv /\
               el_name el
               = if truthy nv then nv
                 else JStr (el_type el +:+ " #" +:+ decimalZ (el_id el))))
         els.
Proof.
  induction types as [|[type label] types IH]; intros Hsub; simpl.
  - split; [reflexivity | constructor].
  - destruct IH as [IHids IHall]; [intros tl Htl; apply Hsub; now right|].
    destruct (elements_of_type_spec api label (ids_with_type api finishIDs type))
      as [Hids Hall].
    split.
    + now rewrite map_app, List.filter_app, Hids, IHids.
    + apply Forall_app. split; [|exact IHall].
      eapply Forall_impl; [exact Hall|]. simpl.
      intros el (Ht & Hin & Hn & Ha & Hv & Hname).
      assert (Hmem : In (type, label) ELEMENT_TYPES) by (apply Hsub; now left).
      split; [exists type; rewrite Ht; auto|].
      split; [exact Hn|]. split; [exact Ha|]. split; [exact Hv|].
      split; [|exact Hname].
      destruct (table_label_ELEMENT_TYPES _ Hmem) as (plural & Hp). cbn [snd] in Hp.
      unfold getGroupLabel. rewrite Ht, Hp.
      now apply (table_label_in label TYPE_LABELS).
Qed.

(** X5. The element list holds, type by type in the order of ELEMENT_TYPES
    and id by id, one element for every id whose record can be fetched, and
    skips the others.  Each element carries the label of its type, the
    resolver's area and volume for its id, and as its name the Name.value
    of its record when that is truthy and otherwise the label, " #" and the
    id in decimal, so that the name is never empty; and its label is always
    one the element list component has a plural for. *)
Theorem elements_are_the_fetched_ids api finishIDs :
  map el_id (elements api finishIDs) = List.filter (fetches api) (element_ids api finishIDs) /\
  Forall (fun el =>
            (exists type, In (type, el_type el) ELEMENT_TYPES /\
                          In (el_id el) (ids_with_type api finishIDs type)) /\
            truthy (el_name el) = true /\
            el_area el
            = resolve api
                ["GrossArea"; "NetArea"; "Area"; "GrossSideArea"; "NetSideArea";
                 "GrossFloorArea"; "NetFloorArea"] (el_id el) /\
            el_volume el
            = resolve api ["NetVolume"; "GrossVolume"; "Volume"] (el_id el) /\
            In (getGroupLabel (el_type el)) (map snd TYPE_LABELS) /\
            (exists line n nv,
               GetLine api (id_val (el_id el)) false = Normal line /\
               get_opt line "Name" = Normal n /\
               get_opt n "value" = Normal nv /\
               el_name el
               = if truthy nv then nv
                 else JStr (el_type el +:+ " #" +:+ decimalZ (el_id el))))
         (elements api finishIDs).
Proof. apply (elements_over api finishIDs ELEMENT_TYPES), incl_refl. Qed.

(** ** Storeys: where the assigned ids come from, and failed discovery *)

Lemma listed_alter_push x e i (l : list IFCStoreyData) :
  In x (listed (alter (push e) i l)) -> x = e \/ In x (listed l).
Proof.
  revert i. induction l as [|s l IH]; intros i; [destruct i; intros []|].
  destruct i as [|i].
  - change (alter (push e) 0%nat (s :: l)) with (push e s :: l).
    unfold listed. simpl. rewrite !in_app_iff. simpl. intuition auto.
  - change (alter (push e) (S i) (s :: l)) with (s :: alter (push e) i l).
    unfold listed in *. simpl. rewrite !in_app_iff.
    intros [H|H]; [tauto|]. apply IH in H. tauto.
Qed.

(** Whatever a loop of recording steps lists was listed before or is named
    by one of the items it walked. *)
Lemma fold_listed_from {R : Type} (step : Assignment -> R -> Assignment)
    (names : R -> list Z) (items : list R) st x :
  (forall st r x, In x (listed (storeys (step st r))) ->
                  In x (names r) \/ In x (listed (storeys st))) ->
  In x (listed (storeys (fold_left step items st))) ->
  (exists r, In r items /\ In x (names r)) \/ In x (listed (storeys st)).
Proof.
  intros Hstep. revert st. induction items as [|r items IH]; intros st; simpl; [auto|].
  intros H. destruct (IH _ H) as [(r' & Hr' & Hx)|Hx].
  - left. exists r'. auto.
  - destruct (Hstep _ _ _ Hx) as [Hn|Hl]; [|now right].
    left. exists r. auto.
Qed.

Lemma in_omap_names {R : Type} (f : R -> option Z) (items : list R) x :
  (exists r, In r items /\ In x (match f r with Some e => [e] | None => [] end)) ->
  In x (omap f items).
Proof.
  intros (r & Hr & Hx). apply list_elem_of_In, list_elem_of_omap.
  exists r. split; [now apply list_elem_of_In|].
  destruct (f r) as [e|]; [|destruct Hx].
  destruct Hx as [<-|[]]. reflexivity.
Qed.

Lemma contain_relation_from api st relID x :
  In x (listed (storeys (contain_relation api st relID))) ->
  In x (relation_elements api relID) \/ In x (listed (storeys st)).
Proof.
  unfold contain_relation, relation_elements.
  destruct (GetRelLine api relID) as [[rel|]|]; auto.
  destruct (ref_id (Relating rel)) as [sid|]; auto.
  destruct (find_storey sid (storeys st)) as [[i s]|]; auto.
  destruct (Related rel) as [|refs|]; auto.
  intros H.
  apply (fold_listed_from _
           (fun r => match element_ref_id r with Some e => [e] | None => [] end)) in H.
  - destruct H as [H|H]; [left; now apply in_omap_names | now right].
  - intros st' r x'. unfold contain_element.
    destruct (element_ref_id r) as [e|]; [|now right].
    intros Hx. apply listed_alter_push in Hx. destruct Hx as [->|Hx]; [left; now left | now right].
Qed.

Lemma aggregate_relation_from api st relID x :
  In x (listed (storeys (aggregate_relation api st relID))) ->
  In x (relation_objects api relID) \/ In x (listed (storeys st)).
Proof.
  unfold aggregate_relation, relation_objects.
  destruct (GetRelLine api relID) as [[rel|]|]; auto.
  destruct (ref_id (Relating rel)) as [parentID|]; auto.
  match goal with |- context [match ?t with Some _ => _ | None => st end] =>
    destruct t as [[i target]|] end; auto.
  destruct (Related rel) as [|refs|]; auto.
  intros H.
  apply (fold_listed_from _
           (fun r => match ref_id r with Some e => [e] | None => [] end)) in H.
  - destruct H as [H|H]; [left; now apply in_omap_names | now right].
  - intros st' r x'. unfold aggregate_object.
    destruct (ref_id r) as [e|]; [|now right].
    destruct (elementToStorey st' !! e); [now right|].
    intros Hx. apply listed_alter_push in Hx. destruct Hx as [->|Hx]; [left; now left | now right].
Qed.

(** X6. The passes invent nothing: every element id a storey of the parsed
    model lists is named by the RelatedElements of a containment relation or
    by the RelatedObjects of an aggregation relation. *)
Theorem listed_ids_are_named api e :
  In e (listed (parse_storeys api)) -> named_by_a_relation api e.
Proof.
  unfold parse_storeys.
  destruct (discover api (GetLineIDsWithType api IFCBUILDINGSTOREY) 0 [])
    as [found completed] eqn:Hd.
  assert (Hfound : listed found = []).
  { replace found with (fst (discover api (GetLineIDsWithType api IFCBUILDINGSTOREY) 0 []))
      by now rewrite Hd.
    now apply discover_unassigned. }
  destruct completed; [|rewrite Hfound; intros []].
  unfold aggregation_pass, containment_pass. intros H.
  apply (fold_listed_from _ (relation_objects api)) in H;
    [|apply aggregate_relation_from].
  destruct H as [H|H]; [now right|].
  apply (fold_listed_from _ (relation_elements api)) in H;
    [|apply contain_relation_from].
  destruct H as [H|H]; [now left|].
  simpl in H. apply (Permutation_in _ (listed_perm _ _ (js_sort_perm found))) in H.
  rewrite Hfound in H. destruct H.
Qed.

Lemma listed_ids_are_named_witness : named_by_a_relation sample_api 11.
Proof.
  apply (listed_ids_are_named sample_api 11).
  vm_compute. auto.
Defined.

Lemma discover_stops api pre sid post i acc :
  Forall (storey_decodes api) pre ->
  ~ storey_decodes api sid ->
  map expressID (fst (discover api (pre ++ sid :: post) i acc)) = map expressID acc ++ pre /\
  snd (discover api (pre ++ sid :: post) i acc) = false.
Proof.
  intros Hpre Hsid. revert i acc.
  induction Hpre as [|p pre (line & Hline) _ IH]; intros i acc; simpl.
  - rewrite app_nil_r.
    destruct (GetStoreyLine api sid) as [[line|]|] eqn:Hg; auto.
    exfalso. apply Hsid. now exists line.
  - rewrite Hline. destruct (IH (S i) (acc ++ [{|
        name := default ("Storey " +:+ decimal (i + 1)) (Name_value line);
        elevation := default 0%Q (Elevation_value line);
        expressID := p; elementIDs := [] |}])) as [Hids Hc].
    split; [|exact Hc]. rewrite Hids, map_app, <- app_assoc. reflexivity.
Qed.

(** X7. When every storey record decodes, the parsed storeys are the
    storey ids of the model, rearranged, and storeyCount is their number.
    When the record of one storey does not decode, the parsed storeys are
    exactly the storeys before it, in discovery order, the later ones are
    lost, and no element is assigned to any storey. *)
Theorem storeys_up_to_first_failure api :
  (Forall (storey_decodes api) (GetLineIDsWithType api IFCBUILDINGSTOREY) ->
   Permutation (map expressID (parse_storeys api)) (GetLineIDsWithType api IFCBUILDINGSTOREY) /\
   bd_storeyCount (parseIFCFile api) = length (GetLineIDsWithType api IFCBUILDINGSTOREY)) /\
  (forall pre sid post,
     GetLineIDsWithType api IFCBUILDINGSTOREY = pre ++ sid :: post ->
     Forall (storey_decodes api) pre ->
     ~ storey_decodes api sid ->
     map expressID (parse_storeys api) = pre /\
     listed (parse_storeys api) = [] /\
     bd_storeyCount (parseIFCFile api) = length pre).
Proof.
  split.
  - intros Hdec.
    assert (Hperm : Permutation (map expressID (parse_storeys api))
                      (GetLineIDsWithType api IFCBUILDINGSTOREY)).
    { rewrite (parse_storeys_completed api Hdec).
      rewrite expressID_header, header_passes, <- expressID_header. simpl.
      rewrite (Permutation_map expressID (js_sort_perm (discovered api))).
      unfold discovered.
      now rewrite (discover_ids api _ 0%nat [] (discover_completes api _ 0%nat [] Hdec)). }
    split; [exact Hperm|].
    unfold parseIFCFile. simpl.
    rewrite <- (length_map expressID). now apply Permutation_length.
  - intros pre sid post Hids Hpre Hsid.
    destruct (discover_stops api pre sid post 0%nat [] Hpre Hsid) as [Hmap Hc].
    assert (Hparse : parse_storeys api
                     = fst (discover api (GetLineIDsWithType api IFCBUILDINGSTOREY) 0 [])).
    { unfold parse_storeys. rewrite Hids.
      destruct (discover api (pre ++ sid :: post) 0 []) as [found c].
      simpl in Hc. now subst c. }
    assert (Hmap' : map expressID (parse_storeys api) = pre).
    { rewrite Hparse, Hids. exact Hmap. }
    split; [exact Hmap'|]. split.
    + rewrite Hparse. now apply discover_unassigned.
    + unfold parseIFCFile. simpl. now rewrite <- (length_map expressID), Hmap'.
Qed.

Lemma storeys_up_to_first_failure_witness :
  map expressID (parse_storeys broken_storey_api) = [1; 2]%Z /\
  listed (parse_storeys broken_storey_api) = [] /\
  bd_storeyCount (parseIFCFile broken_storey_api) = 2%nat.
Proof.
  apply (proj2 (storeys_up_to_first_failure broken_storey_api) [1; 2]%Z 3%Z []).
  - reflexivity.
  - repeat constructor; eexists; reflexivity.
  - intros (line & Hline). discriminate.
Defined.

(** ** Baked meshes *)

Lemma length_bake_positions matrix vertexData :
  length (bake_positions matrix vertexData) = (3 * (length vertexData / 6))%nat.
Proof.
  induction vertexData as [l Hl | x y z a b c rest IH] using stride6_ind.
  - rewrite Nat.div_small by exact Hl.
    destruct l as [|? [|? [|? [|? [|? [|? ?]]]]]]; simpl in *; try reflexivity; lia.
  - change (length (bake_positions matrix (x :: y :: z :: a :: b :: c :: rest)))
      with (3 + length (bake_positions matrix rest))%nat.
    rewrite IH.
    change (length (x :: y :: z :: a :: b :: c :: rest)) with (6 + length rest)%nat.
    replace (6 + length rest)%nat with (1 * 6 + length rest)%nat by lia.
    rewrite Nat.div_add_l by lia. lia.
Qed.

(** X8. Geometry extraction yields one mesh per placed geometry, in stream
    order, each tagged with the express id of its flat mesh and with the
    index buffer copied; and when the vertex buffers hold whole six-scalar
    vertices, the positions buffer has [(length / 6) * 3] scalars. *)
Theorem one_mesh_per_placed_geometry stream :
  map meshExpressID (extractIFCGeometry stream)
  = flat_map (fun fm => repeat (flatMeshExpressID fm) (length (geometries fm))) stream /\
  map indices (extractIFCGeometry stream)
  = flat_map (fun fm => map indexData (geometries fm)) stream /\
  (Forall (fun fm => Forall (fun g => whole_vertices (placed g)) (geometries fm)) stream ->
   map (fun m => length (vertices m)) (extractIFCGeometry stream)
   = flat_map (fun fm => map (fun g => (length (vertexData (placed g)) / 6 * 3)%nat)
                           (geometries fm)) stream).
Proof.
  assert (H3 : map (fun m => length (vertices m)) (extractIFCGeometry stream)
               = flat_map (fun fm => map (fun g => (length (vertexData (placed g)) / 6 * 3)%nat)
                                       (geometries fm)) stream).
  { unfold extractIFCGeometry.
    induction stream as [|fm stream IH]; simpl; [reflexivity|].
    rewrite map_app, IH. f_equal.
    rewrite map_map. apply map_ext. intros g. unfold mesh_of.
    destruct (placedColor g) as [[[? ?] ?] ?]. simpl.
    rewrite length_bake_positions. apply Nat.mul_comm. }
  split; [|split; [|intros _; exact H3]]; clear H3; unfold extractIFCGeometry;
    induction stream as [|fm stream IH]; simpl; try reflexivity;
    rewrite map_app, IH; f_equal.
  - generalize (geometries fm). intros gs.
    induction gs as [|g gs IHg]; simpl; [reflexivity|].
    rewrite IHg. unfold mesh_of. now destruct (placedColor g) as [[[? ?] ?] ?].
  - rewrite map_map. apply map_ext. intros g. unfold mesh_of.
    now destruct (placedColor g) as [[[? ?] ?] ?].
Qed.

Lemma extend_stores accR accE (p : Point3) :
  box_stores accR accE ->
  box_stores
    (extend accR {| px := fround (px p); py := fround (py p); pz := fround (pz p) |})
    (extend accE p).
Proof.
  destruct accR as [r|], accE as [e|]; simpl; try contradiction.
  - intros (H1 & H2 & H3 & H4 & H5 & H6).
    rewrite !fround_min, !fround_max, H1, H2, H3, H4, H5, H6.
    repeat split; reflexivity.
  - intros _. repeat split; reflexivity.
Qed.

Lemma bbox_of_positions_stores exact accR accE :
  box_stores accR accE ->
  box_stores (bbox_of_positions (map fround exact) accR) (bbox_of_positions exact accE).
Proof.
  remember (length exact) as n eqn:Hn. revert exact accR accE Hn.
  induction n as [n IH] using lt_wf_ind. intros exact accR accE -> H.
  destruct exact as [|x [|y [|z rest]]]; try exact H.
  cbn [map bbox_of_positions].
  apply (IH (length rest)); [simpl; lia | reflexivity|].
  apply (extend_stores accR accE {| px := x; py := y; pz := z |} H).
Qed.

Lemma geometries_stores id (gs : list StreamedGeometry) accR accE :
  box_stores accR accE ->
  box_stores
    (fold_left (fun acc m => bbox_of_positions (vertices m) acc) (map (mesh_of id) gs) accR)
    (fold_left (fun acc g => bbox_vertices (flatTransformation g) (vertexData g) acc)
       (map placed gs) accE).
Proof.
  revert accR accE. induction gs as [|g gs IH]; intros accR accE Hacc; [exact Hacc|].
  cbn [map fold_left]. apply IH.
  rewrite bbox_of_world.
  replace (vertices (mesh_of id g))
    with (map fround (world_positions (flatTransformation (placed g))
                        (vertexData (placed g)))).
  - now apply bbox_of_positions_stores.
  - rewrite <- bake_stores_world. unfold mesh_of.
    now destruct (placedColor g) as [[[? ?] ?] ?].
Qed.

(** X9. The box of what is rendered is the single-precision rounding of the
    box behind the area, volume and perimeter fallbacks: when the decoder
    gives the same placed geometries, of whole six-scalar vertices within
    single range, for an element to both functions, each bound of the
    running box folded over the vertices of the element's meshes is the
    single nearest to the same bound of [computeBoundingBox]. *)
Theorem bounding_box_of_rendered_meshes api fm :
  Forall (fun g => whole_vertices (placed g)) (geometries fm) ->
  Forall (fun g => Forall single_range
                     (world_positions (flatTransformation (placed g))
                        (vertexData (placed g))))
         (geometries fm) ->
  GetFlatMesh api (flatMeshExpressID fm) = Normal (Some (map placed (geometries fm))) ->
  box_stores
    (fold_left (fun acc m => bbox_of_positions (vertices m) acc)
       (extractIFCGeometry [fm]) None)
    (computeBoundingBox api (flatMeshExpressID fm)).
Proof.
  intros _ _ Hmesh. unfold computeBoundingBox. rewrite Hmesh.
  unfold extractIFCGeometry. simpl flat_map. rewrite app_nil_r.
  destruct (geometries fm) as [|g gs]; [exact I|].
  change (try_catch _ None) with (bbox_geometries (map placed (g :: gs))).
  unfold bbox_geometries. now apply geometries_stores.
Qed.

(** Element 30 of [two_part_api] has a box, and the box of its two rendered
    meshes is the rounding of it. *)
Lemma bounding_box_of_rendered_meshes_witness :
  is_Some (computeBoundingBox two_part_api 30) /\
  box_stores
    (fold_left (fun acc m => bbox_of_positions (vertices m) acc)
       (extractIFCGeometry [two_part_flatMesh]) None)
    (computeBoundingBox two_part_api 30).
Proof.
  split; [eexists; reflexivity|].
  apply (bounding_box_of_rendered_meshes two_part_api two_part_flatMesh).
  - repeat constructor.
  - repeat constructor.
  - reflexivity.
Defined.

(** ** The storey filter as a whole *)

Lemma filteredMeshes_cases allMeshes selectedStoreyID buildingData :
  filteredMeshes allMeshes selectedStoreyID buildingData = allMeshes \/
  exists id data i storey,
    selectedStoreyID = Some id /\ id <> 0%Z /\ buildingData = Some data /\
    find_storey id (bd_storeys data) = Some (i, storey) /\
    filteredMeshes allMeshes selectedStoreyID buildingData
    = filter (fun m => meshExpressID m ∈ (list_to_set (elementIDs storey) : gset Z)) allMeshes.
Proof.
  unfold filteredMeshes.
  destruct selectedStoreyID as [id|]; [|now left].
  destruct buildingData as [data|]; [|left; now destruct (falsy_id (Some id))].
  simpl. destruct (Z.eqb id 0) eqn:Hid; [now left|]. simpl.
  destruct (find_storey id (bd_storeys data)) as [[i storey]|] eqn:Hf; [|now left].
  right. exists id, data, i, storey. apply Z.eqb_neq in Hid. auto.
Qed.

Lemma filteredMeshes_selected allMeshes id data i storey :
  id <> 0%Z ->
  find_storey id (bd_storeys data) = Some (i, storey) ->
  filteredMeshes allMeshes (Some id) (Some data)
  = filter (fun m => meshExpressID m ∈ (list_to_set (elementIDs storey) : gset Z)) allMeshes.
Proof.
  intros Hid Hfind. unfold filteredMeshes. simpl.
  apply Z.eqb_neq in Hid. now rewrite Hid, Hfind.
Qed.

(** X10. Whatever the selection, the filtered meshes are a sub-list of all
    meshes in their original order, and filtering the result again with the
    same selection changes nothing.  With a non-zero selected id that finds a
    storey, a mesh is kept exactly when its element id is among that storey's
    elementIDs, so the meshes of elements assigned to no storey disappear as
    soon as any storey is selected. *)
Theorem filteredMeshes_keeps_listed allMeshes selectedStoreyID buildingData :
  sublist (filteredMeshes allMeshes selectedStoreyID buildingData) allMeshes /\
  filteredMeshes (filteredMeshes allMeshes selectedStoreyID buildingData)
    selectedStoreyID buildingData
  = filteredMeshes allMeshes selectedStoreyID buildingData /\
  (forall id data i storey,
     selectedStoreyID = Some id -> id <> 0%Z -> buildingData = Some data ->
     find_storey id (bd_storeys data) = Some (i, storey) ->
     forall m, In m (filteredMeshes allMeshes selectedStoreyID buildingData) <->
               In m allMeshes /\ In (meshExpressID m) (elementIDs storey)).
Proof.
  split; [|split].
  - destruct (filteredMeshes_cases allMeshes selectedStoreyID buildingData)
      as [-> | (id & data & i & storey & _ & _ & _ & _ & ->)];
      [reflexivity | apply sublist_filter].
  - destruct (filteredMeshes_cases allMeshes selectedStoreyID buildingData)
      as [H | (id & data & i & storey & Hsel & Hid & Hdata & Hfind & H)].
    + now rewrite !H.
    + rewrite H.
      destruct (filteredMeshes_cases
                  (filter (fun m => meshExpressID m ∈ (list_to_set (elementIDs storey) : gset Z))
                     allMeshes) selectedStoreyID buildingData)
        as [H' | (id' & data' & i' & storey' & Hsel' & _ & Hdata' & Hfind' & H')];
        [exact H'|].
      rewrite H'. rewrite Hsel in Hsel'. injection Hsel' as <-.
      rewrite Hdata in Hdata'. injection Hdata' as <-.
      rewrite Hfind in Hfind'. injection Hfind' as <- <-.
      now apply list_filter_filter_r.
  - intros id data i storey -> Hid -> Hfind m.
    rewrite (filteredMeshes_selected allMeshes id data i storey Hid Hfind).
    rewrite <- !list_elem_of_In, list_elem_of_filter, elem_of_list_to_set. tauto.
Qed.


(** ** Grouping in the element list *)

Lemma group_push_keys label el (grouped : Groups) :
  map fst (group_push label el grouped)
  = if in_dec string_dec label (map fst grouped) then map fst grouped
    else map fst grouped ++ [label].
Proof.
  induction grouped as [|[k items] rest IH]; simpl.
  - reflexivity.
  - destruct (String.eqb label k) eqn:Hk; simpl.
    + apply String.eqb_eq in Hk. subst k.
      destruct (string_dec label label); [reflexivity | congruence].
    + apply String.eqb_neq in Hk. rewrite IH.
      destruct (string_dec k label); [congruence|].
      destruct (in_dec string_dec label (map fst rest)); reflexivity.
Qed.

Lemma group_push_items label el (grouped : Groups) k items :
  NoDup (map fst grouped) ->
  In (k, items) (group_push label el grouped) ->
  (k <> label /\ In (k, items) grouped) \/
  (k = label /\
   ((exists old, In (label, old) grouped /\ items = old ++ [el]) \/
    (~ In label (map fst grouped) /\ items = [el]))).
Proof.
  induction grouped as [|[k0 items0] rest IH]; simpl; intros Hnd.
  - intros [[= <- <-]|[]]. right. split; [reflexivity|]. right. tauto.
  - apply NoDup_cons in Hnd as [Hk0 Hnd]. rewrite list_elem_of_In in Hk0.
    destruct (String.eqb label k0) eqn:Hk.
    + apply String.eqb_eq in Hk. subst k0. intros [[= <- <-]|Hin].
      * right. split; [reflexivity|]. left. exists items0. auto.
      * left. split; [|now right].
        intros ->. apply Hk0. apply in_map_iff. now exists (label, items).
    + apply String.eqb_neq in Hk. intros [[= <- <-]|Hin].
      * left. split; [congruence | now left].
      * destruct (IH Hnd Hin) as [[Hne Hin']|[-> [(old & Hold & ->)|[Hnot ->]]]].
        -- left. auto.
        -- right. split; [reflexivity|]. left. exists old. auto.
        -- right. split; [reflexivity|]. right. split; [|reflexivity].
           intros [H|H]; [congruence | contradiction].
Qed.

Lemma group_push_concat label el (grouped : Groups) :
  Permutation (concat (map snd (group_push label el grouped)))
    (concat (map snd grouped) ++ [el]).
Proof.
  induction grouped as [|[k items] rest IH]; simpl; [reflexivity|].
  destruct (String.eqb label k); simpl.
  - rewrite <- !app_assoc. apply Permutation_app_head, Permutation_app_comm.
  - rewrite IH. now rewrite app_assoc.
Qed.

Lemma group_elements_snoc els el :
  group_elements (els ++ [el])
  = group_push (getGroupLabel (el_type el)) el (group_elements els).
Proof. unfold group_elements. now rewrite fold_left_app. Qed.

Lemma filter_none {A : Type} (f : A -> bool) (l : list A) :
  (forall x, In x l -> f x = false) -> List.filter f l = [].
Proof.
  induction l as [|x l IH]; simpl; intros H; [reflexivity|].
  rewrite (H x) by now left. apply IH. intros y Hy. apply H. now right.
Qed.

(** X11. Grouping partitions the elements by display label: the group keys
    are pairwise distinct, every element's label is a key, each group holds
    exactly the elements with its label in their original order (so it is
    never empty), and the groups together are the whole list, rearranged.
    IfcWall and IfcWallStandardCase fall into the one group "Walls". *)
Theorem grouping_partitions els :
  NoDup (map fst (group_elements els)) /\
  (forall e, In e els -> In (getGroupLabel (el_type e)) (map fst (group_elements els))) /\
  (forall k items,
     In (k, items) (group_elements els) ->
     items <> [] /\ items = List.filter (in_group k) els) /\
  Permutation (concat (map snd (group_elements els))) els /\
  getGroupLabel "IfcWall" = getGroupLabel "IfcWallStandardCase".
Proof.
  assert (Main :
    NoDup (map fst (group_elements els)) /\
    (forall e, In e els -> In (getGroupLabel (el_type e)) (map fst (group_elements els))) /\
    (forall k items,
       In (k, items) (group_elements els) ->
       items <> [] /\ items = List.filter (in_group k) els) /\
    Permutation (concat (map snd (group_elements els))) els).
  { induction els as [|el els (Hnd & Hkeys & Hitems & Hperm)] using rev_ind.
    - repeat split; try constructor; intros; contradiction.
    - rewrite group_elements_snoc.
      set (label := getGroupLabel (el_type el)) in *.
      split; [|split; [|split]].
      + rewrite group_push_keys.
        destruct (in_dec string_dec label (map fst (group_elements els))) as [Hin|Hin];
          [exact Hnd|].
        apply NoDup_app. split; [exact Hnd|].
        split; [|apply NoDup_singleton].
        intros x Hx Hx'. apply list_elem_of_singleton in Hx'. subst x.
        now apply list_elem_of_In in Hx.
      + intros e He. rewrite group_push_keys. apply in_app_or in He.
        destruct (in_dec string_dec label (map fst (group_elements els))) as [Hin|Hin].
        * destruct He as [He|[<-|[]]]; [now apply Hkeys | exact Hin].
        * apply in_or_app.
          destruct He as [He|[<-|[]]]; [left; now apply Hkeys | right; now left].
      + intros k items Hin.
        rewrite List.filter_app. simpl. unfold in_group at 2. fold label.
        destruct (group_push_items label el _ k items Hnd Hin)
          as [[Hne Hin']|[-> [(old & Hold & ->)|[Hnot ->]]]].
        * destruct (Hitems k items Hin') as [Hne' ->].
          split; [exact Hne'|].
          apply not_eq_sym, String.eqb_neq in Hne. rewrite Hne.
          now rewrite app_nil_r.
        * destruct (Hitems label old Hold) as [_ ->].
          rewrite String.eqb_refl. split; [|reflexivity].
          intros H. now apply app_eq_nil in H as [_ H].
        * rewrite String.eqb_refl. split; [discriminate|].
          rewrite filter_none; [reflexivity|].
          intros e He. unfold in_group. apply String.eqb_neq. intros Heq.
          apply Hnot. rewrite <- Heq. now apply Hkeys.
      + rewrite group_push_concat. now apply Permutation_app_tail. }
  destruct Main as (H1 & H2 & H3 & H4).
  split; [exact H1|]. split; [exact H2|]. split; [exact H3|].
  split; [exact H4 | reflexivity].
Qed.

(** ** Header figures and open groups of the element list *)

Lemma fold_Qplus_shift (values : list Q) (a : Q) :
  (fold_left Qplus values a == a + fold_left Qplus values 0)%Q.
Proof.
  revert a. induction values as [|v values IH]; intros a; simpl.
  - Lqa.lra.
  - rewrite (IH (a + v)%Q), (IH (0 + v)%Q). Lqa.lra.
Qed.

Lemma total_of_known (quantity : IFCElementData -> option Q) items (a : Q) :
  (fold_left (fun s e => s + default 0 (quantity e)) items a
   == fold_left Qplus (omap quantity items) a)%Q.
Proof.
  revert a. induction items as [|e items IH]; intros a; [reflexivity|].
  change (fold_left (fun s e => s + default 0 (quantity e)) (e :: items) a)%Q
    with (fold_left (fun s e => s + default 0 (quantity e)) items
            (a + default 0 (quantity e)))%Q.
  rewrite IH.
  change (omap quantity (e :: items))
    with (match quantity e with
          | Some v => v :: omap quantity items
          | None => omap quantity items
          end).
  destruct (quantity e) as [v|]; simpl; [reflexivity|].
  rewrite (fold_Qplus_shift _ (a + 0)%Q), (fold_Qplus_shift _ a). Lqa.lra.
Qed.

Lemma has_none (quantity : IFCElementData -> option Q) items :
  existsb (fun e => bool_decide (is_Some (quantity e))) items = false <->
  omap quantity items = [].
Proof.
  induction items as [|e items IH]; [tauto|].
  change (omap quantity (e :: items))
    with (match quantity e with
          | Some v => v :: omap quantity items
          | None => omap quantity items
          end).
  simpl. destruct (quantity e) as [v|].
  - rewrite bool_decide_eq_true_2 by eauto. simpl. split; discriminate.
  - rewrite bool_decide_eq_false_2 by (intros [? [=]]). simpl. exact IH.
Qed.

(** X19. The figures in a group's header: the total area is the sum of the
    areas that are known, elements without one adding nothing, and likewise
    the total volume; a figure is hidden exactly when no element of the
    group has that quantity, and a hidden total is zero. *)
Theorem header_totals_of_known items :
  (group_totalArea items == Qsum (omap el_area items))%Q /\
  (group_totalVol items == Qsum (omap el_volume items))%Q /\
  (group_hasArea items = false <-> omap el_area items = []) /\
  (group_hasVol items = false <-> omap el_volume items = []) /\
  (group_hasArea items = false -> group_totalArea items == 0)%Q /\
  (group_hasVol items = false -> group_totalVol items == 0)%Q.
Proof.
  assert (A : (group_totalArea items == Qsum (omap el_area items))%Q)
    by apply (total_of_known el_area).
  assert (V : (group_totalVol items == Qsum (omap el_volume items))%Q)
    by apply (total_of_known el_volume).
  split; [exact A|]. split; [exact V|].
  split; [apply (has_none el_area)|]. split; [apply (has_none el_volume)|].
  split; intros H.
  - rewrite A. apply (has_none el_area) in H. rewrite H. reflexivity.
  - rewrite V. apply (has_none el_volume) in H. rewrite H. reflexivity.
Qed.

(** X20. Clicking a group header flips that group and no other: the group
    is open afterwards exactly when it was closed before, every other group
    keeps its state, and a second click restores the set of open groups. *)
Theorem toggle_flips_one_group (group : string) (openGroups : gset string) :
  (group ∈ toggle group openGroups <-> group ∉ openGroups) /\
  (forall other, other <> group ->
     (other ∈ toggle group openGroups <-> other ∈ openGroups)) /\
  toggle group (toggle group openGroups) = openGroups.
Proof.
  unfold toggle.
  destruct (decide (group ∈ openGroups)) as [Hopen|Hopen].
  - rewrite (bool_decide_eq_true_2 _ Hopen).
    rewrite bool_decide_eq_false_2 by (rewrite elem_of_difference, elem_of_singleton; tauto).
    split; [|split].
    + rewrite elem_of_difference, elem_of_singleton. tauto.
    + intros other Hne. rewrite elem_of_difference, elem_of_singleton. tauto.
    + apply set_eq. intros g.
      rewrite elem_of_union, elem_of_difference, elem_of_singleton.
      destruct (decide (g = group)) as [->|Hne]; tauto.
  - rewrite (bool_decide_eq_false_2 _ Hopen).
    rewrite bool_decide_eq_true_2 by (rewrite elem_of_union, elem_of_singleton; tauto).
    split; [|split].
    + rewrite elem_of_union, elem_of_singleton. tauto.
    + intros other Hne. rewrite elem_of_union, elem_of_singleton. tauto.
    + apply set_eq. intros g.
      rewrite elem_of_difference, elem_of_union, elem_of_singleton.
      destruct (decide (g = group)) as [->|Hne]; tauto.
Qed.

Lemma substring_all (s : string) : String.substring 0 (String.length s) s = s.
Proof. induction s as [|c s IH]; simpl; [reflexivity | now rewrite IH]. Qed.

(** X21. An element type without an entry in the label table is shown
    under its own name with the leading "Ifc" removed, and two such types
    never share a group. *)
Theorem unlisted_type_drops_prefix (rest rest' : string) :
  table_label ("Ifc" ++ rest) TYPE_LABELS = None ->
  getGroupLabel ("Ifc" ++ rest) = rest /\
  (table_label ("Ifc" ++ rest') TYPE_LABELS = None ->
   getGroupLabel ("Ifc" ++ rest) = getGroupLabel ("Ifc" ++ rest') -> rest = rest').
Proof.
  assert (G : forall r, table_label ("Ifc" ++ r) TYPE_LABELS = None ->
                        getGroupLabel ("Ifc" ++ r) = r).
  { intros r H. unfold getGroupLabel. rewrite H.
    change ("Ifc" ++ r)%string
      with (String "I"%char (String "f"%char (String "c"%char r))).
    assert (P : String.prefix "Ifc"
                  (String "I"%char (String "f"%char (String "c"%char r))) = true)
      by (simpl; now destruct r).
    cbn [remove_first]. rewrite P.
    cbn [String.length String.substring Nat.sub].
    rewrite Nat.sub_0_r. apply substring_all. }
  intros H. split; [now apply G|].
  intros H' E. rewrite (G _ H), (G _ H') in E. exact E.
Qed.

Lemma unlisted_type_drops_prefix_witness :
  getGroupLabel "IfcFlowSegment" = "FlowSegment"%string.
Proof.
  exact (proj1 (unlisted_type_drops_prefix "FlowSegment" "FlowSegment" eq_refl)).
Defined.

(** ** From the hierarchy to the viewer *)

Lemma discover_prefix api ids i acc :
  exists pre post,
    ids = pre ++ post /\
    map expressID (fst (discover api ids i acc)) = map expressID acc ++ pre.
Proof.
  revert i acc. induction ids as [|sid ids IH]; intros i acc; simpl.
  - exists [], []. split; [reflexivity | now rewrite app_nil_r].
  - destruct (GetStoreyLine api sid) as [[line|]|];
      try (exists [], (sid :: ids); split; [reflexivity | now rewrite app_nil_r]).
    destruct (IH (S i) (acc ++ [{| name := default ("Storey " +:+ decimal (i + 1))
                                              (Name_value line);
                                  elevation := default 0%Q (Elevation_value line);
                                  expressID := sid; elementIDs := [] |}]))
      as (pre & post & -> & H).
    exists (sid :: pre), post. split; [reflexivity|].
    rewrite H, map_app, <- app_assoc. reflexivity.
Qed.

Lemma parse_storeys_distinct api :
  NoDup (GetLineIDsWithType api IFCBUILDINGSTOREY) ->
  NoDup (map expressID (parse_storeys api)).
Proof.
  intros Hnd. unfold parse_storeys.
  destruct (discover_prefix api (GetLineIDsWithType api IFCBUILDINGSTOREY) 0 [])
    as (pre & post & Hids & Hpre).
  rewrite Hids in Hnd. apply NoDup_app in Hnd as (Hnd & _ & _).
  destruct (discover api (GetLineIDsWithType api IFCBUILDINGSTOREY) 0 [])
    as [found completed].
  simpl in Hpre. destruct completed; [|now rewrite Hpre].
  rewrite expressID_header, header_passes. cbn [storeys].
  rewrite <- expressID_header.
  assert (P : Permutation (map expressID (js_sort by_elevation found))
                (map expressID found)) by apply Permutation_map, js_sort_perm.
  rewrite P, Hpre. exact Hnd.
Qed.

Lemma find_storey_own (l : list IFCStoreyData) s :
  NoDup (map expressID l) -> In s l ->
  exists i, find_storey (expressID s) l = Some (i, s).
Proof.
  intros Hnd Hin.
  destruct (find_storey (expressID s) l) as [[i s']|] eqn:Hf.
  - exists i. f_equal. f_equal.
    unfold find_storey in Hf. apply list_find_Some in Hf as (Hi & Hs & _).
    apply list_elem_of_lookup_2, list_elem_of_In in Hi.
    clear i. induction l as [|a l IH]; [contradiction|].
    simpl in Hnd. apply NoDup_cons in Hnd as [Ha Hnd]. rewrite list_elem_of_In in Ha.
    destruct Hin as [->|Hin], Hi as [->|Hi]; auto.
    + exfalso. apply Ha. rewrite <- Hs. now apply in_map.
    + exfalso. apply Ha. rewrite Hs. now apply in_map.
  - exfalso.
    assert (H : is_Some (find_storey (expressID s) l)).
    { apply find_storey_is_some. now apply in_map. }
    rewrite Hf in H. now destruct H.
Qed.

Lemma filter_meshes_of_stream (allowed : gset Z) stream :
  filter (fun m => meshExpressID m ∈ allowed) (extractIFCGeometry stream)
  = extractIFCGeometry (filter (fun fm => flatMeshExpressID fm ∈ allowed) stream).
Proof.
  unfold extractIFCGeometry.
  induction stream as [|fm stream IH]; [reflexivity|].
  cbn [flat_map]. rewrite filter_app, IH, filter_cons.
  destruct (decide (flatMeshExpressID fm ∈ allowed)) as [Hin|Hout].
  - cbn [flat_map]. f_equal.
    induction (geometries fm) as [|g gs IHg]; [reflexivity|].
    cbn [map]. rewrite filter_cons_True, IHg; [reflexivity|].
    unfold mesh_of. now destruct (placedColor g) as [[[? ?] ?] ?].
  - rewrite <- (app_nil_l (flat_map _ (filter _ stream))) at 2. f_equal.
    induction (geometries fm) as [|g gs IHg]; [reflexivity|].
    cbn [map]. rewrite filter_cons_False, IHg; [reflexivity|].
    unfold mesh_of. now destruct (placedColor g) as [[[? ?] ?] ?].
Qed.

(** X22. From parser to viewer: in a model whose storey ids are distinct,
    choosing a storey with a non-zero id in the hierarchy panel shows
    exactly the meshes of the streamed elements that storey lists, in stream
    order, and choosing the building shows every mesh. *)
Theorem selecting_a_storey_shows_its_elements api stream :
  NoDup (GetLineIDsWithType api IFCBUILDINGSTOREY) ->
  let data := parseIFCFile api in
  filteredMeshes (extractIFCGeometry stream) None (Some data)
  = extractIFCGeometry stream /\
  forall s, In s (bd_storeys data) -> expressID s <> 0%Z ->
    filteredMeshes (extractIFCGeometry stream) (Some (expressID s)) (Some data)
    = extractIFCGeometry
        (filter (fun fm => flatMeshExpressID fm ∈ (list_to_set (elementIDs s) : gset Z))
           stream).
Proof.
  intros Hnd data. split; [reflexivity|].
  intros s Hin Hid.
  destruct (find_storey_own (bd_storeys data) s) as [i Hf];
    [now apply parse_storeys_distinct | exact Hin|].
  rewrite (filteredMeshes_selected _ _ _ i s Hid Hf).
  apply filter_meshes_of_stream.
Qed.

(** Storey 2 of the sample lists element 10: of the streamed elements 7, 10
    and 30 selecting it shows the one mesh of element 10. *)
Lemma selecting_a_storey_shows_its_elements_witness :
  filteredMeshes (extractIFCGeometry sample_stream) (Some 2%Z)
    (Some (parseIFCFile sample_api))
  = extractIFCGeometry [slab_flatMesh] /\
  map meshExpressID
    (filteredMeshes (extractIFCGeometry sample_stream) (Some 2%Z)
       (Some (parseIFCFile sample_api)))
  = [10%Z] /\
  map meshExpressID
    (filteredMeshes (extractIFCGeometry sample_stream) None
       (Some (parseIFCFile sample_api)))
  = [7%Z; 10%Z; 30%Z; 30%Z].
Proof.
  pose proof (selecting_a_storey_shows_its_elements sample_api sample_stream
                ltac:(repeat constructor; rewrite list_elem_of_In; simpl; lia))
    as [Hall Hsel].
  assert (H : filteredMeshes (extractIFCGeometry sample_stream) (Some 2%Z)
                (Some (parseIFCFile sample_api))
              = extractIFCGeometry [slab_flatMesh]).
  { etransitivity;
      [apply (Hsel {| name := "Storey 2"; elevation := 0; expressID := 2;
                      elementIDs := [10%Z] |});
         [vm_compute; auto | simpl; lia]|].
    now f_equal. }
  split; [exact H|]. split; [rewrite H; reflexivity|].
  rewrite Hall. reflexivity.
Defined.

Module ViewerEvents.
Import Viewer.
Local Open Scope R_scope.

Lemma updateCamera_in_sync o : in_sync (updateCamera o).
Proof.
  unfold in_sync, updateCamera, addScaled, sphericalToCartesian. simpl.
  f_equal; ring.
Qed.

Lemma pitch_limits : - PI / 2 + 1 / 10 <= - (1 / 2) <= PI / 2 - 1 / 10.
Proof. pose proof PI2_1. lra. Qed.

Lemma clamp_between lo hi v : lo <= hi -> lo <= Rmax lo (Rmin hi v) <= hi.
Proof.
  intros H. split; [apply Rmax_l|].
  apply Rmax_lub; [exact H | apply Rmin_l].
Qed.

Lemma dispatch_keeps (s : Pointer * Orbit) (e : Event) :
  in_range (snd s) /\ in_sync (snd s) /\ stale_ref (snd s) ->
  in_range (snd (dispatch s e)) /\ in_sync (snd (dispatch s e)) /\
  stale_ref (snd (dispatch s e)).
Proof.
  destruct s as [p o]. intros H.
  destruct e as [button cx cy | cx cy camRight camUp | | deltaY | box]; simpl;
    try exact H.
  - unfold onMouseMove.
    destruct (negb (isDragging p) && negb (isPanning p)); [exact H|].
    destruct H as ((Hx & Hd) & Hs & Hr).
    split; [|split; [apply updateCamera_in_sync|]].
    + destruct (isPanning p); simpl; split; try assumption.
      apply clamp_between. pose proof PI2_1. lra.
    + destruct (isPanning p); exact Hr.
  - destruct H as ((Hx & Hd) & Hs & Hr).
    split; [|split; [apply updateCamera_in_sync | exact Hr]].
    simpl. split; [exact Hx|]. apply clamp_between. lra.
  - unfold centerCamera.
    destruct (orbitRef o) as [r|] eqn:Href; [|exact H].
    destruct (ltb 0 (maxDim box)); [|exact H].
    destruct H as (Hrange & Hs & (r' & Hr & Hrx & Hry)).
    simpl in Hr. assert (r' = r) as -> by congruence.
    split; [exact Hrange|]. split; [apply updateCamera_in_sync|].
    eexists. split; [reflexivity|]. simpl. auto.
Qed.

Lemma mount_keeps : in_range mount /\ in_sync mount /\ stale_ref mount.
Proof.
  split; [|split].
  - split; simpl; [apply pitch_limits | lra].
  - unfold in_sync, mount, addScaled, sphericalToCartesian. simpl. f_equal; ring.
  - eexists. split; [reflexivity|]. simpl. auto.
Qed.

Lemma after_keeps events (s : Pointer * Orbit) :
  in_range (snd s) /\ in_sync (snd s) /\ stale_ref (snd s) ->
  in_range (snd (fold_left dispatch events s)) /\
  in_sync (snd (fold_left dispatch events s)) /\
  stale_ref (snd (fold_left dispatch events s)).
Proof.
  revert s. induction events as [|e events IH]; intros s H; [exact H|].
  simpl. apply IH, dispatch_keeps, H.
Qed.

Lemma on_sphere o :
  0 <= distance o -> in_sync o -> distanceTo (camera_position o) (target o) = distance o.
Proof.
  intros Hd Hs. rewrite Hs. unfold distanceTo, addScaled, sphericalToCartesian. simpl.
  set (d := distance o). set (a := rotY o). set (b := rotX o).
  replace (_ + _ + _)
    with (d * d * ((sin b * sin b + cos b * cos b)
                   - cos b * cos b * (1 - (sin a * sin a + cos a * cos a)))) by ring.
  pose proof (sin2_cos2 a) as Ha. pose proof (sin2_cos2 b) as Hb.
  unfold Rsqr in Ha, Hb. rewrite Ha, Hb.
  replace (d * d * (1 - cos b * cos b * (1 - 1))) with (d * d) by ring.
  now apply sqrt_square.
Qed.

Lemma distance_unless_wheel events (s : Pointer * Orbit) :
  forallb (fun e => negb (is_wheel e)) events = true ->
  distance (snd (fold_left dispatch events s)) = distance (snd s).
Proof.
  revert s. induction events as [|e events IH]; intros s H; [reflexivity|].
  simpl in H. apply andb_prop in H as [He H]. simpl. rewrite (IH _ H).
  destruct s as [p o].
  destruct e as [button cx cy | cx cy camRight camUp | | deltaY | box]; simpl;
    try reflexivity; try discriminate.
  - unfold onMouseMove.
    destruct (negb (isDragging p) && negb (isPanning p)); [reflexivity|].
    now destruct (isPanning p).
  - unfold centerCamera. destruct (orbitRef o); [|reflexivity].
    now destruct (ltb 0 (maxDim box)).
Qed.

(** X12. Whatever pointer, wheel and model events reach the viewer after
    mounting, the pitch stays within 0.1 rad of the poles, the viewing
    distance stays between 1 and 5000, and the camera sits on the sphere of
    that radius around the target, in the direction of the yaw and pitch.
    The angles stored in the orbit ref keep their initial values, and
    without a wheel event the viewing distance is still the initial 50,
    whatever models were loaded. *)
Theorem orbit_stays_in_range (events : list Event) :
  let o := snd (after events) in
  (- PI / 2 + 1 / 10 <= rotX o <= PI / 2 - 1 / 10) /\
  (1 <= distance o <= 5000) /\
  camera_position o
  = addScaled (target o) (distance o) (sphericalToCartesian (rotY o) (rotX o)) /\
  distanceTo (camera_position o) (target o) = distance o /\
  (exists r, orbitRef o = Some r /\ orbit_rotX r = - (1 / 2) /\ orbit_rotY r = 1 / 2) /\
  (forallb (fun e => negb (is_wheel e)) events = true -> distance o = 50).
Proof.
  intros o.
  destruct (after_keeps events (pointer_start, mount) mount_keeps)
    as ((Hx & Hd) & Hs & Hr).
  fold (after events) in Hx, Hd, Hs, Hr. fold o in Hx, Hd, Hs, Hr.
  split; [exact Hx|]. split; [exact Hd|]. split; [exact Hs|].
  split; [apply on_sphere; [lra | exact Hs]|]. split; [exact Hr|].
  intros H. unfold o, after. now rewrite distance_unless_wheel.
Qed.

Lemma reachable_keeps events :
  in_range (snd (after events)) /\ in_sync (snd (after events)) /\
  stale_ref (snd (after events)).
Proof. apply after_keeps, mount_keeps. Qed.

(** X13. Panning slides the view: while a pan button is held, a pointer
    move shifts the target by the pointer's travel along the camera's right
    and up vectors, scaled by 0.002 of the viewing distance, and the camera
    moves with it, so the offset from target to camera, the angles and the
    distance are unchanged. *)
Theorem pan_slides_the_view events clientX clientY camRight camUp :
  isPanning (fst (after events)) = true ->
  let s := after events in
  let s' := dispatch s (MouseMove clientX clientY camRight camUp) in
  let dx := clientX - prevX (fst s) in
  let dy := clientY - prevY (fst s) in
  target (snd s')
  = addScaled (addScaled (target (snd s)) (- dx * (distance (snd s) * (2 / 1000))) camRight)
      (dy * (distance (snd s) * (2 / 1000))) camUp /\
  view_offset (snd s') = view_offset (snd s) /\
  rotX (snd s') = rotX (snd s) /\ rotY (snd s') = rotY (snd s) /\
  distance (snd s') = distance (snd s) /\
  prevX (fst s') = clientX /\ prevY (fst s') = clientY.
Proof.
  intros Hpan s s' dx dy.
  destruct (reachable_keeps events) as (_ & Hs & _). fold s in Hs.
  change (isPanning (fst s) = true) in Hpan.
  unfold s', dx, dy. clearbody s. destruct s as [p o]. simpl in *.
  unfold onMouseMove. rewrite Hpan, andb_false_r. simpl.
  repeat split.
  unfold view_offset. rewrite Hs. unfold updateCamera, addScaled, sphericalToCartesian.
  simpl. f_equal; ring.
Qed.

(** With the camera's right and up vectors along x and y and the initial
    distance 50, holding the right button at (0,0) and moving the pointer
    to (30,40) takes the target from the origin to (-3, 4, 0). *)
Lemma pan_slides_the_view_witness :
  target (snd (after [MouseDown 2 0 0])) = zero3 /\
  target (snd (dispatch (after [MouseDown 2 0 0])
                 (MouseMove 30 40 {| x := 1; y := 0; z := 0 |}
                    {| x := 0; y := 1; z := 0 |})))
  = {| x := -3; y := 4; z := 0 |} /\
  view_offset (snd (dispatch (after [MouseDown 2 0 0])
                      (MouseMove 30 40 {| x := 1; y := 0; z := 0 |}
                         {| x := 0; y := 1; z := 0 |})))
  = view_offset (snd (after [MouseDown 2 0 0])).
Proof.
  destruct (pan_slides_the_view [MouseDown 2 0 0] 30 40
              {| x := 1; y := 0; z := 0 |} {| x := 0; y := 1; z := 0 |} eq_refl)
    as (Ht & Hv & _).
  split; [reflexivity|]. split; [|exact Hv].
  rewrite Ht. unfold addScaled, zero3. simpl. f_equal; lra.
Defined.

(** X14. A wheel event changes only the viewing distance, and in the
    direction of the scroll: scrolling down never brings the camera closer,
    scrolling up never moves it away, and a scroll of -1000 or beyond puts
    it at the minimum distance 1.  Rotating with a non-pan button leaves
    target and distance alone. *)
Theorem wheel_zooms_monotonically events deltaY :
  let o := snd (after events) in
  let o' := onWheel deltaY o in
  target o' = target o /\ rotX o' = rotX o /\ rotY o' = rotY o /\
  (0 <= deltaY -> distance o <= distance o') /\
  (deltaY <= 0 -> distance o' <= distance o) /\
  (deltaY <= -1000 -> distance o' = 1) /\
  (forall clientX clientY camRight camUp,
     isPanning (fst (after events)) = false ->
     let o2 := snd (dispatch (after events) (MouseMove clientX clientY camRight camUp)) in
     target o2 = target o /\ distance o2 = distance o).
Proof.
  intros o o'.
  destruct (reachable_keeps events) as ((_ & Hd) & _ & _). fold o in Hd.
  unfold o'. simpl.
  split; [reflexivity|]. split; [reflexivity|]. split; [reflexivity|].
  split; [|split; [|split]].
  - intros H. apply Rle_trans with (Rmin 5000 (distance o * (1 + deltaY * (1 / 1000))));
      [|apply Rmax_r].
    apply Rmin_glb; [lra | nra].
  - intros H. apply Rmax_lub; [lra|].
    apply Rle_trans with (distance o * (1 + deltaY * (1 / 1000))); [apply Rmin_r | nra].
  - intros H. apply Rle_antisym; [|apply Rmax_l].
    apply Rmax_lub; [lra|].
    apply Rle_trans with (distance o * (1 + deltaY * (1 / 1000))); [apply Rmin_r | nra].
  - intros cx cy camRight camUp Hpan. unfold o. destruct (after events) as [p oo].
    simpl in *. unfold onMouseMove.
    destruct (negb (isDragging p) && negb (isPanning p)); [auto|].
    rewrite Hpan. simpl. auto.
Qed.

End ViewerEvents.

Module ViewerSessions.
Import Viewer.

Lemma scene_remove_filter id children :
  scene_remove id children = List.filter (fun c => negb (Nat.eqb (child_id c) id)) children.
Proof. reflexivity. Qed.

Lemma filter_filter_and {A : Type} (f g : A -> bool) (l : list A) :
  List.filter f (List.filter g l) = List.filter (fun a => g a && f a) l.
Proof.
  induction l as [|a l IH]; simpl; [reflexivity|].
  destruct (g a); simpl; [destruct (f a)|]; now rewrite IH.
Qed.

Lemma filter_same {A : Type} (f g : A -> bool) (l : list A) :
  (forall a, In a l -> f a = g a) -> List.filter f l = List.filter g l.
Proof.
  induction l as [|a l IH]; simpl; intros H; [reflexivity|].
  rewrite (H a) by now left. rewrite IH; [reflexivity|].
  intros b Hb. apply H. now right.
Qed.

Lemma removed_all (toRemove children : list SceneChild) :
  fold_left (fun cs c => scene_remove (child_id c) cs) toRemove children
  = List.filter
      (fun c => negb (existsb (fun r => Nat.eqb (child_id c) (child_id r)) toRemove))
      children.
Proof.
  revert children. induction toRemove as [|r toRemove IH]; intros children; simpl.
  - induction children as [|c cs IHc]; simpl; [reflexivity | now rewrite <- IHc].
  - rewrite IH, scene_remove_filter, filter_filter_and.
    apply filter_same. intros c _. now rewrite negb_orb.
Qed.

Lemma same_id_same_child (children : list SceneChild) a b :
  NoDup (map child_id children) -> In a children -> In b children ->
  child_id a = child_id b -> a = b.
Proof.
  induction children as [|c cs IH]; simpl; [contradiction|].
  intros Hnd Ha Hb Hid. apply NoDup_cons in Hnd as [Hc Hnd].
  rewrite list_elem_of_In in Hc.
  destruct Ha as [->|Ha], Hb as [->|Hb]; auto.
  - exfalso. apply Hc. rewrite Hid. now apply in_map.
  - exfalso. apply Hc. rewrite <- Hid. now apply in_map.
Qed.

Lemma NoDup_ids_filter (f : SceneChild -> bool) (children : list SceneChild) :
  NoDup (map child_id children) -> NoDup (map child_id (List.filter f children)).
Proof.
  induction children as [|c cs IH]; simpl; [auto|].
  intros Hnd. apply NoDup_cons in Hnd as [Hc Hnd]. rewrite list_elem_of_In in Hc.
  destruct (f c); simpl; [|auto].
  apply NoDup_cons. split; [|auto].
  rewrite list_elem_of_In. intros Hin. apply Hc.
  apply in_map_iff in Hin as (d & Hd & Hin). apply filter_In in Hin as [Hin _].
  rewrite <- Hd. now apply in_map.
Qed.

Lemma NoDup_ids_snoc (children : list SceneChild) (c : SceneChild) n :
  NoDup (map child_id children) ->
  (forall d, In d children -> (child_id d < n)%nat) ->
  child_id c = n ->
  NoDup (map child_id (children ++ [c])).
Proof.
  intros Hnd Hlt Hc. rewrite map_app. apply NoDup_app. split; [exact Hnd|].
  split; [|apply NoDup_singleton].
  intros i Hi Hi'. apply list_elem_of_singleton in Hi'. subst i.
  apply list_elem_of_In, in_map_iff in Hi as (d & Hd & Hin).
  apply Hlt in Hin. lia.
Qed.

(** What [clearMeasurements] leaves of a scene with distinct ids. *)
Lemma clearMeasurements_scene m :
  well_formed m ->
  scene (clearMeasurements m) = List.filter (fun c => negb (isMeasurement c)) (scene m).
Proof.
  intros (Hnd & _ & Hprev). unfold clearMeasurements. cbn [scene].
  rewrite removed_all.
  assert (Hall :
    List.filter
      (fun c => negb (existsb (fun r => Nat.eqb (child_id c) (child_id r))
                        (List.filter isMeasurement (scene m)))) (scene m)
    = List.filter (fun c => negb (isMeasurement c)) (scene m)).
  { apply filter_same. intros c Hc. f_equal.
    destruct (isMeasurement c) eqn:Hm.
    - apply existsb_exists. exists c. split; [|apply Nat.eqb_refl].
      apply filter_In. auto.
    - apply not_true_is_false. intros H.
      apply existsb_exists in H as (r & Hr & Hid).
      apply filter_In in Hr as [Hr Hrm]. apply Nat.eqb_eq in Hid.
      assert (c = r) by now apply (same_id_same_child (scene m)).
      congruence. }
  rewrite Hall. destruct (measurePreview m) as [id|] eqn:Hp; [|reflexivity].
  rewrite scene_remove_filter, filter_filter_and. apply filter_same.
  intros c Hc. destruct (isMeasurement c) eqn:Hm; [reflexivity|]. simpl.
  destruct (Nat.eqb (child_id c) id) eqn:Hid; [|reflexivity].
  apply Nat.eqb_eq in Hid. destruct (Hprev id eq_refl) as [_ H].
  specialize (H c Hc Hid). destruct c; discriminate.
Qed.

Lemma onClick_well_formed hits m : well_formed m -> well_formed (onClick hits m).
Proof.
  intros (Hnd & Hlt & Hprev). unfold onClick.
  destruct hits as [|point hits]; [now split|].
  destruct (measurePoint m) as [first|].
  - set (children := match measurePreview m with
                     | Some id => scene_remove id (scene m)
                     | None => scene m
                     end).
    assert (Hsub : forall c, In c children -> In c (scene m)).
    { unfold children. destruct (measurePreview m); [|auto].
      intros c Hc. now apply filter_In in Hc. }
    assert (Hnd' : NoDup (map child_id children)).
    { unfold children. destruct (measurePreview m); [|auto].
      now apply NoDup_ids_filter. }
    split; [|split]; cbn [scene nextId measurePreview].
    + apply (NoDup_ids_snoc _ _ (nextId m)); auto.
    + intros c Hc. apply in_app_or in Hc as [Hc|[<-|[]]]; simpl; [|lia].
      apply Hsub, Hlt in Hc. lia.
    + discriminate.
  - split; [|split]; cbn [scene nextId measurePreview].
    + apply (NoDup_ids_snoc _ _ (nextId m)); auto.
    + intros c Hc. apply in_app_or in Hc as [Hc|[<-|[]]]; simpl; [|lia].
      apply Hlt in Hc. lia.
    + intros id [= <-]. split; [lia|].
      intros c Hc Hid. apply in_app_or in Hc as [Hc|[<-|[]]]; [|reflexivity].
      apply Hlt in Hc. lia.
Qed.

Lemma clearMeasurements_well_formed m :
  well_formed m -> well_formed (clearMeasurements m).
Proof.
  intros H. pose proof (clearMeasurements_scene m H) as Hs.
  destruct H as (Hnd & Hlt & Hprev).
  split; [|split].
  - rewrite Hs. now apply NoDup_ids_filter.
  - rewrite Hs. intros c Hc. apply filter_In in Hc as [Hc _]. now apply Hlt.
  - discriminate.
Qed.

Lemma act_well_formed m a : well_formed m -> well_formed (act m a).
Proof.
  intros H. destruct a as [hits| |]; simpl.
  - destruct (measureMode m); [exact H | now apply onClick_well_formed].
  - unfold toggleMeasure. destruct (measureMode m); exact H.
  - destruct (measureMode m); [now apply clearMeasurements_well_formed | exact H].
Qed.

Lemma session_well_formed actions m :
  well_formed m -> well_formed (fold_left act actions m).
Proof.
  revert m. induction actions as [|a actions IH]; intros m H; [exact H|].
  simpl. apply IH, act_well_formed, H.
Qed.

Lemma filter_idempotent {A : Type} (f : A -> bool) (l : list A) :
  List.filter f (List.filter f l) = List.filter f l.
Proof.
  rewrite filter_filter_and. apply filter_same. intros a _. now destruct (f a).
Qed.

(** X15. Clearing removes exactly the measurement annotations and the
    marker of a pending pick, keeps every other scene object in place,
    forgets the pending point, and is idempotent, in whatever state a series
    of clicks, toggles and clears has left the session. *)
Theorem clearMeasurements_removes_annotations m actions :
  well_formed m ->
  let m1 := fold_left act actions m in
  let m2 := clearMeasurements m1 in
  scene m2 = List.filter (fun c => negb (isMeasurement c)) (scene m1) /\
  measurements (scene m2) = [] /\
  measurePoint m2 = None /\ measurePreview m2 = None /\
  measureMode m2 = measureMode m1 /\
  clearMeasurements m2 = m2.
Proof.
  intros Hwf m1 m2.
  assert (H1 : well_formed m1) by now apply session_well_formed.
  assert (Hs : scene m2 = List.filter (fun c => negb (isMeasurement c)) (scene m1))
    by now apply clearMeasurements_scene.
  split; [exact Hs|]. split; [|repeat split].
  - rewrite Hs. generalize (scene m1). intros l.
    induction l as [|c l IH]; [reflexivity|]. simpl.
    destruct c; simpl; auto.
  - assert (H2 : well_formed m2) by now apply clearMeasurements_well_formed.
    pose proof (clearMeasurements_scene m2 H2) as Hs2.
    rewrite Hs, filter_idempotent, <- Hs in Hs2.
    destruct (clearMeasurements m2) as [sc ni mm mp mv] eqn:E.
    unfold clearMeasurements in E. subst m2.
    unfold clearMeasurements in *. simpl in *.
    injection E as E1 E2 E3 E4 E5. subst. f_equal. exact Hs2.
Qed.

Lemma measuring_start_well_formed : well_formed measuring_start.
Proof.
  split; [|split].
  - simpl. repeat constructor; rewrite list_elem_of_In; simpl; lia.
  - simpl. intros c [<-|[<-|[<-|[]]]]; simpl; lia.
  - discriminate.
Qed.

Lemma clearMeasurements_removes_annotations_witness :
  scene (clearMeasurements
           (fold_left act [Click [point_3_4_0]; ToggleMeasure] measuring_start))
  = [OtherChild 0; OtherChild 1; OtherChild 2].
Proof.
  apply (clearMeasurements_removes_annotations measuring_start
           [Click [point_3_4_0]; ToggleMeasure]).
  exact measuring_start_well_formed.
Defined.

Lemma measurements_snoc children c :
  measurements (children ++ [c])
  = measurements children
    ++ match c with MeasurementGroup _ ml => [ml] | _ => [] end.
Proof.
  unfold measurements. rewrite omap_app. f_equal. now destruct c.
Qed.

Lemma others_snoc children c :
  List.filter (fun c => negb (isMeasurement c)) (children ++ [c])
  = List.filter (fun c => negb (isMeasurement c)) children
    ++ (if isMeasurement c then [] else [c]).
Proof. rewrite List.filter_app. simpl. now destruct (isMeasurement c). Qed.

Lemma measurements_cons c children :
  measurements (c :: children)
  = match c with MeasurementGroup _ ml => [ml] | _ => [] end ++ measurements children.
Proof. now destruct c. Qed.

Lemma remove_marker_measurements m id :
  well_formed m -> measurePreview m = Some id ->
  measurements (scene_remove id (scene m)) = measurements (scene m) /\
  List.filter (fun c => negb (isMeasurement c)) (scene_remove id (scene m))
  = List.filter (fun c => negb (isMeasurement c)) (scene m).
Proof.
  intros (_ & _ & Hprev) Hp. destruct (Hprev id Hp) as [_ H]. clear Hprev.
  rewrite scene_remove_filter, filter_filter_and.
  induction (scene m) as [|c cs IH]; [auto|].
  destruct IH as [IH1 IH2]; [intros d Hd; apply H; now right|].
  cbn [List.filter]. destruct (Nat.eqb (child_id c) id) eqn:Hid.
  - apply Nat.eqb_eq in Hid. specialize (H c (or_introl eq_refl) Hid).
    destruct c; try discriminate. cbn [negb isMeasurement andb].
    rewrite measurements_cons, app_nil_l. auto.
  - cbn [negb andb]. rewrite !measurements_cons, IH1. split; [reflexivity|].
    destruct (negb (isMeasurement c)); now rewrite IH2.
Qed.

Lemma clicks_from m clicks :
  well_formed m -> measureMode m = picking ->
  let m' := fold_left act (map Click clicks) m in
  measurements (scene m')
  = measurements (scene m)
    ++ pair_up (option_list (measurePoint m) ++ omap head clicks) /\
  measurePoint m' = left_over (option_list (measurePoint m) ++ omap head clicks) /\
  List.filter (fun c => negb (isMeasurement c)) (scene m')
  = List.filter (fun c => negb (isMeasurement c)) (scene m) /\
  measureMode m' = picking.
Proof.
  revert m. induction clicks as [|hits clicks IH]; intros m Hwf Hmode; simpl.
  - rewrite app_nil_r. destruct (measurePoint m); simpl; rewrite ?app_nil_r; auto.
  - rewrite Hmode.
    assert (Hwf' : well_formed (onClick hits m)) by now apply onClick_well_formed.
    assert (Hmode' : measureMode (onClick hits m) = picking).
    { unfold onClick. destruct hits; [exact Hmode|]. now destruct (measurePoint m). }
    destruct (IH (onClick hits m) Hwf' Hmode') as (I1 & I2 & I3 & I4).
    rewrite I1, I2, I3. clear IH I1 I2 I3.
    split; [|split; [|split; [|exact I4]]];
      (destruct hits as [|point hits]; [reflexivity|]);
      unfold onClick; destruct (measurePoint m) as [first|] eqn:Hpt;
        cbn [scene measurePoint option_list head omap app].
    + rewrite measurements_snoc.
      destruct (measurePreview m) as [id|] eqn:Hp.
      * destruct (remove_marker_measurements m id Hwf Hp) as [-> _].
        now rewrite <- app_assoc.
      * now rewrite <- app_assoc.
    + rewrite measurements_snoc. simpl. now rewrite app_nil_r.
    + reflexivity.
    + reflexivity.
    + rewrite others_snoc. simpl. rewrite app_nil_r.
      destruct (measurePreview m) as [id|] eqn:Hp; [|reflexivity].
      now destruct (remove_marker_measurements m id Hwf Hp) as [_ ->].
    + rewrite others_snoc. simpl. now rewrite app_nil_r.
Qed.

(** X16. While picking, clicks that miss the model are ignored and the hits
    are paired up in order: starting with no pending point, the scene gains
    exactly one annotation for each consecutive pair of hit points, measured
    from the first to the second, a hit left over stays pending, and the
    other scene objects are untouched. *)
Theorem clicks_pair_up m clicks :
  well_formed m -> measureMode m = picking -> measurePoint m = None ->
  let m' := fold_left act (map Click clicks) m in
  measurements (scene m') = measurements (scene m) ++ pair_up (omap head clicks) /\
  measurePoint m' = left_over (omap head clicks) /\
  List.filter (fun c => negb (isMeasurement c)) (scene m')
  = List.filter (fun c => negb (isMeasurement c)) (scene m) /\
  length (measurements (scene m'))
  = (length (measurements (scene m)) + length (omap head clicks) / 2)%nat.
Proof.
  intros Hwf Hmode Hpt m'.
  destruct (clicks_from m clicks Hwf Hmode) as (H1 & H2 & H3 & _).
  rewrite Hpt in H1, H2. simpl in H1, H2.
  split; [exact H1|]. split; [exact H2|]. split; [exact H3|].
  fold m' in H1. rewrite H1, length_app. f_equal.
  generalize (omap head clicks). intros points.
  assert (G : forall n (l : list Vector3), (length l <= n)%nat ->
              length (pair_up l) = (length l / 2)%nat).
  { induction n as [|n IHn]; intros l Hl.
    - destruct l; [reflexivity | simpl in Hl; lia].
    - destruct l as [|p [|q l]]; try reflexivity.
      simpl in Hl. cbn [pair_up length]. rewrite IHn by lia.
      change (S (S (length l))) with (2 + length l)%nat.
      replace (2 + length l)%nat with (length l + 1 * 2)%nat by lia.
      rewrite Nat.div_add by lia. lia. }
  now apply (G (length points)).
Qed.

Lemma clicks_pair_up_witness :
  measurements
    (scene (fold_left act (map Click [[point_3_4_0]; []; [zero3; point_3_4_0]])
              measuring_start))
  = [createMeasurementLine point_3_4_0 zero3].
Proof.
  apply (clicks_pair_up measuring_start [[point_3_4_0]; []; [zero3; point_3_4_0]]).
  - exact measuring_start_well_formed.
  - reflexivity.
  - reflexivity.
Defined.

End ViewerSessions.

Module ViewerOverlays.
Import Viewer.
Local Open Scope R_scope.

Lemma distanceTo_shift a b k d :
  distanceTo (addScaled a k d) (addScaled b k d) = distanceTo a b.
Proof. unfold distanceTo, addScaled. simpl. f_equal. ring. Qed.

Lemma sqrt_square_diff a b : a <= b -> sqrt ((a - b) * (a - b)) = b - a.
Proof.
  intros H. replace ((a - b) * (a - b)) with ((b - a) * (b - a)) by ring.
  apply sqrt_square. lra.
Qed.

Lemma not_empty_ordered box :
  isEmpty box = false ->
  x (box_min box) <= x (box_max box) /\
  y (box_min box) <= y (box_max box) /\
  z (box_min box) <= z (box_max box).
Proof.
  unfold isEmpty. intros H.
  apply orb_false_elim in H as [H Hz]. apply orb_false_elim in H as [Hx Hy].
  unfold ltb in Hx, Hy, Hz.
  destruct (Rlt_dec (x (box_max box)) (x (box_min box))); [discriminate|].
  destruct (Rlt_dec (y (box_max box)) (y (box_min box))); [discriminate|].
  destruct (Rlt_dec (z (box_max box)) (z (box_min box))); [discriminate|].
  lra.
Qed.

Lemma diagonal_positive :
  0 < x (normalize {| x := 1; y := 0; z := 1 |}) /\
  z (normalize {| x := 1; y := 0; z := 1 |}) = x (normalize {| x := 1; y := 0; z := 1 |}).
Proof.
  unfold normalize. simpl.
  destruct (Req_dec_T (length3 {| x := 1; y := 0; z := 1 |}) 0) as [E|E].
  - split; [lra | reflexivity].
  - split; [|reflexivity].
    apply Rdiv_lt_0_compat; [lra|].
    pose proof (sqrt_pos (1 * 1 + 0 * 0 + 1 * 1)) as H. unfold length3 in *. simpl in *. lra.
Qed.

(** X18. For a non-empty bounding box, each of the three dimension lines is
    exactly as long as the extent its label prints (width, height and depth
    of the box, two decimals and the unit), and both of its ends lie outside
    the box. *)
Theorem dimension_lines_match_labels box :
  isEmpty box = false ->
  Forall2 (fun line extent =>
             distanceTo (dim_from line) (dim_to line) = extent /\
             dim_label line = (toFixed2 extent +:+ " m")%string /\
             ~ containsPoint box (dim_from line) /\
             ~ containsPoint box (dim_to line))
          (dimensionLines box) (extents box).
Proof.
  intros Hne. destruct (not_empty_ordered box Hne) as (Hx & Hy & Hz).
  destruct diagonal_positive as [Hd Hdz].
  unfold dimensionLines, extents, getSize. rewrite Hne.
  set (dir := normalize {| x := 1; y := 0; z := 1 |}) in *.
  repeat constructor; cbn [createDimensionLine dim_from dim_to dim_label x y z];
    try rewrite distanceTo_shift;
    try (unfold distanceTo; cbn [x y z];
         match goal with
         | |- sqrt ?e = ?b - ?a =>
             replace e with ((a - b) * (a - b)) by ring; now apply sqrt_square_diff
         end);
    try (unfold containsPoint, addScaled; cbn [x y z box_min box_max]; lra).
Qed.

Lemma dimension_lines_match_labels_witness :
  Forall2 (fun line extent =>
             distanceTo (dim_from line) (dim_to line) = extent /\
             dim_label line = (toFixed2 extent +:+ " m")%string /\
             ~ containsPoint unit_box (dim_from line) /\
             ~ containsPoint unit_box (dim_to line))
          (dimensionLines unit_box) (extents unit_box).
Proof.
  apply (dimension_lines_match_labels unit_box).
  unfold isEmpty, unit_box, zero3. simpl.
  rewrite !ViewerFacts.ltb_false by lra. reflexivity.
Defined.

End ViewerOverlays.

Module ViewerReloads.
Import Viewer.
Import ViewerSessions.

(** What the mesh effect leaves of the old scene. *)
Lemma meshEffect_scene typed meshCount showDimensions m :
  well_formed m ->
  exists added,
    scene (meshEffect typed meshCount showDimensions m)
    = List.filter (fun c => negb (isGroupOrMesh typed c)) (scene m)
      ++ map OtherChild (seq (nextId m) added) /\
    nextId (meshEffect typed meshCount showDimensions m) = (nextId m + added)%nat.
Proof.
  intros (Hnd & _ & _). unfold meshEffect. cbn [scene nextId].
  eexists. split; [|reflexivity]. f_equal.
  rewrite removed_all. apply filter_same. intros c Hc. f_equal.
  destruct (isGroupOrMesh typed c) eqn:Hm.
  - apply existsb_exists. exists c. split; [|apply Nat.eqb_refl].
    apply filter_In. auto.
  - apply not_true_is_false. intros H.
    apply existsb_exists in H as (r & Hr & Hid).
    apply filter_In in Hr as [Hr Hrm]. apply Nat.eqb_eq in Hid.
    assert (c = r) by now apply (same_id_same_child (scene m)).
    congruence.
Qed.

Lemma meshEffect_well_formed typed meshCount showDimensions m :
  well_formed m -> well_formed (meshEffect typed meshCount showDimensions m).
Proof.
  intros Hwf.
  destruct (meshEffect_scene typed meshCount showDimensions m Hwf) as (added & Hs & Hn).
  destruct Hwf as (Hnd & Hlt & Hprev).
  split; [|split].
  - rewrite Hs, map_app. apply NoDup_app. split; [now apply NoDup_ids_filter|]. split.
    + intros i Hi Hi'. apply list_elem_of_In in Hi, Hi'.
      apply in_map_iff in Hi as (c & <- & Hc). apply filter_In in Hc as [Hc _].
      apply Hlt in Hc.
      apply in_map_iff in Hi' as (d & Hd & Hin). apply in_map_iff in Hin as (k & <- & Hk).
      apply in_seq in Hk. simpl in Hd. lia.
    + rewrite map_map. simpl. rewrite map_id. apply NoDup_ListNoDup, seq_NoDup.
  - rewrite Hs, Hn. intros c Hc. apply in_app_or in Hc as [Hc|Hc].
    + apply filter_In in Hc as [Hc _]. apply Hlt in Hc. lia.
    + apply in_map_iff in Hc as (k & <- & Hk). apply in_seq in Hk. simpl. lia.
  - intros id Hid. change (measurePreview m = Some id) in Hid.
    destruct (Hprev id Hid) as [Hlt' Hmark]. rewrite Hn. split; [lia|].
    rewrite Hs. intros c Hc Hcid. apply in_app_or in Hc as [Hc|Hc].
    + apply filter_In in Hc as [Hc _]. now apply Hmark.
    + apply in_map_iff in Hc as (k & <- & Hk). apply in_seq in Hk. simpl in Hcid. lia.
Qed.

(** X23. A change of the mesh list or of the dimension switch wipes the
    measurements but not the session: afterwards the scene holds no
    annotation and no pick marker, while the mode, a pending first point
    and the marker reference are as before; so when a first point was
    pending, the next hit while picking measures from that point, whose
    marker is gone. *)
Theorem meshEffect_wipes_measurements typed meshCount showDimensions m :
  well_formed m ->
  let m' := meshEffect typed meshCount showDimensions m in
  measurements (scene m') = [] /\
  (forall c, In c (scene m') -> isMeasurement c = false) /\
  measureMode m' = measureMode m /\
  measurePoint m' = measurePoint m /\
  measurePreview m' = measurePreview m /\
  (forall first point hits,
     measurePoint m = Some first -> measureMode m = picking ->
     measurements (scene (act m' (Click (point :: hits))))
     = [createMeasurementLine first point]).
Proof.
  intros Hwf m'.
  destruct (meshEffect_scene typed meshCount showDimensions m Hwf) as (added & Hs & Hn).
  fold m' in Hs, Hn.
  assert (Hnone : forall c, In c (scene m') -> isMeasurement c = false).
  { rewrite Hs. intros c Hc. apply in_app_or in Hc as [Hc|Hc].
    - apply filter_In in Hc as [_ Hc]. destruct c; try discriminate; reflexivity.
    - apply in_map_iff in Hc as (k & <- & _). reflexivity. }
  assert (Hempty : measurements (scene m') = []).
  { revert Hnone. generalize (scene m'). intros l Hl.
    induction l as [|c l IH]; [reflexivity|].
    rewrite measurements_cons, IH by (intros d Hd; apply Hl; now right).
    specialize (Hl c (or_introl eq_refl)). destruct c; try discriminate; reflexivity. }
  split; [exact Hempty|]. split; [exact Hnone|].
  split; [reflexivity|]. split; [reflexivity|]. split; [reflexivity|].
  intros first point hits Hpt Hmode.
  assert (Hwf' : well_formed m') by now apply meshEffect_well_formed.
  change (act m' (Click (point :: hits)))
    with (match measureMode m with picking => onClick (point :: hits) m' | none => m' end).
  rewrite Hmode. unfold onClick.
  change (measurePoint m') with (measurePoint m). rewrite Hpt.
  cbn [scene]. rewrite measurements_snoc.
  destruct (measurePreview m') as [id|] eqn:Hp.
  - destruct (remove_marker_measurements m' id Hwf' Hp) as [-> _].
    now rewrite Hempty.
  - now rewrite Hempty.
Qed.

Lemma meshEffect_wipes_measurements_witness :
  measurements
    (scene (act (meshEffect (fun id => Nat.eqb id 2) 1 true
                   (act measuring_start (Click [point_3_4_0])))
              (Click [zero3])))
  = [createMeasurementLine point_3_4_0 zero3].
Proof.
  apply (meshEffect_wipes_measurements (fun id => Nat.eqb id 2) 1 true
           (act measuring_start (Click [point_3_4_0]))).
  - apply act_well_formed, measuring_start_well_formed.
  - reflexivity.
  - reflexivity.
Defined.

Lemma marker_kept m a id p :
  well_formed m -> is_clear a = false ->
  In (PreviewGroup id p) (scene m) ->
  (measurePreview m = Some id -> measurePoint m = None) ->
  In (PreviewGroup id p) (scene (act m a)) /\
  (measurePreview (act m a) = Some id -> measurePoint (act m a) = None).
Proof.
  intros (_ & Hlt & _) Ha Hin Hstale.
  destruct a as [hits| |]; [| |discriminate]; simpl.
  - destruct (measureMode m); [auto|].
    unfold onClick. destruct hits as [|point hits]; [auto|].
    destruct (measurePoint m) as [first|] eqn:Hpt; cbn [scene measurePreview measurePoint].
    + split; [|discriminate]. apply in_or_app. left.
      destruct (measurePreview m) as [id'|]; [|exact Hin].
      apply filter_In. split; [exact Hin|]. simpl.
      apply negb_true_iff, Nat.eqb_neq. intros ->.
      specialize (Hstale eq_refl). discriminate.
    + split; [apply in_or_app; now left|].
      intros [= E]. apply Hlt in Hin. simpl in Hin. lia.
  - unfold toggleMeasure. destruct (measureMode m); cbn [scene measurePreview measurePoint]; auto.
Qed.

(** X17. Leaving measurement mode after a first pick forgets the point but
    not its marker: the marker stays in the scene through every later click
    and every later toggle of the mode, and the next first pick adds a
    marker of its own beside it.  Clearing the measurements removes it, and
    so does the next run of the mesh effect. *)
Theorem marker_survives_toggle m point hits actions :
  well_formed m -> measureMode m = picking -> measurePoint m = None ->
  forallb (fun a => negb (is_clear a)) actions = true ->
  let m1 := act (act m (Click (point :: hits))) ToggleMeasure in
  measureMode m1 = none /\ measurePoint m1 = None /\
  In (PreviewGroup (nextId m) point) (scene (fold_left act actions m1)) /\
  ~ In (PreviewGroup (nextId m) point) (scene (clearMeasurements (fold_left act actions m1))) /\
  (forall typed meshCount showDimensions,
     ~ In (PreviewGroup (nextId m) point)
         (scene (meshEffect typed meshCount showDimensions (fold_left act actions m1)))) /\
  (forall point2 hits2,
     let m2 := act (act m1 ToggleMeasure) (Click (point2 :: hits2)) in
     In (PreviewGroup (nextId m) point) (scene m2) /\
     In (PreviewGroup (S (nextId m)) point2) (scene m2)).
Proof.
  intros Hwf Hmode Hpt Hact m1.
  assert (E : m1 = {| scene := scene m ++ [PreviewGroup (nextId m) point];
                      nextId := S (nextId m); measureMode := none;
                      measurePoint := None; measurePreview := Some (nextId m) |}).
  { unfold m1. cbn [act]. rewrite Hmode. unfold onClick. rewrite Hpt.
    unfold toggleMeasure. cbn [measureMode scene nextId measurePreview measurePoint].
    rewrite Hmode. reflexivity. }
  assert (Hwf1 : well_formed m1).
  { unfold m1. now apply act_well_formed, act_well_formed. }
  assert (Hnext : forall point2 hits2,
            let m2 := act (act m1 ToggleMeasure) (Click (point2 :: hits2)) in
            In (PreviewGroup (nextId m) point) (scene m2) /\
            In (PreviewGroup (S (nextId m)) point2) (scene m2)).
  { intros point2 hits2. rewrite E. cbn. rewrite !in_app_iff. simpl. auto. }
  split; [now rewrite E|]. split; [now rewrite E|].
  assert (Hin1 : In (PreviewGroup (nextId m) point) (scene m1)).
  { rewrite E. cbn [scene]. apply in_or_app. right. now left. }
  assert (Hst1 : measurePreview m1 = Some (nextId m) -> measurePoint m1 = None)
    by now rewrite E.
  clearbody m1. clear E.
  split; [|split; [|split; [|exact Hnext]]].
  - clear Hnext. revert m1 Hwf1 Hin1 Hst1 Hact.
    induction actions as [|a actions IH]; intros m1 Hwf1 Hin1 Hst1 Hact; [exact Hin1|].
    simpl in Hact. apply andb_prop in Hact as [Ha Hact].
    apply negb_true_iff in Ha.
    destruct (marker_kept m1 a _ _ Hwf1 Ha Hin1 Hst1) as [Hin2 Hst2].
    simpl. apply IH; auto. now apply act_well_formed.
  - rewrite clearMeasurements_scene by now apply session_well_formed.
    intros H. apply filter_In in H as [_ H]. discriminate.
  - intros typed meshCount showDimensions H.
    destruct (meshEffect_scene typed meshCount showDimensions (fold_left act actions m1))
      as (added & Hs & _); [now apply session_well_formed|].
    rewrite Hs in H. apply in_app_or in H as [H|H].
    + apply filter_In in H as [_ H]. discriminate.
    + apply in_map_iff in H as (k & Hk & _). discriminate.
Qed.

(** After a first pick at (3,4,0) and leaving the mode, the marker 3 is
    still there after re-entering and measuring from the origin to
    (3,4,0), and a reload of the meshes takes it out. *)
Lemma marker_survives_toggle_witness :
  In (PreviewGroup 3 point_3_4_0)
     (scene (fold_left act [ToggleMeasure; Click [zero3]; Click [point_3_4_0]]
               (act (act measuring_start (Click [point_3_4_0])) ToggleMeasure))) /\
  ~ In (PreviewGroup 3 point_3_4_0)
      (scene (meshEffect (fun id => Nat.eqb id 2) 1 true
                (fold_left act [ToggleMeasure; Click [zero3]; Click [point_3_4_0]]
                   (act (act measuring_start (Click [point_3_4_0])) ToggleMeasure)))).
Proof.
  destruct (marker_survives_toggle measuring_start point_3_4_0 []
              [ToggleMeasure; Click [zero3]; Click [point_3_4_0]]
              measuring_start_well_formed eq_refl eq_refl eq_refl)
    as (_ & _ & Hin & _ & Hout & _).
  split; [exact Hin | apply Hout].
Defined.

End ViewerReloads.

(** ** Storey names and elevations *)

Lemma discover_headers api ids i acc s :
  In s (fst (discover api ids i acc)) ->
  In s acc \/
  exists k line,
    ids !! k = Some (expressID s) /\
    GetStoreyLine api (expressID s) = Normal (Some line) /\
    name s = default ("Storey " +:+ decimal (i + k + 1)) (Name_value line) /\
    elevation s = default 0%Q (Elevation_value line) /\
    elementIDs s = [].
Proof.
  revert i acc. induction ids as [|sid ids IH]; intros i acc; simpl; [auto|].
  destruct (GetStoreyLine api sid) as [[line|]|] eqn:Hline; auto.
  intros Hin. apply IH in Hin as [Hin|(k & line' & Hk & Hl & Hn & He & Hids)].
  - apply in_app_or in Hin as [Hin|[<-|[]]]; [now left|].
    right. exists 0%nat, line. cbn [expressID name elevation elementIDs].
    rewrite Nat.add_0_r. auto.
  - right. exists (S k), line'. split; [exact Hk|]. split; [exact Hl|].
    split; [|auto]. rewrite Hn. do 3 f_equal. lia.
Qed.

(** X24. Every storey of the parsed model comes from the record of its id:
    its elevation is the record's, or 0 when the record has none, and its
    name is the record's, or "Storey k" for the k-th storey id of the model
    when the record has none.  The number is the position in the decoder's
    order, not the position after sorting by elevation. *)
Theorem storey_headers_from_records api s :
  In s (parse_storeys api) ->
  exists k line,
    GetLineIDsWithType api IFCBUILDINGSTOREY !! k = Some (expressID s) /\
    GetStoreyLine api (expressID s) = Normal (Some line) /\
    name s = default ("Storey " +:+ decimal (k + 1)) (Name_value line) /\
    elevation s = default 0%Q (Elevation_value line).
Proof.
  intros Hin.
  assert (H : exists s', In s' (discovered api) /\ header s' = header s).
  { unfold parse_storeys, discovered in *.
    destruct (discover api (GetLineIDsWithType api IFCBUILDINGSTOREY) 0 [])
      as [found completed].
    destruct completed; [|now exists s].
    apply (in_map header) in Hin. rewrite header_passes in Hin. cbn [storeys] in Hin.
    apply in_map_iff in Hin as (s' & Hh & Hin). exists s'. split; [|exact Hh].
    eapply Permutation_in; [apply js_sort_perm | exact Hin]. }
  destruct H as (s' & Hin' & Hh). unfold header in Hh.
  injection Hh as Hn He Hid.
  apply discover_headers in Hin' as [[]|(k & line & Hk & Hl & Hn' & He' & _)].
  rewrite <- Hid, <- Hn, <- He. exists k, line. auto.
Qed.

Lemma storey_headers_from_records_witness :
  exists k line,
    GetLineIDsWithType sample_api IFCBUILDINGSTOREY !! k = Some 2%Z /\
    GetStoreyLine sample_api 2 = Normal (Some line) /\
    "Storey 2"%string = default ("Storey " +:+ decimal (k + 1)) (Name_value line) /\
    0%Q = default 0%Q (Elevation_value line).
Proof.
  apply (storey_headers_from_records sample_api
           {| name := "Storey 2"; elevation := 0; expressID := 2; elementIDs := [10%Z] |}).
  vm_compute. auto.
Defined.
